(** * vector-db: the HNSW index and the database facade

    A shallow embedding of [internal/types.go], [internal/errors.go],
    [internal/distance.go], [internal/hnsw.go] and [internal/database.go],
    followed by the properties of the specification that were checked
    against it.

    Conventions.
    - A Go [int] is a [Z]; where the source can overflow the 64-bit range
      the wrap-around is written out ([int_add]).  Levels of the graph are
      produced by [getRandomLevel] only and are natural numbers.
    - A [float32] is a value of an abstract carrier [F] with the comparison
      [flt] and the negation [fneg]; the distance kernel of
      [internal/distance.go] is the parameter [CalculateDistance].
    - A finite [float64] (the level multiplier, the draws of the random
      source, the numbers of a JSON document) is the rational it denotes.
    - [map[string]bool] used as a set is a [gset string]; the other maps are
      [gmap]s.  The order in which [range] walks a map is the parameter
      [iter].
    - [*HNSWNode] is an optional address ([None] is [nil]) into the store
      [mem] of node objects, so that two references to one node see the same
      connections.
    - A run-time panic (nil dereference, index out of range, bad slice
      bounds, failed type assertion) is an outcome of its own. *)

From stdpp Require Import base gmap sets list strings.
From Stdlib Require Import ZArith QArith Qround Reals Lra Lia Sorted.
Close Scope R_scope.
Close Scope Q_scope.
Close Scope Z_scope.

Set Warnings "-register-all".

(** ** Go integers, slices and conversions *)

Definition int64_wrap (z : Z) : Z := ((z + 2 ^ 63) mod 2 ^ 64 - 2 ^ 63)%Z.

Definition int_add (a b : Z) : Z := int64_wrap (a + b).

Definition len {A} (l : list A) : Z := Z.of_nat (length l).

(** [s[lo:hi]] for a slice whose capacity equals its length: a panic
    ([None]) unless [0 <= lo <= hi <= len s]. *)
Definition slice {A} (s : list A) (lo hi : Z) : option (list A) :=
  if ((0 <=? lo) && (lo <=? hi) && (hi <=? len s))%Z
  then Some (take (Z.to_nat (hi - lo)) (drop (Z.to_nat lo) s))
  else None.

(** [int(x)] on a float64: truncation toward zero. *)
Definition Qtrunc (q : Q) : Z := Z.quot (Qnum q) (Zpos (Qden q)).

Definition Qmax (a b : Q) : Q := if Qle_bool b a then a else b.

Definition Qlt_bool (a b : Q) : bool := negb (Qle_bool b a).

(** ** internal/errors.go *)

Inductive error : Type :=
| DimensionMismatchError (Expected Actual : Z)
| VectorNotFoundError (ID : string)
| InvalidConfigError (Field Reason : string)
| DatabaseError (Operation : string) (Cause : error)
| PersistenceError (Operation Path : string)
| Errorf (message : string).

(** ** internal/types.go *)

Inductive json : Type :=
| JNull
| JBool (b : bool)
| JNumber (x : Q)
| JString (s : string)
| JArray (l : list json)
| JObject (fields : gmap string json).

(** [map[string]interface{}]: [None] is the nil map. *)
Definition Tags : Type := option (gmap string json).

Definition DistanceMetric : Type := Z.
Definition CosineSimilarity : DistanceMetric := 0%Z.
Definition EuclideanDistance : DistanceMetric := 1%Z.
Definition DotProduct : DistanceMetric := 2%Z.
Definition ManhattanDistance : DistanceMetric := 3%Z.

Record HNSWConfig : Type := mkHNSWConfig {
  M : Z;
  EfConstruction : Z;
  EfSearch : Z;
  MaxM : Z;
  MaxM0 : Z;
  Ml : Q
}.

Definition DefaultHNSWConfig : HNSWConfig :=
  {| M := 16;
     EfConstruction := 200;
     EfSearch := 50;
     MaxM := 16;
     MaxM0 := 32;
     Ml := (1 / 2.303)%Q |}.

Record VectorMetadata : Type := mkVectorMetadata {
  CreatedAt : Z;
  MetaTags : Tags
}.

(** ** internal/distance.go: the ef heuristic *)

Definition CalculateOptimalEf (k baseEf : Z) : Z :=
  let minEf := k in
  if (minEf <? baseEf)%Z
  then Qtrunc (Qmax (inject_Z baseEf) (inject_Z k * 1.5)%Q)
  else Qtrunc (inject_Z k * 1.5)%Q.

(** ** math/rand

    The source of the index is modelled by the raw 63-bit values it is
    going to produce; a finite list stands for the sequence that goes on
    with zeros.  [Float64] returns a value of [0,1), [Intn n] a value of
    [0,n) and panics when [n <= 0]. *)

Definition Rand : Type := list Z.

Definition Int63 (r : Rand) : Z * Rand :=
  match r with
  | [] => (0%Z, [])
  | x :: r' => ((x mod 2 ^ 63)%Z, r')
  end.

Definition Float64 (r : Rand) : Q * Rand :=
  let '(x, r') := Int63 r in (Qmake x (2 ^ 63), r').

Definition Intn (r : Rand) (n : Z) : option (Z * Rand) :=
  if (n <=? 0)%Z then None
  else let '(x, r') := Int63 r in Some ((x mod n)%Z, r').

(** Exchange of two cells of a slice. *)
Definition exchange {A} (l : list A) (i j : nat) : list A :=
  match l !! i, l !! j with
  | Some a, Some b => <[i := b]> (<[j := a]> l)
  | _, _ => l
  end.

Section Model.

(** The float32 carrier, its comparison and negation, the distance kernel,
    the float64-to-float32 conversion and the iteration order of maps. *)
Context {F : Type}.
Variable flt : F -> F -> bool.
Variable fneg : F -> F.
Variable CalculateDistance : list F -> list F -> DistanceMetric -> F.
Variable float32 : Q -> F.
Variable iter : gset string -> list string.

Record HNSWNode : Type := mkHNSWNode {
  ID : string;
  Vector : list F;
  Connections : list (gset string);
  Level : nat;
  Metadata : Tags
}.

Record SearchResult : Type := mkSearchResult {
  ResultID : string;
  Score : F
}.

(** The [Index] field of the source is written by [Swap], [Push] and [Pop]
    and read nowhere; it is left out. *)
Record PriorityQueueItem : Type := mkItem {
  ItemID : string;
  Distance : F
}.

Abbreviation PriorityQueue := (list PriorityQueueItem).

Definition Less (pq : PriorityQueue) (i j : nat) : bool :=
  match pq !! i, pq !! j with
  | Some a, Some b => flt (Distance a) (Distance b)
  | _, _ => false
  end.

Definition Swap (pq : PriorityQueue) (i j : nat) : PriorityQueue :=
  exchange pq i j.

(** ** container/heap over [PriorityQueue]

    [up] and [down] are the two loops of the Go library; the first argument
    bounds the number of iterations ([j] halves in [up], [i] grows below
    [n] in [down]). *)

Fixpoint up (fuel : nat) (h : PriorityQueue) (j : nat) : PriorityQueue :=
  let i := ((j - 1) / 2)%nat in
  if (i =? j)%nat || negb (Less h j i) then h
  else match fuel with
       | O => h
       | S fuel' => up fuel' (Swap h i j) i
       end.

Fixpoint down (fuel : nat) (h : PriorityQueue) (i n : nat) : PriorityQueue :=
  let j1 := (2 * i + 1)%nat in
  if (n <=? j1)%nat then h
  else
    let j := if (j1 + 1 <? n)%nat && Less h (j1 + 1) j1 then (j1 + 1)%nat else j1 in
    if negb (Less h j i) then h
    else match fuel with
         | O => h
         | S fuel' => down fuel' (Swap h i j) j n
         end.

Definition heap_Push (h : PriorityQueue) (x : PriorityQueueItem) : PriorityQueue :=
  up (length h) (h ++ [x]) (length h).

(** [heap.Pop]: [None] on the empty queue, where the Go code indexes out
    of range. *)
Definition heap_Pop (h : PriorityQueue) : option (PriorityQueueItem * PriorityQueue) :=
  let n := (length h - 1)%nat in
  let h' := down n (Swap h 0 n) 0 n in
  match h' !! n with
  | Some item => Some (item, take n h')
  | None => None
  end.


(** ** internal/hnsw.go *)

(** [*HNSWNode]: an address of the store, or nil. *)
Abbreviation ref := (option nat).

Record HNSWIndex : Type := mkHNSWIndex {
  mem : gmap nat HNSWNode;
  nodes : gmap string nat;
  entryPoint : ref;
  config : HNSWConfig;
  dimensions : Z;
  distanceFunc : DistanceMetric;
  maxLevel : nat;
  levelMultiplier : Q;
  rng : Rand
}.

Definition NewHNSWIndex (cfg : HNSWConfig) (dims : Z) (metric : DistanceMetric)
    (seed : Rand) : HNSWIndex :=
  {| mem := ∅;
     nodes := ∅;
     entryPoint := None;
     config := cfg;
     dimensions := dims;
     distanceFunc := metric;
     maxLevel := 0;
     levelMultiplier := Ml cfg;
     rng := seed |}.

Definition set_mem (h : HNSWIndex) (m : gmap nat HNSWNode) : HNSWIndex :=
  {| mem := m; nodes := nodes h; entryPoint := entryPoint h; config := config h;
     dimensions := dimensions h; distanceFunc := distanceFunc h;
     maxLevel := maxLevel h; levelMultiplier := levelMultiplier h; rng := rng h |}.

Definition set_nodes (h : HNSWIndex) (ns : gmap string nat) : HNSWIndex :=
  {| mem := mem h; nodes := ns; entryPoint := entryPoint h; config := config h;
     dimensions := dimensions h; distanceFunc := distanceFunc h;
     maxLevel := maxLevel h; levelMultiplier := levelMultiplier h; rng := rng h |}.

Definition set_entry (h : HNSWIndex) (e : ref) (l : nat) : HNSWIndex :=
  {| mem := mem h; nodes := nodes h; entryPoint := e; config := config h;
     dimensions := dimensions h; distanceFunc := distanceFunc h;
     maxLevel := l; levelMultiplier := levelMultiplier h; rng := rng h |}.

Definition set_rng (h : HNSWIndex) (r : Rand) : HNSWIndex :=
  {| mem := mem h; nodes := nodes h; entryPoint := entryPoint h; config := config h;
     dimensions := dimensions h; distanceFunc := distanceFunc h;
     maxLevel := maxLevel h; levelMultiplier := levelMultiplier h; rng := r |}.

(** Dereferencing: [None] for nil. *)
Definition deref (h : HNSWIndex) (p : ref) : option HNSWNode :=
  match p with
  | Some a => mem h !! a
  | None => None
  end.

(** [h.nodes[id]], then a field access on the result. *)
Definition node_of (h : HNSWIndex) (id : string) : option HNSWNode :=
  deref h (nodes h !! id).

(** The outcome of a method that writes the index: it returns, or it
    panics; either way the writes made so far stay. *)
Inductive outcome (A : Type) : Type :=
| Ret (a : A) (h : HNSWIndex)
| Panic (h : HNSWIndex).
Arguments Ret {A} a h.
Arguments Panic {A} h.

Definition Op (A : Type) : Type := HNSWIndex -> outcome A.

Definition ret {A} (a : A) : Op A := fun h => Ret a h.

Definition bind {A B} (c : Op A) (k : A -> Op B) : Op B :=
  fun h => match c h with
           | Ret a h' => k a h'
           | Panic h' => Panic h'
           end.

Definition panic {A} : Op A := fun h => Panic h.

Definition get : Op HNSWIndex := fun h => Ret h h.

Definition put (h : HNSWIndex) : Op unit := fun _ => Ret tt h.

(** A read that panics on [None]. *)
Definition must {A} (o : option A) : Op A :=
  match o with
  | Some a => ret a
  | None => panic
  end.

Notation "x <- c ;; k" := (bind c (fun x => k))
  (at level 100, c at next level, right associativity).
Notation "c ;;; k" := (bind c (fun _ => k))
  (at level 100, right associativity).

Fixpoint forM {A} (l : list A) (body : A -> Op unit) : Op unit :=
  match l with
  | [] => ret tt
  | x :: l' => body x ;;; forM l' body
  end.

(** The final state of an outcome. *)
Definition final {A} (o : outcome A) : HNSWIndex :=
  match o with
  | Ret _ h => h
  | Panic h => h
  end.

(** *** getRandomLevel *)

Fixpoint level_loop (fuel : nat) (mult : Q) (r : Rand) (level : nat) : nat * Rand :=
  let '(u, r') := Float64 r in
  if Qlt_bool u mult && (level <? 16)%nat then
    match fuel with
    | O => (level, r')
    | S fuel' => level_loop fuel' mult r' (S level)
    end
  else (level, r').

Definition getRandomLevel : Op nat :=
  fun h => let '(level, r') := level_loop 16 (levelMultiplier h) (rng h) 0 in
           Ret level (set_rng h r').

(** *** searchLayer *)

Record search_state : Type := mkSearch {
  visited : gset string;
  candidates : PriorityQueue;
  w : PriorityQueue
}.

Fixpoint init_entries (h : HNSWIndex) (query : list F) (entryPoints : list ref)
    (st : search_state) : option search_state :=
  match entryPoints with
  | [] => Some st
  | ep :: rest =>
      match deref h ep with
      | None => None
      | Some n =>
          let distance := CalculateDistance query (Vector n) (distanceFunc h) in
          init_entries h query rest
            {| visited := {[ID n]} ∪ visited st;
               candidates := heap_Push (candidates st) (mkItem (ID n) distance);
               w := heap_Push (w st) (mkItem (ID n) (fneg distance)) |}
      end
  end.

(** The body of the loop over the connections of the current node. *)
Definition visit_neighbor (h : HNSWIndex) (query : list F) (ef : Z)
    (st : search_state) (neighborID : string) : option search_state :=
  if decide (neighborID ∈ visited st) then Some st
  else
    let vis := {[neighborID]} ∪ visited st in
    match node_of h neighborID with
    | None => None
    | Some neighbor =>
        let distance := CalculateDistance query (Vector neighbor) (distanceFunc h) in
        if (len (w st) <? ef)%Z then
          Some {| visited := vis;
                  candidates := heap_Push (candidates st) (mkItem neighborID distance);
                  w := heap_Push (w st) (mkItem neighborID (fneg distance)) |}
        else
          match w st !! 0%nat with
          | None => None
          | Some furthest =>
              if flt distance (fneg (Distance furthest)) then
                match heap_Pop (w st) with
                | None => None
                | Some (_, w') =>
                    Some {| visited := vis;
                            candidates := heap_Push (candidates st) (mkItem neighborID distance);
                            w := heap_Push w' (mkItem neighborID (fneg distance)) |}
                end
              else Some {| visited := vis; candidates := candidates st; w := w st |}
          end
    end.

Fixpoint visit_all (h : HNSWIndex) (query : list F) (ef : Z)
    (st : search_state) (ids : list string) : option search_state :=
  match ids with
  | [] => Some st
  | neighborID :: rest =>
      match visit_neighbor h query ef st neighborID with
      | None => None
      | Some st' => visit_all h query ef st' rest
      end
  end.

(** The stop test made after a candidate was popped. *)
Definition should_stop (ef : Z) (wq : PriorityQueue) (current : PriorityQueueItem)
    : option bool :=
  if (ef <=? len wq)%Z then
    match wq !! 0%nat with
    | None => None
    | Some furthest => Some (flt (fneg (Distance furthest)) (Distance current))
    end
  else Some false.

Fixpoint search_loop (fuel : nat) (h : HNSWIndex) (query : list F) (ef : Z)
    (level : nat) (st : search_state) : option search_state :=
  match fuel with
  | O => Some st
  | S fuel' =>
      match heap_Pop (candidates st) with
      | None => Some st
      | Some (current, rest) =>
          let st1 := {| visited := visited st; candidates := rest; w := w st |} in
          match should_stop ef (w st) current with
          | None => None
          | Some true => Some st1
          | Some false =>
              match node_of h (ItemID current) with
              | None => None
              | Some currentNode =>
                  match Connections currentNode !! level with
                  | None => search_loop fuel' h query ef level st1
                  | Some conns =>
                      match visit_all h query ef st1 (iter conns) with
                      | None => None
                      | Some st2 => search_loop fuel' h query ef level st2
                      end
                  end
              end
          end
      end
  end.

(** Every id that occurs in a connection set of a node of the store. *)
Definition known_ids (h : HNSWIndex) : gset string :=
  map_fold (fun _ n acc => ⋃ (Connections n) ∪ acc) ∅ (mem h).

Definition search_fuel (h : HNSWIndex) (entryPoints : list ref) : nat :=
  S (length entryPoints + size (known_ids h)).

(** The last loop: [w] is emptied, each popped node goes to the front. *)
Fixpoint drain (fuel : nat) (h : HNSWIndex) (wq : PriorityQueue) (result : list ref)
    : list ref :=
  match fuel with
  | O => result
  | S fuel' =>
      match heap_Pop wq with
      | None => result
      | Some (item, wq') => drain fuel' h wq' ((nodes h !! ItemID item) :: result)
      end
  end.

Definition searchLayer (h : HNSWIndex) (query : list F) (entryPoints : list ref)
    (ef : Z) (level : nat) : option (list ref) :=
  match init_entries h query entryPoints
          {| visited := ∅; candidates := []; w := [] |} with
  | None => None
  | Some st0 =>
      match search_loop (search_fuel h entryPoints) h query ef level st0 with
      | None => None
      | Some st => Some (drain (length (w st)) h (w st) [])
      end
  end.


Fixpoint descend (h : HNSWIndex) (query : list F) (ep : list ref)
    (currentLevel level : nat) : option (list ref) :=
  match currentLevel with
  | O => Some ep
  | S below =>
      if (level <? currentLevel)%nat then
        match searchLayer h query ep 1 currentLevel with
        | None => None
        | Some ep' => descend h query ep' below level
        end
      else Some ep
  end.

(** *** selectNeighbors *)

Fixpoint distances_of (h : HNSWIndex) (query : list F) (cands : list ref)
    : option (list (ref * F)) :=
  match cands with
  | [] => Some []
  | candidate :: rest =>
      match deref h candidate, distances_of h query rest with
      | Some n, Some ds =>
          Some ((candidate, CalculateDistance query (Vector n) (distanceFunc h)) :: ds)
      | _, _ => None
      end
  end.

(** The inner loop: the index of the first strictly smallest distance from
    [minIdx] on, [js] being the indices still to look at. *)
Fixpoint scan_min (ds : list (ref * F)) (minIdx : nat) (js : list nat) : nat :=
  match js with
  | [] => minIdx
  | j :: js' =>
      match ds !! j, ds !! minIdx with
      | Some (_, dj), Some (_, dm) =>
          if flt dj dm then scan_min ds j js' else scan_min ds minIdx js'
      | _, _ => scan_min ds minIdx js'
      end
  end.

Fixpoint select_loop (count i : nat) (ds : list (ref * F)) (selected : list ref)
    : list ref :=
  match count with
  | O => selected
  | S count' =>
      let minIdx := scan_min ds i (seq (S i) (length ds - S i)) in
      let ds' := if (minIdx =? i)%nat then ds else exchange ds i minIdx in
      match ds' !! i with
      | Some (c, _) => select_loop count' (S i) ds' (selected ++ [c])
      | None => selected
      end
  end.

Definition selectNeighbors (h : HNSWIndex) (cands : list ref) (m : Z)
    (query : list F) (level : nat) : option (list ref) :=
  if (len cands <=? m)%Z then Some cands
  else if (m <? 0)%Z then None
  else
    match distances_of h query cands with
    | None => None
    | Some ds => Some (select_loop (Z.to_nat m `min` length cands) 0 ds [])
    end.

(** *** addConnection, pruneConnections *)

Definition set_connections (n : HNSWNode) (cs : list (gset string)) : HNSWNode :=
  {| ID := ID n; Vector := Vector n; Connections := cs; Level := Level n;
     Metadata := Metadata n |}.

Definition load (p : ref) : Op HNSWNode :=
  h <- get ;; must (deref h p).

(** [p.Connections[level] = c], the index being in range. *)
Definition write_connections (p : ref) (level : nat) (c : gset string) : Op unit :=
  n <- load p ;;
  h <- get ;;
  match p with
  | Some a =>
      put (set_mem h (<[a := set_connections n (<[level := c]> (Connections n))]> (mem h)))
  | None => panic
  end.

Definition addConnection (node1 node2 : ref) (level : nat) : Op unit :=
  n1 <- load node1 ;;
  match Connections n1 !! level with
  | None => ret tt
  | Some c =>
      n2 <- load node2 ;;
      write_connections node1 level ({[ID n2]} ∪ c)
  end.

(** The pruning loop; [i1] is [i + 1]. *)
Fixpoint prune_loop (node : ref) (level : nat) (maxConn : Z)
    (connections : list string) (i1 : nat) : Op unit :=
  if (Z.of_nat i1 - 1 <? maxConn)%Z then ret tt
  else
    match i1 with
    | O => panic
    | S i =>
        h <- get ;;
        draw <- must (Intn (rng h) (Z.of_nat i + 1)) ;;
        put (set_rng h (snd draw)) ;;;
        let removeIdx := Z.to_nat (fst draw) in
        removeID <- must (connections !! removeIdx) ;;
        n <- load node ;;
        c <- must (Connections n !! level) ;;
        write_connections node level (c ∖ {[removeID]}) ;;;
        last <- must (connections !! i) ;;
        prune_loop node level maxConn (<[removeIdx := last]> connections) i
    end.

Definition pruneConnections (node : ref) (level : nat) : Op unit :=
  h <- get ;;
  let maxConn := if (level =? 0)%nat then MaxM0 (config h) else M (config h) in
  n <- load node ;;
  match Connections n !! level with
  | None => ret tt
  | Some c =>
      if (maxConn <? Z.of_nat (size c))%Z
      then prune_loop node level maxConn (iter c) (length (iter c))
      else ret tt
  end.

(** *** findNewEntryPoint *)

Definition findNewEntryPoint : Op unit :=
  h0 <- get ;;
  put (set_entry h0 None 0) ;;;
  forM (iter (dom (nodes h0))) (fun id =>
    h <- get ;;
    node <- must (node_of h id) ;;
    if (maxLevel h <? Level node)%nat
    then put (set_entry h (nodes h !! id) (Level node))
    else ret tt).

(** *** Insert *)

(** The second loop of [Insert]; [n] is [currentLevel + 1]. *)
Fixpoint connect_layers (node : ref) (vector : list F) (ep : list ref) (n : nat)
    : Op unit :=
  match n with
  | O => ret tt
  | S currentLevel =>
      h <- get ;;
      cands <- must (searchLayer h vector ep (EfConstruction (config h)) currentLevel) ;;
      let maxConn :=
        if (currentLevel =? 0)%nat then MaxM0 (config h) else M (config h) in
      selectedNeighbors <- must (selectNeighbors h cands maxConn vector currentLevel) ;;
      forM selectedNeighbors (fun neighbor =>
        addConnection node neighbor currentLevel ;;;
        addConnection neighbor node currentLevel ;;;
        pruneConnections neighbor currentLevel) ;;;
      connect_layers node vector selectedNeighbors currentLevel
  end.

Definition Insert (id : string) (vector : list F) (metadata : Tags)
    : Op (option error) :=
  h0 <- get ;;
  if negb (len vector =? dimensions h0)%Z then
    ret (Some (DimensionMismatchError (dimensions h0) (len vector)))
  else
    level <- getRandomLevel ;;
    h1 <- get ;;
    let a := fresh (dom (mem h1)) in
    let node : ref := Some a in
    put (set_mem h1
           (<[a := mkHNSWNode id vector (replicate (S level) ∅) level metadata]>
              (mem h1))) ;;;
    h2 <- get ;;
    match entryPoint h2 with
    | None =>
        put (set_entry (set_nodes h2 (<[id := a]> (nodes h2))) node level) ;;;
        ret None
    | Some _ =>
        ep <- must (descend h2 vector [entryPoint h2] (maxLevel h2) level) ;;
        connect_layers node vector ep (S (level `min` maxLevel h2)) ;;;
        h3 <- get ;;
        (if (maxLevel h3 <? level)%nat then put (set_entry h3 node level) else ret tt) ;;;
        h4 <- get ;;
        put (set_nodes h4 (<[id := a]> (nodes h4))) ;;;
        ret None
    end.

(** *** Search *)

(** The result of a method that only reads: a value, an error value, or a
    panic. *)
Inductive result (A : Type) : Type :=
| Ok (a : A)
| Err (e : error)
| Crash.
Arguments Ok {A} a.
Arguments Err {A} e.
Arguments Crash {A}.

Fixpoint collect (h : HNSWIndex) (vector : list F) (k i : Z) (cands : list ref)
    : option (list SearchResult) :=
  match cands with
  | [] => Some []
  | node :: rest =>
      if (k <=? i)%Z then Some []
      else
        match deref h node, collect h vector k (i + 1) rest with
        | Some n, Some results =>
            Some (mkSearchResult (ID n)
                    (CalculateDistance vector (Vector n) (distanceFunc h)) :: results)
        | _, _ => None
        end
  end.

Definition Search (h : HNSWIndex) (vector : list F) (k ef : Z)
    : result (list SearchResult) :=
  if negb (len vector =? dimensions h)%Z then
    Err (DimensionMismatchError (dimensions h) (len vector))
  else
    match entryPoint h with
    | None => Ok []
    | Some _ =>
        let ef := if (ef <? k)%Z then k else ef in
        match descend h vector [entryPoint h] (maxLevel h) 0 with
        | None => Crash
        | Some ep =>
            match searchLayer h vector ep ef 0 with
            | None => Crash
            | Some cands =>
                if (k <? 0)%Z then Crash
                else
                  match collect h vector k 0 cands with
                  | None => Crash
                  | Some results => Ok results
                  end
            end
        end
    end.

(** *** Delete *)

Definition unlink (id : string) (level : nat) (neighborID : string) : Op unit :=
  h <- get ;;
  match nodes h !! neighborID with
  | None => ret tt
  | Some b =>
      neighbor <- load (Some b) ;;
      c <- must (Connections neighbor !! level) ;;
      write_connections (Some b) level (c ∖ {[id]})
  end.

Definition Delete (id : string) : Op (option error) :=
  h0 <- get ;;
  match nodes h0 !! id with
  | None => ret (Some (VectorNotFoundError id))
  | Some a =>
      node <- load (Some a) ;;
      forM (seq 0 (S (Level node))) (fun level =>
        n <- load (Some a) ;;
        c <- must (Connections n !! level) ;;
        forM (iter c) (unlink id level)) ;;;
      h1 <- get ;;
      (if decide (entryPoint h1 = Some a) then findNewEntryPoint else ret tt) ;;;
      h2 <- get ;;
      put (set_nodes h2 (delete id (nodes h2))) ;;;
      ret None
  end.


(** ** internal/database.go

    The statistics tracker (a separate object behind its own lock, read by
    none of the operations below), the auto-save worker and the locks are
    left out.  The clock reading taken for [CreatedAt] is the argument
    [now]. *)

Record DatabaseConfig : Type := mkDatabaseConfig {
  Dimensions : Z;
  ConfigMetric : DistanceMetric;
  IndexType : string;
  HNSW : HNSWConfig;
  PersistPath : string;
  AutoSave : bool;
  SaveInterval : Z
}.

Definition DefaultDatabaseConfig : DatabaseConfig :=
  {| Dimensions := 32;
     ConfigMetric := CosineSimilarity;
     IndexType := "hnsw";
     HNSW := DefaultHNSWConfig;
     PersistPath := "vectordb_data";
     AutoSave := true;
     SaveInterval := 300000000000 |}.

Record VectorDatabase : Type := mkVectorDatabase {
  index : HNSWIndex;
  vectors : gmap string VectorMetadata;
  db_config : DatabaseConfig;
  db_dimensions : Z;
  persistPath : string;
  autoSave : bool;
  saveInterval : Z
}.

Definition set_index (db : VectorDatabase) (h : HNSWIndex) : VectorDatabase :=
  {| index := h; vectors := vectors db; db_config := db_config db;
     db_dimensions := db_dimensions db; persistPath := persistPath db;
     autoSave := autoSave db; saveInterval := saveInterval db |}.

Definition set_vectors (db : VectorDatabase) (vs : gmap string VectorMetadata)
    : VectorDatabase :=
  {| index := index db; vectors := vs; db_config := db_config db;
     db_dimensions := db_dimensions db; persistPath := persistPath db;
     autoSave := autoSave db; saveInterval := saveInterval db |}.

Definition NewVectorDatabase (cfg : DatabaseConfig) (seed : Rand)
    : result VectorDatabase :=
  if (Dimensions cfg <=? 0)%Z then
    Err (InvalidConfigError "dimensions" "must be positive")
  else
    Ok {| index := NewHNSWIndex (HNSW cfg) (Dimensions cfg) (ConfigMetric cfg) seed;
          vectors := ∅;
          db_config := cfg;
          db_dimensions := Dimensions cfg;
          persistPath := PersistPath cfg;
          autoSave := AutoSave cfg;
          saveInterval := SaveInterval cfg |}.

(** The outcome of a facade method that writes the database. *)
Inductive db_outcome (A : Type) : Type :=
| Returned (a : A) (db : VectorDatabase)
| Aborted (db : VectorDatabase).
Arguments Returned {A} a db.
Arguments Aborted {A} db.

Definition db_final {A} (o : db_outcome A) : VectorDatabase :=
  match o with
  | Returned _ db => db
  | Aborted db => db
  end.

Record VectorRec : Type := mkVector {
  VecID : string;
  Data : list F
}.

Record InsertRequest : Type := mkInsertRequest {
  ReqVector : VectorRec;
  ReqMetadata : Tags
}.

Definition DB_Insert (db : VectorDatabase) (req : InsertRequest) (now : Z)
    : db_outcome (option error) :=
  let id := VecID (ReqVector req) in
  if negb (len (Data (ReqVector req)) =? db_dimensions db)%Z then
    Returned (Some (DimensionMismatchError (db_dimensions db)
                      (len (Data (ReqVector req))))) db
  else
    match vectors db !! id with
    | Some _ =>
        Returned (Some (Errorf ("vector with ID " +:+ id +:+ " already exists"))) db
    | None =>
        match Insert id (Data (ReqVector req)) (ReqMetadata req) (index db) with
        | Panic h' => Aborted (set_index db h')
        | Ret (Some err) h' =>
            Returned (Some (DatabaseError "insert" err)) (set_index db h')
        | Ret None h' =>
            Returned None
              (set_vectors (set_index db h')
                 (<[id := mkVectorMetadata now (ReqMetadata req)]> (vectors db)))
        end
    end.

Definition DB_Search (db : VectorDatabase) (vector : list F) (K : Z)
    : result (list SearchResult) :=
  if negb (len vector =? db_dimensions db)%Z then
    Err (DimensionMismatchError (db_dimensions db) (len vector))
  else
    let K := if (K <=? 0)%Z then 10%Z else K in
    let ef := CalculateOptimalEf K (EfSearch (HNSW (db_config db))) in
    Search (index db) vector K ef.

Definition DB_Delete (db : VectorDatabase) (id : string) : db_outcome (option error) :=
  match vectors db !! id with
  | None => Returned (Some (VectorNotFoundError id)) db
  | Some _ =>
      match Delete id (index db) with
      | Panic h' => Aborted (set_index db h')
      | Ret (Some err) h' =>
          Returned (Some (DatabaseError "delete" err)) (set_index db h')
      | Ret None h' =>
          Returned None (set_vectors (set_index db h') (delete id (vectors db)))
      end
  end.

Definition DB_Get (db : VectorDatabase) (id : string)
    : result (VectorRec * VectorMetadata) :=
  match vectors db !! id with
  | None => Err (VectorNotFoundError id)
  | Some metadata =>
      match nodes (index db) !! id with
      | None =>
          Err (DatabaseError "get" (Errorf "vector found in metadata but not in index"))
      | Some a =>
          match mem (index db) !! a with
          | None => Crash
          | Some node => Ok (mkVector id (Vector node), metadata)
          end
      end
  end.

Definition DB_List (db : VectorDatabase) (offset limit : Z) : result (list string) :=
  let ids := iter (dom (vectors db)) in
  if (len ids <=? offset)%Z then Ok []
  else
    let end_ := int_add offset limit in
    let end_ := if (len ids <? end_)%Z then len ids else end_ in
    match slice ids offset end_ with
    | Some page => Ok page
    | None => Crash
    end.

(** *** Save and Load

    The directory is the record [disk]; which step of [Save] fails, if any,
    and what [Load] finds in [vectors.json] are given by the caller. *)


Inductive save_fault : Type :=
| MkdirFails | MarshalConfigFails | WriteConfigFails | MarshalVectorsFails
| WriteVectorsFails | MarshalIndexFails | WriteIndexFails.

Definition vectorData (db : VectorDatabase) : gmap string (list F * VectorMetadata) :=
  map_imap (fun id metadata =>
              match node_of (index db) id with
              | Some node => Some (Vector node, metadata)
              | None => None
              end) (vectors db).



Inductive vectors_file : Type :=
| FileAbsent
| FileUnreadable
| FileMalformed
| FileParsed (vectorData : gmap string json).

(** [float32(v.(float64))] over the array. *)
Fixpoint to_float32s (vectorSlice : list json) : option (list F) :=
  match vectorSlice with
  | [] => Some []
  | JNumber x :: rest =>
      match to_float32s rest with
      | Some vector => Some (float32 x :: vector)
      | None => None
      end
  | _ :: _ => None
  end.

Definition tags_of (dataMap : gmap string json) : Tags :=
  match dataMap !! "metadata" with
  | Some (JObject metadataMap) =>
      match metadataMap !! "tags" with
      | Some (JObject tags) => Some tags
      | _ => None
      end
  | _ => None
  end.

Fixpoint load_entries (db : VectorDatabase) (doc : gmap string json)
    (ids : list string) (now : Z) : db_outcome (option error) :=
  match ids with
  | [] => Returned None db
  | id :: rest =>
      match doc !! id with
      | Some (JObject dataMap) =>
          match dataMap !! "vector" with
          | Some (JArray vectorSlice) =>
              match to_float32s vectorSlice with
              | None => Aborted db
              | Some vector =>
                  let metadata := tags_of dataMap in
                  match Insert id vector metadata (index db) with
                  | Panic h' => Aborted (set_index db h')
                  | Ret (Some err) h' =>
                      Returned (Some (DatabaseError "rebuild_index" err))
                        (set_index db h')
                  | Ret None h' =>
                      load_entries
                        (set_vectors (set_index db h')
                           (<[id := mkVectorMetadata now metadata]> (vectors db)))
                        doc rest now
                  end
              end
          | _ => Aborted db
          end
      | _ => Aborted db
      end
  end.

Definition DB_Load (db : VectorDatabase) (file : vectors_file) (now : Z)
    : db_outcome (option error) :=
  let vectorsPath := persistPath db +:+ "/vectors.json" in
  match file with
  | FileAbsent => Returned None db
  | FileUnreadable => Returned (Some (PersistenceError "read_vectors" vectorsPath)) db
  | FileMalformed => Returned (Some (PersistenceError "unmarshal_vectors" vectorsPath)) db
  | FileParsed doc => load_entries db doc (iter (dom doc)) now
  end.


(** *** A call to the facade

    [apply_op db o] is the database after the call [o], whether the call
    returned or panicked; the methods that only read leave it as it is. *)

Inductive facade_op : Type :=
| OpInsert (req : InsertRequest) (now : Z)
| OpSearch (vector : list F) (K : Z)
| OpDelete (id : string)
| OpGet (id : string)
| OpList (offset limit : Z)
| OpSave (fault : option save_fault)
| OpLoad (file : vectors_file) (now : Z).

Definition apply_op (db : VectorDatabase) (o : facade_op) : VectorDatabase :=
  match o with
  | OpInsert req now => db_final (DB_Insert db req now)
  | OpDelete id => db_final (DB_Delete db id)
  | OpLoad file now => db_final (DB_Load db file now)
  | OpSearch _ _ | OpGet _ | OpList _ _ | OpSave _ => db
  end.

(** The specification has [Load] run on an empty database; the other calls
    are made in any state. *)
Definition in_contract (db : VectorDatabase) (o : facade_op) : Prop :=
  match o with
  | OpLoad _ _ => vectors db = ∅
  | _ => True
  end.

(** * Properties *)

(** ** The ef heuristic *)




(** ** The default configuration and the level cap *)

Lemma level_loop_cap (fuel : nat) (mult : Q) (r : Rand) (level : nat) :
  level <= 16 -> fst (level_loop fuel mult r level) <= 16.
Proof.
  revert r level. induction fuel as [| fuel IH]; intros r level Hl; cbn [level_loop].
  - destruct (Float64 r) as [u r']. destruct (_ && _); exact Hl.
  - destruct (Float64 r) as [u r'].
    destruct (Qlt_bool u mult); cbn [andb]; [| exact Hl].
    destruct (Nat.ltb_spec level 16); [| exact Hl].
    apply IH. lia.
Qed.

Lemma inverse_ln2_above_one : (1 < / ln 2)%R.
Proof.
  assert (H2 : (2 < exp 1)%R).
  { pose proof (exp_ineq1 1 ltac:(lra)). lra. }
  assert (Hln : (ln 2 < 1)%R).
  { apply Rlt_le_trans with (ln (exp 1)).
    - apply ln_increasing; lra.
    - rewrite ln_exp. lra. }
  pose proof ln_lt_2 as Hpos.
  rewrite <- Rinv_1 at 1. apply Rinv_lt_contravar; lra.
Qed.

(** C6: the default configuration has M=16, MaxM0=32, efConstruction=200,
    efSearch=50 and generated levels never exceed 16; but the decay factor
    [Ml] is [1/2.303], which lies below [1/2], whereas [1/ln 2] lies above
    [1]: the default is not [1/ln 2]. *)
Theorem DefaultHNSWConfig_Ml_below_inverse_ln2 :
  M DefaultHNSWConfig = 16%Z /\ MaxM0 DefaultHNSWConfig = 32%Z /\
  EfConstruction DefaultHNSWConfig = 200%Z /\ EfSearch DefaultHNSWConfig = 50%Z /\
  (forall h : HNSWIndex, match getRandomLevel h with
                         | Ret level _ => level <= 16
                         | Panic _ => False
                         end) /\
  (Q2R (Ml DefaultHNSWConfig) < 1 / 2)%R /\ (1 < / ln 2)%R.
Proof.
  repeat split; try reflexivity.
  - intros h. unfold getRandomLevel.
    pose proof (level_loop_cap 16 (levelMultiplier h) (rng h) 0 ltac:(lia)) as Hc.
    destruct (level_loop 16 (levelMultiplier h) (rng h) 0) as [level r']. exact Hc.
  - unfold Q2R.
    change (Qnum (Ml DefaultHNSWConfig)) with 1000%Z.
    change (Qden (Ml DefaultHNSWConfig)) with 2303%positive.
    lra.
  - exact inverse_ln2_above_one.
Qed.

(** ** List *)

(** C7: [List] panics on every negative offset, whatever the database and
    the limit: the slice expression [ids[offset:end]] is reached with a
    negative lower bound. *)
Theorem DB_List_negative_offset_crashes (db : VectorDatabase) (p : positive) (limit : Z) :
  DB_List db (Z.neg p) limit = Crash.
Proof.
  unfold DB_List.
  destruct (Z.leb_spec (len (iter (dom (vectors db)))) (Z.neg p)) as [Hle | _].
  { unfold len in Hle. lia. }
  unfold slice. reflexivity.
Qed.

(** ** Reasoning about methods of the index

    [respects R c] says that the state in which [c] stops, by returning or
    by a panic, is related by [R] to the state in which it started. *)

Section Respects.

Variable R : relation HNSWIndex.
Context `{!PreOrder R}.

Definition respects {A} (c : Op A) : Prop := forall h, R h (final (c h)).

Lemma respects_ret {A} (a : A) : respects (ret a).
Proof. intros h. cbn. reflexivity. Qed.

Lemma respects_panic {A} : respects (@panic A).
Proof. intros h. cbn. reflexivity. Qed.

Lemma respects_must {A} (o : option A) : respects (must o).
Proof. destruct o; [apply respects_ret | apply respects_panic]. Qed.

Lemma respects_bind {A B} (c : Op A) (k : A -> Op B) :
  respects c -> (forall a, respects (k a)) -> respects (bind c k).
Proof.
  intros Hc Hk h. unfold bind. specialize (Hc h).
  destruct (c h) as [a h' | h']; cbn in *; [| exact Hc].
  etrans; [exact Hc | apply Hk].
Qed.

(** A read of the state followed by a continuation that may use it. *)
Lemma respects_get_bind {B} (k : HNSWIndex -> Op B) :
  (forall h, R h (final (k h h))) -> respects (bind get k).
Proof. intros Hk h. unfold bind, get. apply Hk. Qed.

Lemma respects_forM {A} (l : list A) (body : A -> Op unit) :
  (forall x, respects (body x)) -> respects (forM l body).
Proof.
  intros Hb. induction l as [| x l IH]; cbn [forM].
  - apply respects_ret.
  - apply respects_bind; [apply Hb | intros _; exact IH].
Qed.

End Respects.

(** What no method of the index changes in a node once it is allocated:
    everything but the connection sets (whose number stays too). *)
Definition same_payload (n n' : HNSWNode) : Prop :=
  ID n' = ID n /\ Vector n' = Vector n /\ Level n' = Level n /\
  Metadata n' = Metadata n /\ length (Connections n') = length (Connections n).

Definition mem_extends (m m' : gmap nat HNSWNode) : Prop :=
  forall a n, m !! a = Some n -> exists n', m' !! a = Some n' /\ same_payload n n'.

(** [frames h h']: the id table and the configuration are the same, the
    nodes of [h] are still there with their payload. *)
Record frames (h h' : HNSWIndex) : Prop := mkFrames {
  fr_nodes : nodes h' = nodes h;
  fr_config : config h' = config h;
  fr_dimensions : dimensions h' = dimensions h;
  fr_distanceFunc : distanceFunc h' = distanceFunc h;
  fr_levelMultiplier : levelMultiplier h' = levelMultiplier h;
  fr_mem : mem_extends (mem h) (mem h')
}.

(** [evolves h h']: as [frames], and the entry point stays. *)
Record evolves (h h' : HNSWIndex) : Prop := mkEvolves {
  ev_frames : frames h h';
  ev_entryPoint : entryPoint h' = entryPoint h;
  ev_maxLevel : maxLevel h' = maxLevel h
}.

Lemma same_payload_refl (n : HNSWNode) : same_payload n n.
Proof. by repeat split. Qed.

Lemma same_payload_trans (n1 n2 n3 : HNSWNode) :
  same_payload n1 n2 -> same_payload n2 n3 -> same_payload n1 n3.
Proof.
  intros (? & ? & ? & ? & ?) (? & ? & ? & ? & ?).
  repeat split; congruence.
Qed.

Lemma mem_extends_refl (m : gmap nat HNSWNode) : mem_extends m m.
Proof. intros a n Ha. exists n. split; [done | apply same_payload_refl]. Qed.

Lemma mem_extends_trans (m1 m2 m3 : gmap nat HNSWNode) :
  mem_extends m1 m2 -> mem_extends m2 m3 -> mem_extends m1 m3.
Proof.
  intros H12 H23 a n Ha.
  destruct (H12 a n Ha) as (n2 & Ha2 & Hp2).
  destruct (H23 a n2 Ha2) as (n3 & Ha3 & Hp3).
  exists n3. split; [done | by eapply same_payload_trans].
Qed.

#[local] Instance frames_preorder : PreOrder frames.
Proof.
  split.
  - intros h. split; try done. apply mem_extends_refl.
  - intros h1 h2 h3 [] []. split; try congruence.
    by eapply mem_extends_trans.
Qed.

#[local] Instance evolves_preorder : PreOrder evolves.
Proof.
  split.
  - intros h. split; try done.
  - intros h1 h2 h3 [] []. split; try congruence. by etrans.
Qed.

(** *** The primitive writes *)

Lemma evolves_set_rng (h : HNSWIndex) (r : Rand) : evolves h (set_rng h r).
Proof. repeat split; try done. apply mem_extends_refl. Qed.

Lemma evolves_write (h : HNSWIndex) (a : nat) (n : HNSWNode) (cs : list (gset string)) :
  mem h !! a = Some n -> length cs = length (Connections n) ->
  evolves h (set_mem h (<[a := set_connections n cs]> (mem h))).
Proof.
  intros Ha Hlen. repeat split; try done.
  intros b nb Hb. cbn. destruct (decide (a = b)) as [-> | Hne].
  - rewrite lookup_insert_eq. eexists; split; [done |].
    assert (nb = n) as -> by congruence. by repeat split.
  - rewrite lookup_insert_ne by done. exists nb. split; [done | apply same_payload_refl].
Qed.

Lemma frames_set_entry (h : HNSWIndex) (e : ref) (l : nat) : frames h (set_entry h e l).
Proof. split; try done. apply mem_extends_refl. Qed.


(** The rules above at the relations in use. *)

Lemma ev_ret {A} (a : A) : respects evolves (ret a).
Proof. apply respects_ret. exact _. Qed.

Lemma ev_panic {A} : respects evolves (@panic A).
Proof. apply respects_panic. exact _. Qed.

Lemma ev_must {A} (o : option A) : respects evolves (must o).
Proof. apply respects_must. exact _. Qed.

Lemma ev_bind {A B} (c : Op A) (k : A -> Op B) :
  respects evolves c -> (forall a, respects evolves (k a)) -> respects evolves (bind c k).
Proof. apply respects_bind. exact _. Qed.

Lemma ev_get_bind {B} (k : HNSWIndex -> Op B) :
  (forall h, evolves h (final (k h h))) -> respects evolves (bind get k).
Proof. apply respects_get_bind. Qed.

Lemma ev_forM {A} (l : list A) (body : A -> Op unit) :
  (forall x, respects evolves (body x)) -> respects evolves (forM l body).
Proof. apply respects_forM. exact _. Qed.

Lemma stable_load (p : ref) : respects evolves (load p).
Proof. apply ev_get_bind. intros h. apply ev_must. Qed.

Lemma load_Ret (p : ref) (h : HNSWIndex) (n : HNSWNode) (h' : HNSWIndex) :
  load p h = Ret n h' -> h' = h /\ deref h p = Some n.
Proof.
  unfold load, bind, get, must. destruct (deref h p); cbn; intros [=]; by subst.
Qed.

Lemma stable_write_connections (p : ref) (level : nat) (c : gset string) :
  respects evolves (write_connections p level c).
Proof.
  intros h. unfold write_connections, bind.
  destruct (load p h) as [n h1 | h1] eqn:Hl.
  - apply load_Ret in Hl as [-> Hd]. cbn. destruct p as [a |]; cbn in *; [| done].
    apply evolves_write; [done | by rewrite length_insert].
  - pose proof (stable_load p h) as Hs. by rewrite Hl in Hs.
Qed.

Lemma stable_addConnection (node1 node2 : ref) (level : nat) :
  respects evolves (addConnection node1 node2 level).
Proof.
  unfold addConnection. apply ev_bind; [apply stable_load |].
  intros n1. destruct (Connections n1 !! level); [| apply ev_ret].
  apply ev_bind; [apply stable_load |].
  intros n2. apply stable_write_connections.
Qed.

Lemma stable_prune_loop (node : ref) (level : nat) (maxConn : Z)
    (connections : list string) (i1 : nat) :
  respects evolves (prune_loop node level maxConn connections i1).
Proof.
  revert connections. induction i1 as [| i IH]; intros connections; cbn [prune_loop].
  - destruct (_ <? _)%Z; [apply ev_ret | apply ev_panic].
  - destruct (_ <? _)%Z; [apply ev_ret |].
    apply ev_get_bind. intros h.
    unfold bind at 1. destruct (Intn (rng h) (Z.of_nat i + 1)) as [draw |]; cbn [must ret panic final];
      [| reflexivity].
    unfold bind at 1. cbn [put].
    etrans; [apply (evolves_set_rng h (snd draw)) |].
    generalize (set_rng h draw.2). clear h. revert draw.
    intros draw. change (respects evolves
      (removeID <- must (connections !! Z.to_nat draw.1) ;;
       n <- load node ;;
       c <- must (Connections n !! level) ;;
       write_connections node level (c ∖ {[removeID]}) ;;;
       last <- must (connections !! i) ;;
       prune_loop node level maxConn (<[Z.to_nat draw.1 := last]> connections) i)).
    apply ev_bind; [apply ev_must |]. intros removeID.
    apply ev_bind; [apply stable_load |]. intros n.
    apply ev_bind; [apply ev_must |]. intros c.
    apply ev_bind; [apply stable_write_connections |]. intros _.
    apply ev_bind; [apply ev_must |]. intros last.
    apply IH.
Qed.

Lemma stable_pruneConnections (node : ref) (level : nat) :
  respects evolves (pruneConnections node level).
Proof.
  unfold pruneConnections. apply ev_get_bind. intros h.
  apply ev_bind; [apply stable_load |]. intros n.
  destruct (Connections n !! level); [| apply ev_ret].
  destruct (_ <? _)%Z; [apply stable_prune_loop | apply ev_ret].
Qed.

Lemma stable_connect_layers (node : ref) (vector : list F) (ep : list ref) (n : nat) :
  respects evolves (connect_layers node vector ep n).
Proof.
  revert ep. induction n as [| currentLevel IH]; intros ep; cbn [connect_layers].
  - apply ev_ret.
  - apply ev_get_bind. intros h.
    apply ev_bind; [apply ev_must |]. intros cands.
    apply ev_bind; [apply ev_must |]. intros selected.
    apply ev_bind; [| intros _; apply IH].
    apply ev_forM. intros neighbor.
    apply ev_bind; [apply stable_addConnection |]. intros _.
    apply ev_bind; [apply stable_addConnection |]. intros _.
    apply stable_pruneConnections.
Qed.

Lemma stable_unlink (id : string) (level : nat) (neighborID : string) :
  respects evolves (unlink id level neighborID).
Proof.
  unfold unlink. apply ev_get_bind. intros h.
  destruct (nodes h !! neighborID) as [b |]; [| apply ev_ret].
  apply ev_bind; [apply stable_load |]. intros nb.
  apply ev_bind; [apply ev_must |]. intros c.
  apply stable_write_connections.
Qed.

(** ** Pruning writes one node only *)

(** The nodes other than the one at [a] are as they were. *)
Definition only_at (a : nat) (h h' : HNSWIndex) : Prop :=
  forall b, b <> a -> mem h' !! b = mem h !! b.

#[local] Instance only_at_preorder (a : nat) : PreOrder (only_at a).
Proof.
  split.
  - by intros h b Hb.
  - intros h1 h2 h3 H12 H23 b Hb. by rewrite (H23 b Hb), (H12 b Hb).
Qed.

Lemma only_at_load (a : nat) (p : ref) : respects (only_at a) (load p).
Proof.
  unfold load. apply respects_get_bind. intros h. apply respects_must. exact _.
Qed.

Lemma only_at_write (a level : nat) (c : gset string) :
  respects (only_at a) (write_connections (Some a) level c).
Proof.
  intros h. unfold write_connections, bind.
  destruct (load (Some a) h) as [n h1 | h1] eqn:Hl.
  - apply load_Ret in Hl as [-> _]. cbn. intros b Hb. cbn.
    by rewrite lookup_insert_ne.
  - pose proof (only_at_load a (Some a) h) as Hs. by rewrite Hl in Hs.
Qed.

Lemma only_at_prune_loop (a level : nat) (maxConn : Z) (connections : list string)
    (i1 : nat) :
  respects (only_at a) (prune_loop (Some a) level maxConn connections i1).
Proof.
  revert connections. induction i1 as [| i IH]; intros connections; cbn [prune_loop].
  - destruct (_ <? _)%Z; [apply respects_ret | apply respects_panic]; exact _.
  - destruct (_ <? _)%Z; [apply respects_ret; exact _ |].
    apply respects_get_bind. intros h.
    unfold bind at 1.
    destruct (Intn (rng h) (Z.of_nat i + 1)) as [draw |]; cbn [must ret panic final];
      [| reflexivity].
    unfold bind at 1. cbn [put].
    etrans; [instantiate (1 := set_rng h draw.2); by intros b Hb |].
    generalize (set_rng h draw.2). clear h.
    change (respects (only_at a)
      (removeID <- must (connections !! Z.to_nat draw.1) ;;
       n <- load (Some a) ;;
       c <- must (Connections n !! level) ;;
       write_connections (Some a) level (c ∖ {[removeID]}) ;;;
       last <- must (connections !! i) ;;
       prune_loop (Some a) level maxConn (<[Z.to_nat draw.1 := last]> connections) i)).
    apply respects_bind; [exact _ | apply respects_must; exact _ |]. intros removeID.
    apply respects_bind; [exact _ | apply only_at_load |]. intros n.
    apply respects_bind; [exact _ | apply respects_must; exact _ |]. intros c.
    apply respects_bind; [exact _ | apply only_at_write |]. intros _.
    apply respects_bind; [exact _ | apply respects_must; exact _ |]. intros last.
    apply IH.
Qed.

(** [pruneConnections] on the node at [a] leaves every other node as it
    was: an edge it drops from the set of [a] stays in the neighbour's
    set. *)
Lemma pruneConnections_one_sided (a level : nat) (h : HNSWIndex) (b : nat) :
  b <> a -> mem (final (pruneConnections (Some a) level h)) !! b = mem h !! b.
Proof.
  revert b. change (only_at a h (final (pruneConnections (Some a) level h))).
  revert h. change (respects (only_at a) (pruneConnections (Some a) level)).
  unfold pruneConnections. apply respects_get_bind. intros h.
  apply respects_bind; [exact _ | apply only_at_load |]. intros n.
  destruct (Connections n !! level); [| apply respects_ret; exact _].
  destruct (_ <? _)%Z; [apply only_at_prune_loop | apply respects_ret; exact _].
Qed.

(** [rescans h h']: as [frames], and the entry point is the old one, nil,
    or a node registered in the id table. *)
Record rescans (h h' : HNSWIndex) : Prop := mkRescans {
  rs_frames : frames h h';
  rs_entryPoint :
    entryPoint h' = entryPoint h \/ entryPoint h' = None \/
    exists x, nodes h !! x = entryPoint h' /\ is_Some (entryPoint h')
}.

#[local] Instance rescans_preorder : PreOrder rescans.
Proof.
  split.
  - intros h. split; [reflexivity | by left].
  - intros h1 h2 h3 [Hf12 He12] [Hf23 He23]. split; [by etrans |].
    destruct He23 as [He | [He | (x & Hx & Hs)]].
    + rewrite He. destruct He12 as [He' | [He' | (x & Hx & Hs)]]; eauto.
    + eauto.
    + right; right. exists x. rewrite <- (fr_nodes _ _ Hf12). eauto.
Qed.

Lemma evolves_rescans (h h' : HNSWIndex) : evolves h h' -> rescans h h'.
Proof. intros [Hf He _]. split; [done | by left]. Qed.

Lemma rs_get_bind {B} (k : HNSWIndex -> Op B) :
  (forall h, rescans h (final (k h h))) -> respects rescans (bind get k).
Proof. apply respects_get_bind. Qed.

Lemma rs_forM {A} (l : list A) (body : A -> Op unit) :
  (forall x, respects rescans (body x)) -> respects rescans (forM l body).
Proof. apply respects_forM. exact _. Qed.

Lemma rescans_findNewEntryPoint : respects rescans findNewEntryPoint.
Proof.
  unfold findNewEntryPoint. apply rs_get_bind. intros h0.
  unfold bind at 1, put at 1. etrans.
  { instantiate (1 := set_entry h0 None 0).
    split; [apply frames_set_entry | by right; left]. }
  generalize (set_entry h0 None 0). generalize (iter (dom (nodes h0))).
  clear h0. intros ids. apply rs_forM. intros id. apply rs_get_bind. intros h.
  unfold bind, must. destruct (node_of h id) as [node |]; cbn [ret panic final];
    [| reflexivity].
  destruct (maxLevel h <? Level node)%nat; cbn [ret put final]; [| reflexivity].
  split; [apply frames_set_entry |]. cbn [entryPoint set_entry].
  destruct (nodes h !! id) as [b |] eqn:Hb; [| by right; left].
  right; right. exists id. eauto.
Qed.

(** *** What [Insert] and [Delete] do to the index *)

Definition registered_at (h : HNSWIndex) (id : string) (vector : list F) (a : nat)
    : Prop :=
  exists n, mem h !! a = Some n /\ ID n = id /\ Vector n = vector.

Lemma registered_at_extends (h h' : HNSWIndex) id vector a :
  mem_extends (mem h) (mem h') -> registered_at h id vector a ->
  registered_at h' id vector a.
Proof.
  intros Hm (n & Ha & Hi & Hv). destruct (Hm a n Ha) as (n' & Ha' & Hp & Hq & _).
  exists n'. repeat split; [done | congruence | congruence].
Qed.

(** The end of [Insert], once the dimension is checked, the level drawn
    and the node allocated at [a]. *)
Definition Insert_tail (id : string) (vector : list F) (level a : nat)
    : Op (option error) :=
  h2 <- get ;;
  match entryPoint h2 with
  | None =>
      put (set_entry (set_nodes h2 (<[id := a]> (nodes h2))) (Some a) level) ;;;
      ret None
  | Some _ =>
      ep <- must (descend h2 vector [entryPoint h2] (maxLevel h2) level) ;;
      connect_layers (Some a) vector ep (S (level `min` maxLevel h2)) ;;;
      h3 <- get ;;
      (if (maxLevel h3 <? level)%nat then put (set_entry h3 (Some a) level) else ret tt) ;;;
      h4 <- get ;;
      put (set_nodes h4 (<[id := a]> (nodes h4))) ;;;
      ret None
  end.

Definition inserted (h h' : HNSWIndex) (id : string) (a : nat) : Prop :=
  exists hm, evolves h hm /\
    (h' = set_nodes hm (<[id := a]> (nodes hm)) \/
     exists level, h' = set_nodes (set_entry hm (Some a) level) (<[id := a]> (nodes hm))).

Lemma Insert_tail_outcome (id : string) (vector : list F) (level a : nat) (h : HNSWIndex) :
  match Insert_tail id vector level a h with
  | Ret None h' => inserted h h' id a
  | Ret (Some _) _ => False
  | Panic h' => evolves h h'
  end.
Proof.
  unfold Insert_tail. unfold bind at 1, get at 1.
  destruct (entryPoint h) as [e |] eqn:He.
  - unfold bind at 1.
    destruct (descend h vector [Some e] (maxLevel h) level) as [ep |]; cbn [must ret panic];
      [| reflexivity].
    unfold bind at 1.
    pose proof (stable_connect_layers (Some a) vector ep (S (level `min` maxLevel h)) h) as Hc.
    destruct (connect_layers _ _ _ _ h) as [[] hm | hm]; cbn [final] in Hc; [| exact Hc].
    unfold bind at 1, get at 1.
    destruct (maxLevel hm <? level)%nat; cbn; exists hm; eauto.
  - cbn. exists h. split; [reflexivity |]. right. exists level.
    by destruct h.
Qed.

Lemma evolves_alloc (h : HNSWIndex) (a : nat) (n : HNSWNode) :
  mem h !! a = None -> evolves h (set_mem h (<[a := n]> (mem h))).
Proof.
  intros Ha. repeat split; try done. intros b nb Hb. cbn.
  exists nb. split; [| apply same_payload_refl].
  rewrite lookup_insert_ne; [done | congruence].
Qed.

Lemma fresh_unallocated (h : HNSWIndex) : mem h !! fresh (dom (mem h)) = None.
Proof. apply not_elem_of_dom, is_fresh. Qed.

(** [Insert] returns the dimension error without touching the index, or it
    registers [id] at a new address that holds [vector], or it panics; in
    the last two cases the nodes that were there keep their payload. *)
Lemma Insert_outcome (id : string) (vector : list F) (metadata : Tags) (h : HNSWIndex) :
  match Insert id vector metadata h with
  | Ret (Some e) h' =>
      h' = h /\ e = DimensionMismatchError (dimensions h) (len vector) /\
      len vector <> dimensions h
  | Ret None h' =>
      len vector = dimensions h /\
      exists a h2, mem h !! a = None /\ evolves h h2 /\ registered_at h2 id vector a /\
                   inserted h2 h' id a
  | Panic h' => len vector = dimensions h /\ evolves h h'
  end.
Proof.
  unfold Insert. unfold bind at 1, get at 1.
  destruct (Z.eqb_spec (len vector) (dimensions h)) as [Hdim | Hdim]; cbn [negb];
    [| by cbn].
  unfold bind at 1. unfold getRandomLevel at 1.
  destruct (level_loop 16 (levelMultiplier h) (rng h) 0) as [level r'].
  unfold bind at 1, get at 1. unfold bind at 1, put at 1.
  set (h1 := set_rng h r'). set (a := fresh (dom (mem h1))).
  set (h2 := set_mem h1 _).
  assert (Ha : mem h !! a = None) by apply (fresh_unallocated h1).
  assert (H12 : evolves h h2).
  { etrans; [apply (evolves_set_rng h r') |]. by apply evolves_alloc. }
  assert (Hreg : registered_at h2 id vector a).
  { eexists. split; [apply lookup_insert_eq | done]. }
  change (match Insert_tail id vector level a h2 with
          | Ret (Some e) h' =>
              h' = h /\ e = DimensionMismatchError (dimensions h) (len vector) /\
              len vector <> dimensions h
          | Ret None h' =>
              len vector = dimensions h /\
              exists a h2, mem h !! a = None /\ evolves h h2 /\
                           registered_at h2 id vector a /\ inserted h2 h' id a
          | Panic h' => len vector = dimensions h /\ evolves h h'
          end).
  pose proof (Insert_tail_outcome id vector level a h2) as Ht.
  destruct (Insert_tail id vector level a h2) as [[e |] h' | h'].
  - done.
  - split; [done |]. exists a, h2. done.
  - split; [done |]. by etrans.
Qed.

(** [Delete] reports a missing id without touching the index, or it
    unlinks the node, possibly looks for a new entry point, and removes the
    id from the table. *)
Lemma Delete_outcome (id : string) (h : HNSWIndex) :
  match Delete id h with
  | Ret (Some e) h' => h' = h /\ nodes h !! id = None /\ e = VectorNotFoundError id
  | Ret None h' =>
      is_Some (nodes h !! id) /\
      exists hm, rescans h hm /\ h' = set_nodes hm (delete id (nodes hm))
  | Panic h' => is_Some (nodes h !! id) /\ rescans h h'
  end.
Proof.
  unfold Delete. unfold bind at 1, get at 1.
  destruct (nodes h !! id) as [a |] eqn:Hid; [| by cbn].
  unfold bind at 1.
  pose proof (stable_load (Some a) h) as Hl.
  destruct (load (Some a) h) as [node h0 | h0] eqn:Hload; cbn [final] in Hl;
    [| split; [done | by apply evolves_rescans]].
  apply load_Ret in Hload as [-> _]. clear Hl.
  unfold bind at 1.
  assert (Hloop : respects evolves
            (forM (seq 0 (S (Level node))) (fun level =>
               n <- load (Some a) ;;
               c <- must (Connections n !! level) ;;
               forM (iter c) (unlink id level)))).
  { apply ev_forM. intros level.
    apply ev_bind; [apply stable_load |]. intros n.
    apply ev_bind; [apply ev_must |]. intros c.
    apply ev_forM. intros neighborID. apply stable_unlink. }
  specialize (Hloop h).
  destruct (forM _ _ h) as [[] h1 | h1]; cbn [final] in Hloop;
    [| split; [done | by apply evolves_rescans]].
  unfold bind at 1, get at 1. unfold bind at 1.
  assert (Hfind : rescans h1 (final ((if decide (entryPoint h1 = Some a)
                                      then findNewEntryPoint else ret tt) h1))).
  { destruct (decide _); [apply rescans_findNewEntryPoint | reflexivity]. }
  destruct ((if decide (entryPoint h1 = Some a) then findNewEntryPoint else ret tt) h1)
    as [[] hm | hm]; cbn [final] in Hfind.
  - cbn. split; [done |]. exists hm. split; [| done].
    etrans; [by apply evolves_rescans | done].
  - split; [done |]. etrans; [by apply evolves_rescans | done].
Qed.

(** ** The facade *)

Lemma inserted_nodes (h h' : HNSWIndex) (id : string) (a : nat) :
  inserted h h' id a -> nodes h' = <[id := a]> (nodes h).
Proof.
  intros (hm & Hev & [-> | (level & ->)]); cbn;
    by rewrite (fr_nodes _ _ (ev_frames _ _ Hev)).
Qed.

Lemma inserted_mem (h h' : HNSWIndex) (id : string) (a : nat) :
  inserted h h' id a -> mem_extends (mem h) (mem h').
Proof.
  intros (hm & Hev & [-> | (level & ->)]); cbn; apply (fr_mem _ _ (ev_frames _ _ Hev)).
Qed.

(** *** Duplicate ids *)

(** C3, as amended: for every database and every request whose id is in
    the metadata map, the facade's [Insert] returns an error (the
    already-exists error when the vector has the configured dimension, the
    dimension error otherwise) and leaves the index and the metadata map
    as they were.  The index's own [Insert] has no duplicate check: the only
    error it returns is the dimension error. *)
Theorem DB_Insert_existing_id_rejected (db : VectorDatabase) (req : InsertRequest)
    (now : Z) :
  is_Some (vectors db !! VecID (ReqVector req)) ->
  DB_Insert db req now =
    Returned
      (Some (if (len (Data (ReqVector req)) =? db_dimensions db)%Z
             then Errorf ("vector with ID " +:+ VecID (ReqVector req) +:+ " already exists")
             else DimensionMismatchError (db_dimensions db) (len (Data (ReqVector req)))))
      db /\
  forall (h h' : HNSWIndex) (id : string) (vector : list F) (metadata : Tags) (e : error),
    Insert id vector metadata h = Ret (Some e) h' ->
    e = DimensionMismatchError (dimensions h) (len vector) /\ h' = h.
Proof.
  intros [meta Hm]. split.
  - unfold DB_Insert. destruct (_ =? _)%Z; cbn [negb]; [| done]. by rewrite Hm.
  - intros h h' id vector metadata e Hi.
    pose proof (Insert_outcome id vector metadata h) as Ho. rewrite Hi in Ho.
    by destruct Ho as (-> & -> & _).
Qed.

(** *** Search with [k <= 0], search without an entry point *)

Lemma NewVectorDatabase_no_entry (cfg : DatabaseConfig) (seed : Rand) (db : VectorDatabase) :
  NewVectorDatabase cfg seed = Ok db ->
  entryPoint (index db) = None /\ dimensions (index db) = db_dimensions db.
Proof.
  unfold NewVectorDatabase. destruct (_ <=? _)%Z; [done |]. by intros [= <-].
Qed.

(** C4, as amended: the facade replaces [k <= 0] by 10, so a search with
    [k = 0] is a search with [k = 10]; and when the index has no entry
    point (as in a new database) a search with a vector of the configured
    dimension returns the empty sequence, for every [k]. *)
Theorem DB_Search_default_k_and_no_entry (db : VectorDatabase) (vector : list F) (k : Z) :
  ((k <= 0)%Z -> DB_Search db vector k = DB_Search db vector 10) /\
  (entryPoint (index db) = None -> dimensions (index db) = db_dimensions db ->
   len vector = db_dimensions db -> DB_Search db vector k = Ok []).
Proof.
  split.
  - intros Hk. unfold DB_Search.
    destruct (Z.leb_spec k 0); [done | lia].
  - intros He Hd Hl. unfold DB_Search, Search. rewrite Hd, He.
    by destruct (Z.eqb_spec (len vector) (db_dimensions db)).
Qed.

(** *** The two key sets *)

Definition keys_agree (db : VectorDatabase) : Prop :=
  dom (vectors db) = dom (nodes (index db)).

Lemma NewVectorDatabase_keys_agree (cfg : DatabaseConfig) (seed : Rand) (db : VectorDatabase) :
  NewVectorDatabase cfg seed = Ok db -> keys_agree db.
Proof.
  unfold NewVectorDatabase. destruct (_ <=? _)%Z; [done |]. intros [= <-].
  unfold keys_agree. cbn. by rewrite !dom_empty_L.
Qed.

Lemma Insert_keys (db : VectorDatabase) (id : string) (vector : list F) (metadata : Tags)
    (now : Z) :
  keys_agree db ->
  match Insert id vector metadata (index db) with
  | Ret None h' =>
      keys_agree (set_vectors (set_index db h')
                    (<[id := mkVectorMetadata now metadata]> (vectors db)))
  | Ret (Some _) h' => keys_agree (set_index db h')
  | Panic h' => keys_agree (set_index db h')
  end.
Proof.
  unfold keys_agree. intros Hk.
  pose proof (Insert_outcome id vector metadata (index db)) as Ho.
  destruct (Insert id vector metadata (index db)) as [[e |] h' | h']; cbn.
  - by destruct Ho as (-> & _).
  - destruct Ho as (_ & a & h2 & _ & Hev & _ & Hins).
    rewrite (inserted_nodes _ _ _ _ Hins), (fr_nodes _ _ (ev_frames _ _ Hev)).
    by rewrite !dom_insert_L, Hk.
  - destruct Ho as [_ Hev]. by rewrite (fr_nodes _ _ (ev_frames _ _ Hev)).
Qed.

Lemma DB_Insert_keys (db : VectorDatabase) (req : InsertRequest) (now : Z) :
  keys_agree db -> keys_agree (db_final (DB_Insert db req now)).
Proof.
  intros Hk. unfold DB_Insert.
  destruct (negb _); [done |]. destruct (vectors db !! _); [done |].
  pose proof (Insert_keys db (VecID (ReqVector req)) (Data (ReqVector req))
                (ReqMetadata req) now Hk) as Hi.
  by destruct (Insert _ _ _ (index db)) as [[e |] h' | h'].
Qed.

Lemma DB_Delete_keys (db : VectorDatabase) (id : string) :
  keys_agree db -> keys_agree (db_final (DB_Delete db id)).
Proof.
  unfold keys_agree. intros Hk. unfold DB_Delete.
  destruct (vectors db !! id); [| done].
  pose proof (Delete_outcome id (index db)) as Ho.
  destruct (Delete id (index db)) as [[e |] h' | h']; cbn.
  - by destruct Ho as (-> & _).
  - destruct Ho as (_ & hm & Hrs & ->). cbn.
    by rewrite !dom_delete_L, (fr_nodes _ _ (rs_frames _ _ Hrs)), Hk.
  - destruct Ho as [_ Hrs]. by rewrite (fr_nodes _ _ (rs_frames _ _ Hrs)).
Qed.

Lemma load_entries_keys (doc : gmap string json) (ids : list string) (now : Z)
    (db : VectorDatabase) :
  keys_agree db -> keys_agree (db_final (load_entries db doc ids now)).
Proof.
  revert db. induction ids as [| id ids IH]; intros db Hk; cbn [load_entries]; [done |].
  destruct (doc !! id) as [[| | | | | dataMap] |]; try done.
  destruct (dataMap !! "vector") as [[| | | | vectorSlice |] |]; try done.
  destruct (to_float32s vectorSlice) as [vector |]; [| done].
  pose proof (Insert_keys db id vector (tags_of dataMap) now Hk) as Hi.
  destruct (Insert _ _ _ (index db)) as [[e |] h' | h']; try done.
  by apply IH.
Qed.

Lemma DB_Load_keys (db : VectorDatabase) (file : vectors_file) (now : Z) :
  keys_agree db -> keys_agree (db_final (DB_Load db file now)).
Proof.
  intros Hk. destruct file; try done. by apply load_entries_keys.
Qed.

(** C10: a call of [Insert], [Delete], [Load], [Save], [Get], [List] or
    [Search] on a database whose metadata map and id table have the same
    keys leaves a database with that property, whether the call returns or
    panics; and on such a database [Get] never reaches the branch for a
    metadata entry without a node. *)
Theorem keys_agree_preserved (db : VectorDatabase) (o : facade_op) :
  keys_agree db ->
  keys_agree (apply_op db o) /\
  forall (id : string) (cause : error), DB_Get db id <> Err (DatabaseError "get" cause).
Proof.
  intros Hk. split.
  - destruct o; cbn [apply_op]; try done.
    + by apply DB_Insert_keys.
    + by apply DB_Delete_keys.
    + by apply DB_Load_keys.
  - intros id cause. unfold DB_Get.
    destruct (vectors db !! id) as [meta |] eqn:Hm; [| done].
    assert (Hin : id ∈ dom (nodes (index db))).
    { rewrite <- Hk. apply elem_of_dom. eauto. }
    apply elem_of_dom in Hin as [a Ha]. rewrite Ha.
    by destruct (mem (index db) !! a).
Qed.

(** *** Insert, then Get *)

(** [id] is stored with the payload [vector] and the metadata [meta]. *)
Definition stored (db : VectorDatabase) (id : string) (vector : list F)
    (meta : VectorMetadata) : Prop :=
  vectors db !! id = Some meta /\
  exists a, nodes (index db) !! id = Some a /\ registered_at (index db) id vector a.



Lemma stored_Get (db : VectorDatabase) id vector meta :
  stored db id vector meta -> DB_Get db id = Ok (mkVector id vector, meta).
Proof.
  intros (Hm & a & Ha & n & Hn & _ & Hv). unfold DB_Get. by rewrite Hm, Ha, Hn, Hv.
Qed.


Lemma DB_Insert_stored (db db' : VectorDatabase) (req : InsertRequest) (now : Z) :
  DB_Insert db req now = Returned None db' ->
  stored db' (VecID (ReqVector req)) (Data (ReqVector req))
    (mkVectorMetadata now (ReqMetadata req)).
Proof.
  unfold DB_Insert. destruct (negb _); [done |].
  destruct (vectors db !! _); [done |].
  pose proof (Insert_outcome (VecID (ReqVector req)) (Data (ReqVector req))
                (ReqMetadata req) (index db)) as Ho.
  destruct (Insert _ _ _ (index db)) as [[e |] h' | h']; try done.
  intros [= <-]. destruct Ho as (_ & a & h2 & _ & _ & Hreg & Hins).
  split; cbn; [apply lookup_insert_eq |].
  exists a. split.
  - rewrite (inserted_nodes _ _ _ _ Hins). apply lookup_insert_eq.
  - eapply registered_at_extends; [by eapply inserted_mem | done].
Qed.



(** ** The priority queue

    From here on the comparison of float32 values is assumed to be a strict
    weak order that negation reverses: this is the order of the floats
    without NaN. *)

Section Order.

Hypothesis flt_irrefl : forall x, flt x x = false.
Hypothesis flt_trans : forall x y z, flt x y = true -> flt y z = true -> flt x z = true.
Hypothesis flt_negtrans :
  forall x y z, flt x z = true -> flt x y = true \/ flt y z = true.
Hypothesis fneg_flt : forall x y, flt (fneg x) (fneg y) = flt y x.

(** [x <= y] on float32. *)
Definition fle (x y : F) : Prop := flt y x = false.

Lemma fle_refl (x : F) : fle x x.
Proof. apply flt_irrefl. Qed.

Lemma fle_trans (x y z : F) : fle x y -> fle y z -> fle x z.
Proof.
  unfold fle. intros Hxy Hyz. destruct (flt z x) eqn:Hzx; [| done].
  destruct (flt_negtrans z y x Hzx); congruence.
Qed.

Lemma flt_fle (x y : F) : flt x y = true -> fle x y.
Proof.
  unfold fle. intros Hxy. destruct (flt y x) eqn:Hyx; [| done].
  pose proof (flt_trans x y x Hxy Hyx) as Hxx. by rewrite flt_irrefl in Hxx.
Qed.




(** *** Exchange of two cells *)

Lemma exchange_length {A} (l : list A) (i j : nat) : length (exchange l i j) = length l.
Proof.
  unfold exchange. destruct (l !! i), (l !! j); try done. by rewrite !length_insert.
Qed.

Lemma exchange_lookup_l {A} (l : list A) (i j : nat) (a b : A) :
  l !! i = Some a -> l !! j = Some b -> exchange l i j !! i = Some b.
Proof.
  intros Hi Hj. unfold exchange. rewrite Hi, Hj.
  apply list_lookup_insert_eq. rewrite length_insert. by eapply lookup_lt_Some.
Qed.

Lemma exchange_lookup_r {A} (l : list A) (i j : nat) (a b : A) :
  l !! i = Some a -> l !! j = Some b -> exchange l i j !! j = Some a.
Proof.
  intros Hi Hj. unfold exchange. rewrite Hi, Hj.
  destruct (decide (i = j)) as [-> | Hne].
  - assert (a = b) as -> by congruence.
    apply list_lookup_insert_eq. rewrite length_insert. by eapply lookup_lt_Some.
  - rewrite list_lookup_insert_ne by done.
    apply list_lookup_insert_eq. by eapply lookup_lt_Some.
Qed.

Lemma exchange_lookup_ne {A} (l : list A) (i j k : nat) :
  k <> i -> k <> j -> exchange l i j !! k = l !! k.
Proof.
  intros Hi Hj. unfold exchange. destruct (l !! i), (l !! j); try done.
  by rewrite !list_lookup_insert_ne.
Qed.

Lemma elem_of_exchange {A} (l : list A) (i j : nat) (x : A) :
  x ∈ exchange l i j -> x ∈ l.
Proof.
  unfold exchange. destruct (l !! i) as [a |] eqn:Hi; [| done].
  destruct (l !! j) as [b |] eqn:Hj; [| done].
  intros [k Hk]%list_elem_of_lookup.
  destruct (decide (k = i)) as [-> | Hki].
  - rewrite list_lookup_insert_eq in Hk.
    + apply list_elem_of_lookup. exists j. congruence.
    + rewrite length_insert. by eapply lookup_lt_Some.
  - rewrite list_lookup_insert_ne in Hk by done.
    destruct (decide (k = j)) as [-> | Hkj].
    + rewrite list_lookup_insert_eq in Hk by (by eapply lookup_lt_Some).
      apply list_elem_of_lookup. exists i. congruence.
    + rewrite list_lookup_insert_ne in Hk by done.
      apply list_elem_of_lookup. eauto.
Qed.

(** *** The heap order *)

Definition parent (k : nat) : nat := (k - 1) / 2.

Lemma parent_spec (k : nat) : 2 * parent k <= k - 1 < 2 * parent k + 2.
Proof.
  unfold parent. pose proof (Nat.div_mod_eq (k - 1) 2) as H.
  pose proof (Nat.mod_upper_bound (k - 1) 2 ltac:(lia)) as H2. lia.
Qed.





(** *** up *)


Lemma up_length (fuel : nat) (h : PriorityQueue) (j : nat) :
  length (up fuel h j) = length h.
Proof.
  revert h j. induction fuel as [| fuel IH]; intros h j; cbn [up].
  - by destruct (_ || _).
  - destruct (_ || _); [done |]. rewrite IH. apply exchange_length.
Qed.

Lemma elem_of_up (fuel : nat) (h : PriorityQueue) (j : nat) (x : PriorityQueueItem) :
  x ∈ up fuel h j -> x ∈ h.
Proof.
  revert h j. induction fuel as [| fuel IH]; intros h j; cbn [up].
  - by destruct (_ || _).
  - destruct (_ || _); [done |]. intros Hx%IH. by eapply elem_of_exchange.
Qed.


Lemma heap_Push_length (h : PriorityQueue) (x : PriorityQueueItem) :
  length (heap_Push h x) = S (length h).
Proof. unfold heap_Push. rewrite up_length, length_app. cbn. lia. Qed.

Lemma elem_of_heap_Push (h : PriorityQueue) (x y : PriorityQueueItem) :
  y ∈ heap_Push h x -> y ∈ h \/ y = x.
Proof.
  unfold heap_Push. intros Hy%elem_of_up.
  apply elem_of_app in Hy as [Hy | Hy]; [by left | right].
  by apply list_elem_of_singleton in Hy.
Qed.



(** *** down *)


Lemma down_length (fuel : nat) (h : PriorityQueue) (i n : nat) :
  length (down fuel h i n) = length h.
Proof.
  revert h i. induction fuel as [| fuel IH]; intros h i; cbn [down].
  - destruct (_ <=? _); [done |]. by destruct (negb _).
  - destruct (_ <=? _); [done |]. destruct (negb _); [done |].
    rewrite IH. apply exchange_length.
Qed.




(** *** Push and Pop *)

Lemma heap_Pop_nil : heap_Pop [] = None.
Proof. reflexivity. Qed.

Lemma heap_Pop_cons (h : PriorityQueue) :
  h <> [] -> exists item h', heap_Pop h = Some (item, h').
Proof.
  intros Hne. unfold heap_Pop.
  assert (Hlen : 0 < length h) by (destruct h; [done | cbn; lia]).
  set (n := length h - 1).
  destruct (lookup_lt_is_Some_2 (down n (Swap h 0 n) 0 n) n) as [item Hi].
  { rewrite down_length. unfold Swap. rewrite exchange_length. lia. }
  rewrite Hi. eauto.
Qed.


(** ** searchLayer returns its result in ascending order of distance *)











(** *** The last loop *)

Definition ref_of (h : HNSWIndex) (it : PriorityQueueItem) : ref := nodes h !! ItemID it.

(** The items behind the references returned by [drain]. *)
Fixpoint drain_items (fuel : nat) (wq : PriorityQueue) (acc : list PriorityQueueItem)
    : list PriorityQueueItem :=
  match fuel with
  | O => acc
  | S fuel' =>
      match heap_Pop wq with
      | None => acc
      | Some (item, wq') => drain_items fuel' wq' (item :: acc)
      end
  end.

Lemma drain_drain_items (fuel : nat) (h : HNSWIndex) (wq : PriorityQueue)
    (acc : list PriorityQueueItem) :
  drain fuel h wq (map (ref_of h) acc) = map (ref_of h) (drain_items fuel wq acc).
Proof.
  revert wq acc. induction fuel as [| fuel IH]; intros wq acc; cbn; [done |].
  destruct (heap_Pop wq) as [[item wq'] |]; [| done]. apply (IH wq' (item :: acc)).
Qed.




(** *** Search *)








(** ** The states the facade can reach

    [Load] is called on a database without vectors, as the specification
    has it; a map is walked without repetition; negation is an
    involution. *)

Hypothesis fneg_invol : forall x, fneg (fneg x) = x.
Hypothesis iter_NoDup : forall s, NoDup (iter s).

(** The id table names allocated nodes that carry their id; the entry
    point is an allocated node that is registered under its id or whose id
    is not registered at all. *)
Record wf_index (h : HNSWIndex) : Prop := mkWf {
  wf_ids : forall x a, nodes h !! x = Some a -> exists n, mem h !! a = Some n /\ ID n = x;
  wf_entry : forall e, entryPoint h = Some e ->
               exists n, mem h !! e = Some n /\
                         (nodes h !! ID n = Some e \/ nodes h !! ID n = None)
}.



Lemma wf_rescans (h h' : HNSWIndex) : wf_index h -> rescans h h' -> wf_index h'.
Proof.
  intros [Hids Hentry] [Hf He]. pose proof (fr_nodes _ _ Hf) as Hn.
  pose proof (fr_mem _ _ Hf) as Hm. split.
  - intros x a Ha. rewrite Hn in Ha. destruct (Hids x a Ha) as (n & Hna & Hid).
    destruct (Hm a n Hna) as (n' & Hn' & Hp & _). exists n'. split; [done | congruence].
  - intros e Hee. destruct He as [He | [He | (x & Hx & _)]].
    + rewrite He in Hee. destruct (Hentry e Hee) as (n & Hne & Hreg).
      destruct (Hm e n Hne) as (n' & Hn' & Hp & _). exists n'. split; [done |].
      by rewrite Hn, Hp.
    + congruence.
    + rewrite Hee in Hx. destruct (Hids x e Hx) as (n & Hne & Hid).
      destruct (Hm e n Hne) as (n' & Hn' & Hp & _). exists n'. split; [done |].
      left. rewrite Hn, Hp, Hid. done.
Qed.

Lemma wf_evolves (h h' : HNSWIndex) : wf_index h -> evolves h h' -> wf_index h'.
Proof. intros Hw He. eapply wf_rescans; [done | by apply evolves_rescans]. Qed.

Lemma wf_delete (h : HNSWIndex) (id : string) :
  wf_index h -> wf_index (set_nodes h (delete id (nodes h))).
Proof.
  intros [Hids Hentry]. split; cbn.
  - intros x a Ha. apply lookup_delete_Some in Ha as [_ Ha]. by apply Hids.
  - intros e He. destruct (Hentry e He) as (n & Hn & Hreg). exists n. split; [done |].
    destruct (decide (ID n = id)) as [-> | Hne].
    + right. apply lookup_delete_eq.
    + by rewrite lookup_delete_ne.
Qed.

Lemma Delete_wf (id : string) (h : HNSWIndex) :
  wf_index h -> wf_index (final (Delete id h)).
Proof.
  intros Hw. pose proof (Delete_outcome id h) as Ho.
  destruct (Delete id h) as [[e |] h' | h']; cbn.
  - by destruct Ho as (-> & _).
  - destruct Ho as (_ & hm & Hrs & ->). apply wf_delete. by eapply wf_rescans.
  - destruct Ho as [_ Hrs]. by eapply wf_rescans.
Qed.

(** *** An entry point whose id is not registered *)

Lemma heap_Push_nil (x : PriorityQueueItem) : heap_Push [] x = [x].
Proof. reflexivity. Qed.

Lemma heap_Pop_singleton (x : PriorityQueueItem) : heap_Pop [x] = Some (x, []).
Proof. reflexivity. Qed.

(** A search that starts from such an entry point alone panics: the node
    of the first candidate is looked up by id. *)
Lemma searchLayer_dangling (h : HNSWIndex) (query : list F) (e : nat) (n : HNSWNode)
    (ef : Z) (level : nat) :
  mem h !! e = Some n -> nodes h !! ID n = None ->
  searchLayer h query [Some e] ef level = None.
Proof.
  intros Hn Hid. unfold searchLayer. cbn [init_entries deref]. rewrite Hn.
  cbn [candidates w visited]. rewrite !heap_Push_nil.
  unfold search_fuel. cbn [search_loop candidates w visited].
  rewrite heap_Pop_singleton. cbn [ItemID Distance].
  assert (Hstop : should_stop ef
            [mkItem (ID n) (fneg (CalculateDistance query (Vector n) (distanceFunc h)))]
            (mkItem (ID n) (CalculateDistance query (Vector n) (distanceFunc h))) =
          Some false).
  { unfold should_stop. destruct (_ <=? _)%Z; [| done]. cbn.
    by rewrite fneg_invol, flt_irrefl. }
  rewrite Hstop. unfold node_of. by rewrite Hid.
Qed.

Lemma descend_dangling (h : HNSWIndex) (query : list F) (e : nat) (n : HNSWNode)
    (currentLevel level : nat) :
  mem h !! e = Some n -> nodes h !! ID n = None ->
  descend h query [Some e] currentLevel level = None \/
  descend h query [Some e] currentLevel level = Some [Some e].
Proof.
  intros Hn Hid. destruct currentLevel as [| below]; cbn [descend]; [by right |].
  destruct (level <? S below)%nat; [left | by right].
  by rewrite (searchLayer_dangling h query e n 1 (S below)).
Qed.

Lemma Insert_tail_dangling (id : string) (vector : list F) (level a e : nat)
    (n : HNSWNode) (h : HNSWIndex) :
  entryPoint h = Some e -> mem h !! e = Some n -> nodes h !! ID n = None ->
  exists h', Insert_tail id vector level a h = Panic h'.
Proof.
  intros He Hn Hid. unfold Insert_tail. unfold bind at 1, get at 1. rewrite He.
  unfold bind at 1.
  destruct (descend_dangling h vector e n (maxLevel h) level Hn Hid) as [-> | ->];
    cbn [must panic ret]; [by eexists |].
  unfold bind at 1. cbn [connect_layers]. unfold bind at 1, get at 1. unfold bind at 1.
  rewrite (searchLayer_dangling h vector e n _ _ Hn Hid). cbn. by eexists.
Qed.

(** [Insert] is [Insert_tail] after the dimension test, the draw of the
    level and the allocation. *)
Lemma Insert_as_tail (id : string) (vector : list F) (metadata : Tags) (h : HNSWIndex) :
  len vector = dimensions h ->
  exists level a h2,
    mem h !! a = None /\ evolves h h2 /\ registered_at h2 id vector a /\
    (forall b, b <> a -> mem h2 !! b = mem h !! b) /\
    Insert id vector metadata h = Insert_tail id vector level a h2.
Proof.
  intros Hdim. unfold Insert. unfold bind at 1, get at 1.
  destruct (Z.eqb_spec (len vector) (dimensions h)) as [_ | Hne]; [| done]. cbn [negb].
  unfold bind at 1. unfold getRandomLevel at 1.
  destruct (level_loop 16 (levelMultiplier h) (rng h) 0) as [level r'].
  unfold bind at 1, get at 1. unfold bind at 1, put at 1.
  set (h1 := set_rng h r'). set (a := fresh (dom (mem h1))).
  set (h2 := set_mem h1 _).
  exists level, a, h2.
  assert (Ha : mem h !! a = None) by apply (fresh_unallocated h1).
  split; [done |]. split; [| split; [| split]].
  - etrans; [apply (evolves_set_rng h r') |]. by apply evolves_alloc.
  - eexists. split; [apply lookup_insert_eq | done].
  - intros b Hb. cbn. by rewrite lookup_insert_ne.
  - reflexivity.
Qed.

Lemma wf_inserted (h h2 h' : HNSWIndex) (id : string) (vector : list F) (a : nat) :
  wf_index h -> evolves h h2 -> registered_at h2 id vector a -> inserted h2 h' id a ->
  (forall e n, entryPoint h = Some e -> mem h !! e = Some n -> ID n <> id) ->
  wf_index h'.
Proof.
  intros Hw H12 Hreg (hm & H2m & Hh') Hentry.
  assert (Hwm : wf_index hm) by (eapply wf_evolves; [| exact H2m]; by eapply wf_evolves).
  assert (Hregm : registered_at hm id vector a).
  { eapply registered_at_extends; [apply (fr_mem _ _ (ev_frames _ _ H2m)) | done]. }
  destruct Hregm as (na & Hna & Hida & _).
  assert (Hids' : forall x b, <[id := a]> (nodes hm) !! x = Some b ->
                    exists n, mem hm !! b = Some n /\ ID n = x).
  { intros x b Hb. destruct (decide (id = x)) as [<- | Hne].
    - rewrite lookup_insert_eq in Hb. assert (b = a) as -> by congruence. eauto.
    - rewrite lookup_insert_ne in Hb by done. by apply (wf_ids _ Hwm). }
  destruct Hh' as [-> | (level & ->)]; split; cbn; try done.
  - intros e He. destruct (wf_entry _ Hwm e He) as (n & Hn & Hr).
    exists n. split; [done |].
    assert (Hne : ID n <> id).
    { assert (Heh : entryPoint h = Some e).
      { rewrite <- (ev_entryPoint _ _ H12), <- (ev_entryPoint _ _ H2m). done. }
      destruct (wf_entry _ Hw e Heh) as (n0 & Hn0 & _).
      destruct (fr_mem _ _ (ev_frames _ _ H12) e n0 Hn0) as (n1 & Hn1 & Hp1 & _).
      destruct (fr_mem _ _ (ev_frames _ _ H2m) e n1 Hn1) as (n2 & Hn2 & Hp2 & _).
      assert (Heq : n = n2) by congruence. rewrite Heq, Hp2, Hp1.
      by apply (Hentry e n0). }
    by rewrite lookup_insert_ne.
  - intros e [= <-]. exists na. split; [done |]. left. rewrite Hida.
    apply lookup_insert_eq.
Qed.

Lemma Insert_wf (id : string) (vector : list F) (metadata : Tags) (h : HNSWIndex) :
  wf_index h -> nodes h !! id = None ->
  wf_index (final (Insert id vector metadata h)).
Proof.
  intros Hw Hid. pose proof (Insert_outcome id vector metadata h) as Ho.
  destruct (Insert id vector metadata h) as [[e |] h' | h'] eqn:Hins; cbn.
  - by destruct Ho as (-> & _).
  - destruct Ho as (Hdim & _).
    destruct (Insert_as_tail id vector metadata h Hdim)
      as (level & a & h2 & Ha & H12 & Hreg & Hsame & Htail).
    rewrite Htail in Hins.
    pose proof (Insert_tail_outcome id vector level a h2) as Ht. rewrite Hins in Ht.
    eapply wf_inserted; [exact Hw | exact H12 | exact Hreg | exact Ht |].
    intros e n He Hn Heq. subst id.
    destruct (Insert_tail_dangling (ID n) vector level a e n h2) as [hp Hp].
    + by rewrite (ev_entryPoint _ _ H12).
    + rewrite Hsame; [done |]. intros ->. congruence.
    + by rewrite (fr_nodes _ _ (ev_frames _ _ H12)).
    + congruence.
  - destruct Ho as [_ Hev]. by eapply wf_evolves.
Qed.

(** *** The invariant of the facade *)

Record db_inv (db : VectorDatabase) : Prop := mkDbInv {
  inv_keys : keys_agree db;
  inv_wf : wf_index (index db)
}.

Inductive reachable : VectorDatabase -> Prop :=
| reachable_new (cfg : DatabaseConfig) (seed : Rand) (db : VectorDatabase) :
    NewVectorDatabase cfg seed = Ok db -> reachable db
| reachable_step (db : VectorDatabase) (o : facade_op) :
    reachable db -> in_contract db o -> reachable (apply_op db o).

Lemma keys_agree_None (db : VectorDatabase) (id : string) :
  keys_agree db -> vectors db !! id = None -> nodes (index db) !! id = None.
Proof.
  unfold keys_agree. intros Hk Hv. apply not_elem_of_dom. rewrite <- Hk.
  by apply not_elem_of_dom.
Qed.

Lemma db_inv_new (cfg : DatabaseConfig) (seed : Rand) (db : VectorDatabase) :
  NewVectorDatabase cfg seed = Ok db -> db_inv db.
Proof.
  intros Hnew. split; [by eapply NewVectorDatabase_keys_agree |].
  unfold NewVectorDatabase in Hnew. destruct (_ <=? _)%Z; [done |].
  injection Hnew as <-. split; cbn; [| done].
  intros x a Ha. by rewrite lookup_empty in Ha.
Qed.

(** One insertion of [Load] or of the facade's [Insert]. *)
Lemma Insert_inv (db : VectorDatabase) (id : string) (vector : list F) (metadata : Tags)
    (now : Z) :
  db_inv db -> vectors db !! id = None ->
  match Insert id vector metadata (index db) with
  | Ret None h' =>
      db_inv (set_vectors (set_index db h')
                (<[id := mkVectorMetadata now metadata]> (vectors db)))
  | Ret (Some _) h' => db_inv (set_index db h')
  | Panic h' => db_inv (set_index db h')
  end.
Proof.
  intros [Hk Hw] Hv.
  pose proof (Insert_keys db id vector metadata now Hk) as Hkeys.
  pose proof (Insert_wf id vector metadata (index db) Hw (keys_agree_None db id Hk Hv))
    as Hwf.
  destruct (Insert id vector metadata (index db)) as [[e |] h' | h']; by split.
Qed.

Lemma DB_Insert_inv (db : VectorDatabase) (req : InsertRequest) (now : Z) :
  db_inv db -> db_inv (db_final (DB_Insert db req now)).
Proof.
  intros Hinv. unfold DB_Insert.
  destruct (negb _); [done |].
  destruct (vectors db !! VecID (ReqVector req)) eqn:Hv; [done |].
  pose proof (Insert_inv db (VecID (ReqVector req)) (Data (ReqVector req))
                (ReqMetadata req) now Hinv Hv) as Hi.
  by destruct (Insert _ _ _ (index db)) as [[e |] h' | h'].
Qed.

Lemma DB_Delete_inv (db : VectorDatabase) (id : string) :
  db_inv db -> db_inv (db_final (DB_Delete db id)).
Proof.
  intros [Hk Hw]. split; [by apply DB_Delete_keys |].
  unfold DB_Delete. destruct (vectors db !! id); [| done].
  pose proof (Delete_wf id (index db) Hw) as Hd.
  by destruct (Delete id (index db)) as [[e |] h' | h'].
Qed.

Lemma load_entries_inv (doc : gmap string json) (ids : list string) (now : Z)
    (db : VectorDatabase) :
  db_inv db -> NoDup ids -> (forall x, x ∈ ids -> vectors db !! x = None) ->
  db_inv (db_final (load_entries db doc ids now)).
Proof.
  intros Hinv Hnd. revert db Hinv.
  induction Hnd as [| id ids Hnotin Hnd IH]; intros db Hinv Hfree; cbn [load_entries];
    [done |].
  destruct (doc !! id) as [[| | | | | dataMap] |]; try done.
  destruct (dataMap !! "vector") as [[| | | | vectorSlice |] |]; try done.
  destruct (to_float32s vectorSlice) as [vector |]; [| done].
  pose proof (Insert_inv db id vector (tags_of dataMap) now Hinv
                (Hfree id ltac:(by left))) as Hi.
  destruct (Insert _ _ _ (index db)) as [[e |] h' | h']; try done.
  apply IH; [done |]. intros x Hx. cbn.
  rewrite lookup_insert_ne; [apply Hfree; by right |].
  intros ->. done.
Qed.

Lemma apply_op_inv (db : VectorDatabase) (o : facade_op) :
  db_inv db -> in_contract db o -> db_inv (apply_op db o).
Proof.
  intros Hinv Hc. destruct o as [req now | | id | | | | file now]; cbn [apply_op]; try done.
  - by apply DB_Insert_inv.
  - by apply DB_Delete_inv.
  - cbn in Hc. destruct file as [| | | doc]; try done. cbn [DB_Load].
    apply load_entries_inv; [done | apply iter_NoDup |].
    intros x _. by rewrite Hc, lookup_empty.
Qed.

Lemma reachable_inv (db : VectorDatabase) : reachable db -> db_inv db.
Proof.
  induction 1 as [cfg seed db Hnew | db o _ IH Hc].
  - by eapply db_inv_new.
  - by apply apply_op_inv.
Qed.


(** ** The iteration bound of searchLayer is never reached

    Every id is pushed on the candidates at most once, and only ids of
    entry points or of connection sets are pushed: with [search_fuel]
    iterations the main loop of [searchLayer] stops by itself, and more
    fuel does not change its result. *)

Hypothesis iter_elem : forall (s : gset string) x, x ∈ iter s -> x ∈ s.

Lemma elem_of_known_ids (h : HNSWIndex) (a : nat) (n : HNSWNode) (c : gset string)
    (id : string) :
  mem h !! a = Some n -> c ∈ Connections n -> id ∈ c -> id ∈ known_ids h.
Proof.
  unfold known_ids. revert a n c id.
  apply (map_fold_weak_ind
           (fun r m => forall a n c id,
              m !! a = Some n -> c ∈ Connections n -> id ∈ c -> id ∈ r)).
  - intros a n c id Ha. by rewrite lookup_empty in Ha.
  - intros b nb m r Hb IH a n c id Ha Hc Hid.
    destruct (decide (b = a)) as [-> | Hne].
    + rewrite lookup_insert_eq in Ha. injection Ha as ->.
      apply elem_of_union. left. apply elem_of_union_list. eauto.
    + rewrite lookup_insert_ne in Ha by done.
      apply elem_of_union. right. by apply (IH a n c id).
Qed.

Definition search_measure (h : HNSWIndex) (st : search_state) : nat :=
  length (candidates st) + size (known_ids h ∖ visited st).

Lemma heap_Pop_length (q q' : PriorityQueue) (it : PriorityQueueItem) :
  heap_Pop q = Some (it, q') -> length q = S (length q').
Proof.
  unfold heap_Pop. set (n := length q - 1).
  destruct (down n (Swap q 0 n) 0 n !! n) as [x |] eqn:Hx; [| done].
  intros [= _ <-]. apply lookup_lt_Some in Hx.
  rewrite down_length in Hx. unfold Swap in Hx. rewrite exchange_length in Hx.
  rewrite length_take, down_length. unfold Swap. rewrite exchange_length. lia.
Qed.

Lemma size_unvisited (known vis : gset string) (id : string) :
  id ∈ known -> id ∉ vis ->
  size (known ∖ vis) = S (size (known ∖ ({[id]} ∪ vis))).
Proof.
  intros Hk Hv.
  assert (Heq : known ∖ vis = {[id]} ∪ known ∖ ({[id]} ∪ vis)).
  { apply set_eq. intros x.
    rewrite elem_of_union, !elem_of_difference, elem_of_union, elem_of_singleton.
    destruct (decide (x = id)) as [-> | Hne]; tauto. }
  rewrite Heq at 1. rewrite size_union, size_singleton; [done |].
  intros x Hx1 Hx2. rewrite elem_of_difference, elem_of_union in Hx2. tauto.
Qed.

Lemma visit_neighbor_measure (h : HNSWIndex) (query : list F) (ef : Z)
    (st st' : search_state) (id : string) :
  id ∈ known_ids h -> visit_neighbor h query ef st id = Some st' ->
  search_measure h st' <= search_measure h st.
Proof.
  intros Hk. unfold visit_neighbor, search_measure.
  destruct (decide (id ∈ visited st)) as [Hv | Hv]; [by intros [= <-] |].
  pose proof (size_unvisited (known_ids h) (visited st) id Hk Hv) as Hsize.
  destruct (node_of h id) as [neighbor |]; [| done].
  destruct (_ <? _)%Z.
  { intros [= <-]. cbn. rewrite heap_Push_length. lia. }
  destruct (w st !! 0) as [furthest |]; [| done].
  destruct (flt _ _).
  - destruct (heap_Pop (w st)) as [[popped w'] |]; [| done].
    intros [= <-]. cbn. rewrite heap_Push_length. lia.
  - intros [= <-]. cbn. lia.
Qed.

Lemma visit_all_measure (h : HNSWIndex) (query : list F) (ef : Z) (ids : list string)
    (st st' : search_state) :
  (forall id, id ∈ ids -> id ∈ known_ids h) ->
  visit_all h query ef st ids = Some st' ->
  search_measure h st' <= search_measure h st.
Proof.
  revert st. induction ids as [| id ids IH]; intros st Hk; cbn [visit_all].
  - by intros [= <-].
  - destruct (visit_neighbor h query ef st id) as [st1 |] eqn:Hv; [| done].
    intros Hrest. apply IH in Hrest; [| intros x Hx; apply Hk; by right].
    apply visit_neighbor_measure in Hv; [lia | apply Hk; by left].
Qed.

Lemma search_loop_fuel (fuel extra : nat) (h : HNSWIndex) (query : list F) (ef : Z)
    (level : nat) (st : search_state) :
  search_measure h st < fuel ->
  search_loop (fuel + extra) h query ef level st = search_loop fuel h query ef level st.
Proof.
  revert st. induction fuel as [| fuel IH]; intros st Hm; [lia |].
  cbn [Nat.add search_loop].
  destruct (heap_Pop (candidates st)) as [[current rest] |] eqn:Hp; [| done].
  apply heap_Pop_length in Hp.
  destruct (should_stop ef (w st) current) as [[] |]; [done | | done].
  destruct (node_of h (ItemID current)) as [currentNode |] eqn:Hn; [| done].
  assert (Hm1 : search_measure h
                  {| visited := visited st; candidates := rest; w := w st |} < fuel).
  { unfold search_measure in *. cbn. lia. }
  destruct (Connections currentNode !! level) as [conns |] eqn:Hc; [| by apply IH].
  destruct (visit_all _ _ _ _ _) as [st2 |] eqn:Hv; [| done].
  apply IH. apply visit_all_measure in Hv; [lia |].
  intros id Hid. unfold node_of in Hn.
  destruct (nodes h !! ItemID current) as [a |]; [| done]. cbn in Hn.
  eapply (elem_of_known_ids h a currentNode conns); [done | | by apply iter_elem].
  apply list_elem_of_lookup. eauto.
Qed.

Lemma init_entries_candidates (h : HNSWIndex) (query : list F) (eps : list ref)
    (st st' : search_state) :
  init_entries h query eps st = Some st' ->
  length (candidates st') = length (candidates st) + length eps.
Proof.
  revert st. induction eps as [| ep eps IH]; intros st; cbn.
  - intros [= <-]. lia.
  - destruct (deref h ep) as [n |]; [| done]. intros Hi%IH. cbn in Hi.
    rewrite heap_Push_length in Hi. lia.
Qed.

(** The loop of [searchLayer] run with more fuel gives what it gives with
    [search_fuel]. *)
Lemma searchLayer_fuel_enough (h : HNSWIndex) (query : list F) (eps : list ref) (ef : Z)
    (level extra : nat) (st0 : search_state) :
  init_entries h query eps {| visited := ∅; candidates := []; w := [] |} = Some st0 ->
  search_loop (search_fuel h eps + extra) h query ef level st0 =
  search_loop (search_fuel h eps) h query ef level st0.
Proof.
  intros Hi. apply search_loop_fuel. apply init_entries_candidates in Hi.
  unfold search_measure, search_fuel. rewrite Hi. cbn.
  assert (size (known_ids h ∖ visited st0) <= size (known_ids h)); [| lia].
  apply subseteq_size. intros x Hx. apply elem_of_difference in Hx. tauto.
Qed.

(** ** The other iteration bounds

    The loops of [container/heap], the last loop of [searchLayer] and the
    loop of [getRandomLevel] stop before their bound: with more fuel they
    give the same result. *)

Lemma up_fuel (fuel extra : nat) (h : PriorityQueue) (j : nat) :
  j <= fuel -> up (fuel + extra) h j = up fuel h j.
Proof.
  revert h j. induction fuel as [| fuel IH]; intros h j Hj.
  - assert (j = 0) as -> by lia. by destruct extra.
  - cbn [Nat.add up]. destruct (_ || _) eqn:Hstop; [done |].
    apply IH. pose proof (parent_spec j). unfold parent in *.
    apply orb_false_elim in Hstop as [Hne%Nat.eqb_neq _]. lia.
Qed.

Lemma down_fuel (fuel extra : nat) (h : PriorityQueue) (i n : nat) :
  n - i <= fuel -> down (fuel + extra) h i n = down fuel h i n.
Proof.
  revert h i. induction fuel as [| fuel IH]; intros h i Hn.
  - destruct extra; [done |]. cbn [Nat.add down].
    destruct (Nat.leb_spec n (2 * i + 1)); [done | lia].
  - cbn [Nat.add down]. destruct (Nat.leb_spec n (2 * i + 1)); [done |].
    destruct (negb _); [done |]. apply IH.
    destruct (_ && _); lia.
Qed.

Lemma drain_fuel (extra : nat) (h : HNSWIndex) (wq : PriorityQueue) (result : list ref) :
  drain (length wq + extra) h wq result = drain (length wq) h wq result.
Proof.
  remember (length wq) as fuel eqn:Hlen. revert wq result Hlen.
  induction fuel as [| fuel IH]; intros wq result Hlen.
  - destruct wq; [| done]. by destruct extra.
  - cbn [Nat.add drain]. destruct (heap_Pop wq) as [[item wq'] |] eqn:Hp; [| done].
    apply IH. apply heap_Pop_length in Hp. lia.
Qed.

Lemma level_loop_fuel (fuel extra : nat) (mult : Q) (r : Rand) (level : nat) :
  16 <= level + fuel ->
  level_loop (fuel + extra) mult r level = level_loop fuel mult r level.
Proof.
  revert r level. induction fuel as [| fuel IH]; intros r level Hl.
  - destruct extra; [done |]. cbn [Nat.add level_loop].
    destruct (Float64 r) as [u r']. destruct (Nat.ltb_spec level 16); [lia |].
    by rewrite andb_false_r.
  - cbn [Nat.add level_loop]. destruct (Float64 r) as [u r'].
    destruct (_ && _); [| done]. apply IH. lia.
Qed.

(** * Further properties of the index and of the facade

    What follows is read off the code alone.  The iteration over a Go map
    visits every key once: besides [iter_NoDup] and [iter_elem], every
    member of the set occurs in the list. *)

Hypothesis iter_complete : forall (s : gset string) x, x ∈ s -> x ∈ iter s.

Lemma iter_Permutation (s : gset string) : iter s ≡ₚ elements s.
Proof.
  apply NoDup_Permutation; [apply iter_NoDup | apply NoDup_elements |].
  intros x. rewrite elem_of_elements. split; [apply iter_elem | apply iter_complete].
Qed.

Lemma iter_length (s : gset string) : length (iter s) = size s.
Proof. unfold size, set_size. cbn. by rewrite iter_Permutation. Qed.

(** ** Delete at the facade *)

(** Once [Delete(id)] has returned [nil], [Get(id)] and a second
    [Delete(id)] both report [VectorNotFoundError] and the second call
    changes nothing; every other vector that [Get] returned before the call
    is returned unchanged after it. *)
Theorem DB_Delete_removes (db db' : VectorDatabase) (id : string) :
  DB_Delete db id = Returned None db' ->
  DB_Get db' id = Err (VectorNotFoundError id) /\
  DB_Delete db' id = Returned (Some (VectorNotFoundError id)) db' /\
  forall id' r, id' <> id -> DB_Get db id' = Ok r -> DB_Get db' id' = Ok r.
Proof.
  unfold DB_Delete at 1. destruct (vectors db !! id) as [meta |] eqn:Hv; [| done].
  pose proof (Delete_outcome id (index db)) as Ho.
  destruct (Delete id (index db)) as [[e |] h' | h']; try done.
  intros [= <-]. destruct Ho as (_ & hm & Hrs & ->).
  assert (Hgone : vectors (set_vectors (set_index db (set_nodes hm (delete id (nodes hm))))
                             (delete id (vectors db))) !! id = None)
    by (cbn; apply lookup_delete_eq).
  split; [| split].
  - unfold DB_Get. by rewrite Hgone.
  - unfold DB_Delete. by rewrite Hgone.
  - intros id' r Hne. unfold DB_Get. cbn.
    rewrite !lookup_delete_ne by done.
    destruct (vectors db !! id') as [meta' |]; [| done].
    rewrite (fr_nodes _ _ (rs_frames _ _ Hrs)).
    destruct (nodes (index db) !! id') as [a |]; [| done].
    destruct (mem (index db) !! a) as [n |] eqn:Hn; [| done].
    destruct (fr_mem _ _ (rs_frames _ _ Hrs) a n Hn) as (n' & -> & _ & -> & _).
    done.
Qed.

(** ** List *)

(** The values of Go's [int]. *)
Definition is_int (z : Z) : Prop := (- 2 ^ 63 <= z < 2 ^ 63)%Z.

Lemma int_add_exact (a b : Z) : is_int (a + b) -> int_add a b = (a + b)%Z.
Proof.
  unfold is_int, int_add, int64_wrap. intros H.
  rewrite Z.mod_small; lia.
Qed.

Lemma int_add_overflow (a b : Z) :
  (0 <= a)%Z -> is_int a -> is_int b -> (2 ^ 63 <= a + b)%Z -> (int_add a b < 0)%Z.
Proof.
  unfold is_int, int_add, int64_wrap. intros Ha Hia Hib Hov.
  replace (a + b + 2 ^ 63)%Z with ((a + b - 2 ^ 63) + 1 * 2 ^ 64)%Z by lia.
  rewrite Z.mod_add by lia. rewrite Z.mod_small; lia.
Qed.

Lemma len_iter_dom (db : VectorDatabase) :
  len (iter (dom (vectors db))) = Z.of_nat (size (vectors db)).
Proof. unfold len. by rewrite iter_length, size_dom. Qed.

Lemma DB_List_crash_iff (db : VectorDatabase) (offset limit : Z) :
  is_int offset -> is_int limit ->
  DB_List db offset limit = Crash <->
  (offset < Z.of_nat (size (vectors db)))%Z /\
  (offset < 0 \/ limit < 0 \/ 2 ^ 63 <= offset + limit)%Z.
Proof.
  intros Ho Hl. unfold DB_List. rewrite len_iter_dom.
  set (n := Z.of_nat (size (vectors db))).
  assert (Hlen : len (iter (dom (vectors db))) = n) by apply len_iter_dom.
  destruct (Z.leb_spec n offset) as [Hge | Hlt]; [split; [done | lia] |].
  unfold slice. rewrite Hlen.
  destruct (Z.leb_spec 0 offset) as [Hpos | Hneg]; cbn [andb]; [| split; [lia | done]].
  destruct (Z_lt_ge_dec (offset + limit) (2 ^ 63)) as [Hfit | Hov].
  - rewrite int_add_exact by (unfold is_int in *; lia).
    destruct (Z.ltb_spec n (offset + limit)).
    + destruct (Z.leb_spec offset n); [| lia]. rewrite Z.leb_refl. cbn. split; [done | lia].
    + destruct (Z.leb_spec offset (offset + limit)); cbn [andb].
      * destruct (Z.leb_spec (offset + limit) n); [| lia]. split; [done | lia].
      * split; [lia | done].
  - pose proof (int_add_overflow offset limit Hpos Ho Hl ltac:(lia)) as Hw.
    destruct (Z.ltb_spec n (int_add offset limit)); [lia |].
    destruct (Z.leb_spec offset (int_add offset limit)); [lia |]. cbn. split; [lia | done].
Qed.

Lemma DB_List_Ok (db : VectorDatabase) (offset limit : Z) (page : list string) :
  is_int offset -> is_int limit ->
  DB_List db offset limit = Ok page ->
  len page = Z.max 0 (Z.min limit (Z.of_nat (size (vectors db)) - offset)) /\
  NoDup page /\
  (forall id, id ∈ page -> is_Some (vectors db !! id)) /\
  (offset = 0%Z -> (Z.of_nat (size (vectors db)) <= limit)%Z ->
   forall id, is_Some (vectors db !! id) -> id ∈ page).
Proof.
  intros Ho Hl Hlist.
  assert (Hnc : DB_List db offset limit <> Crash) by (rewrite Hlist; done).
  rewrite (DB_List_crash_iff db offset limit Ho Hl) in Hnc.
  revert Hlist. unfold DB_List. rewrite len_iter_dom.
  set (n := Z.of_nat (size (vectors db))) in *.
  assert (Hlen : length (iter (dom (vectors db))) = size (vectors db))
    by (by rewrite iter_length, size_dom).
  destruct (Z.leb_spec n offset) as [Hge | Hlt].
  { intros [= <-]. split; [change (len (@nil string)) with 0%Z; lia |]. split; [constructor |].
    split; [by intros id Hid%elem_of_nil |].
    intros -> Hlim id [meta Hid]. assert (size (vectors db) = 0) as Hz by lia.
    apply map_size_empty_inv in Hz. by rewrite Hz, lookup_empty in Hid. }
  assert (Hfit : (0 <= offset /\ 0 <= limit /\ offset + limit < 2 ^ 63)%Z) by lia.
  rewrite int_add_exact by (unfold is_int in *; lia).
  set (e := if (n <? offset + limit)%Z then n else (offset + limit)%Z).
  assert (He : e = Z.min n (offset + limit))
    by (unfold e; destruct (Z.ltb_spec n (offset + limit)); lia).
  unfold slice. destruct (_ && _ && _); [| done]. intros [= <-].
  split; [| split; [| split]].
  - unfold len. rewrite length_take, length_drop, Hlen. fold n. lia.
  - apply (sublist_NoDup _ (iter (dom (vectors db)))); [apply iter_NoDup |].
    etrans; [apply sublist_take | apply sublist_drop].
  - intros id Hid. apply elem_of_dom, iter_elem.
    apply (elem_of_sublist _ _ _ Hid).
    etrans; [apply sublist_take | apply sublist_drop].
  - intros -> Hlim id Hid. apply elem_of_dom, iter_complete in Hid.
    change (Z.to_nat 0) with 0%nat. rewrite drop_0, take_ge; [done |].
    rewrite Hlen. clearbody e. subst n. lia.
Qed.

(** [List(offset, limit)] never returns an error.  It panics exactly when
    [offset] is below the number of stored vectors and either [offset] is
    negative, or [limit] is negative, or [offset + limit] overflows [int].
    A page that it returns holds [max 0 (min limit (count - offset))] ids,
    each of them once and each the id of a stored vector; with
    [offset = 0] and [limit] at least the number of stored vectors the page
    holds every stored id. *)
Theorem DB_List_outcome (db : VectorDatabase) (offset limit : Z) :
  is_int offset -> is_int limit ->
  (forall e, DB_List db offset limit <> Err e) /\
  (DB_List db offset limit = Crash <->
   (offset < Z.of_nat (size (vectors db)))%Z /\
   (offset < 0 \/ limit < 0 \/ 2 ^ 63 <= offset + limit)%Z) /\
  forall page,
    DB_List db offset limit = Ok page ->
    len page = Z.max 0 (Z.min limit (Z.of_nat (size (vectors db)) - offset)) /\
    NoDup page /\
    (forall id, id ∈ page -> is_Some (vectors db !! id)) /\
    (offset = 0%Z -> (Z.of_nat (size (vectors db)) <= limit)%Z ->
     forall id, is_Some (vectors db !! id) -> id ∈ page).
Proof.
  intros Ho Hl. split; [| split].
  - intros e. unfold DB_List. destruct (_ <=? _)%Z; [done |]. by destruct (slice _ _ _).
  - by apply DB_List_crash_iff.
  - intros page. by apply DB_List_Ok.
Qed.

(** ** The settings of the index never change *)

Definition same_settings (h h' : HNSWIndex) : Prop :=
  config h' = config h /\ dimensions h' = dimensions h /\
  distanceFunc h' = distanceFunc h /\ levelMultiplier h' = levelMultiplier h.

Lemma same_settings_trans (h1 h2 h3 : HNSWIndex) :
  same_settings h1 h2 -> same_settings h2 h3 -> same_settings h1 h3.
Proof. intros (? & ? & ? & ?) (? & ? & ? & ?). repeat split; congruence. Qed.

Lemma frames_settings (h h' : HNSWIndex) : frames h h' -> same_settings h h'.
Proof. intros []. by repeat split. Qed.

Lemma inserted_settings (h h' : HNSWIndex) (id : string) (a : nat) :
  inserted h h' id a -> same_settings h h'.
Proof.
  intros (hm & Hev & [-> | (level & ->)]); apply (frames_settings _ _ (ev_frames _ _ Hev)).
Qed.

Lemma Insert_settings (id : string) (vector : list F) (metadata : Tags) (h : HNSWIndex) :
  same_settings h (final (Insert id vector metadata h)).
Proof.
  pose proof (Insert_outcome id vector metadata h) as Ho.
  destruct (Insert id vector metadata h) as [[e |] h' | h']; cbn.
  - by destruct Ho as (-> & _).
  - destruct Ho as (_ & a & h2 & _ & Hev & _ & Hins).
    eapply same_settings_trans; [| by eapply inserted_settings].
    apply (frames_settings _ _ (ev_frames _ _ Hev)).
  - destruct Ho as [_ Hev]. apply (frames_settings _ _ (ev_frames _ _ Hev)).
Qed.

Lemma Delete_settings (id : string) (h : HNSWIndex) :
  same_settings h (final (Delete id h)).
Proof.
  pose proof (Delete_outcome id h) as Ho.
  destruct (Delete id h) as [[e |] h' | h']; cbn.
  - by destruct Ho as (-> & _).
  - destruct Ho as (_ & hm & Hrs & ->). apply (frames_settings _ _ (rs_frames _ _ Hrs)).
  - destruct Ho as [_ Hrs]. apply (frames_settings _ _ (rs_frames _ _ Hrs)).
Qed.

Lemma Insert_dimensions (id : string) (vector : list F) (metadata : Tags) (h : HNSWIndex) :
  dimensions (final (Insert id vector metadata h)) = dimensions h.
Proof. apply Insert_settings. Qed.

Lemma Delete_dimensions (id : string) (h : HNSWIndex) :
  dimensions (final (Delete id h)) = dimensions h.
Proof. apply Delete_settings. Qed.

(** A call of the facade replaces the index and the metadata table and
    nothing else, and the new index has the settings of the old one. *)
Definition same_facade (db db' : VectorDatabase) : Prop :=
  exists h' vs, db' = set_vectors (set_index db h') vs /\ same_settings (index db) h'.

Lemma same_facade_refl (db : VectorDatabase) : same_facade db db.
Proof. exists (index db), (vectors db). split; [by destruct db | done]. Qed.

Lemma same_facade_trans (db1 db2 db3 : VectorDatabase) :
  same_facade db1 db2 -> same_facade db2 db3 -> same_facade db1 db3.
Proof.
  intros (h2 & v2 & -> & H2) (h3 & v3 & -> & H3). exists h3, v3.
  split; [done |]. by eapply same_settings_trans.
Qed.

Lemma same_facade_index (db : VectorDatabase) (h' : HNSWIndex) :
  same_settings (index db) h' -> same_facade db (set_index db h').
Proof. intros Hs. exists h', (vectors db). done. Qed.

Lemma load_entries_facade (doc : gmap string json) (ids : list string) (now : Z)
    (db : VectorDatabase) :
  same_facade db (db_final (load_entries db doc ids now)).
Proof.
  revert db. induction ids as [| id ids IH]; intros db; cbn [load_entries];
    try apply same_facade_refl.
  destruct (doc !! id) as [[| | | | | dataMap] |]; try apply same_facade_refl.
  destruct (dataMap !! "vector") as [[| | | | vectorSlice |] |]; try apply same_facade_refl.
  destruct (to_float32s vectorSlice) as [vector |]; [| apply same_facade_refl].
  pose proof (Insert_settings id vector (tags_of dataMap) (index db)) as Hi.
  destruct (Insert _ _ _ (index db)) as [[e |] h' | h']; cbn in Hi |- *;
    try by apply same_facade_index.
  eapply same_facade_trans; [| apply IH]. eexists _, _. done.
Qed.

Lemma apply_op_facade (db : VectorDatabase) (o : facade_op) :
  same_facade db (apply_op db o).
Proof.
  destruct o as [req now | | id | | | | file now]; cbn [apply_op];
    try apply same_facade_refl.
  - unfold DB_Insert. destruct (negb _); [apply same_facade_refl |].
    destruct (vectors db !! _); [apply same_facade_refl |].
    pose proof (Insert_settings (VecID (ReqVector req)) (Data (ReqVector req))
                  (ReqMetadata req) (index db)) as Hi.
    destruct (Insert _ _ _ (index db)) as [[e |] h' | h']; cbn in Hi |- *;
      try by apply same_facade_index.
    eexists _, _. done.
  - unfold DB_Delete. destruct (vectors db !! _); [| apply same_facade_refl].
    pose proof (Delete_settings id (index db)) as Hi.
    destruct (Delete _ (index db)) as [[e |] h' | h']; cbn in Hi |- *;
      try by apply same_facade_index.
    eexists _, _. done.
  - destruct file; try apply same_facade_refl. apply load_entries_facade.
Qed.

Record settings_agree (db : VectorDatabase) : Prop := mkSettingsAgree {
  sa_dims : dimensions (index db) = db_dimensions db;
  sa_metric : distanceFunc (index db) = ConfigMetric (db_config db);
  sa_config : config (index db) = HNSW (db_config db);
  sa_multiplier : levelMultiplier (index db) = Ml (HNSW (db_config db));
  sa_dimensions : db_dimensions db = Dimensions (db_config db);
  sa_positive : (0 < db_dimensions db)%Z;
  sa_path : persistPath db = PersistPath (db_config db)
}.

Lemma reachable_settings_agree (db : VectorDatabase) : reachable db -> settings_agree db.
Proof.
  induction 1 as [cfg seed db Hnew | db o _ IH Hc].
  - unfold NewVectorDatabase in Hnew.
    destruct (Z.leb_spec (Dimensions cfg) 0); [done |].
    injection Hnew as <-. by split.
  - destruct (apply_op_facade db o) as (h' & vs & -> & Hc' & Hd & Hm & Hl).
    destruct IH. split; cbn; congruence.
Qed.

Lemma reachable_dims (db : VectorDatabase) :
  reachable db -> dimensions (index db) = db_dimensions db.
Proof. by intros []%reachable_settings_agree. Qed.


(** ** Failed calls of the facade *)

(** In a state that calls of the facade reach from a new database, an
    [Insert] that returns an error returns a [DimensionMismatchError] for a
    vector of the wrong length or the already-exists error for a stored id,
    a [Delete] that returns an error returns [VectorNotFoundError] for an id
    that is not stored, and in each case the database is left as it was:
    the [DatabaseError] wrappers of the two methods are never returned. *)
Theorem facade_errors_change_nothing (db db' : VectorDatabase) (e : error) :
  reachable db ->
  (forall req now,
     DB_Insert db req now = Returned (Some e) db' ->
     db' = db /\
     (e = DimensionMismatchError (db_dimensions db) (len (Data (ReqVector req))) /\
      len (Data (ReqVector req)) <> db_dimensions db \/
      e = Errorf ("vector with ID " +:+ VecID (ReqVector req) +:+ " already exists") /\
      is_Some (vectors db !! VecID (ReqVector req)))) /\
  (forall id,
     DB_Delete db id = Returned (Some e) db' ->
     db' = db /\ e = VectorNotFoundError id /\ vectors db !! id = None).
Proof.
  intros Hr. pose proof (reachable_dims db Hr) as Hd.
  pose proof (reachable_inv db Hr) as [Hk _]. split.
  - intros req now. unfold DB_Insert.
    destruct (Z.eqb_spec (len (Data (ReqVector req))) (db_dimensions db)) as [Heq | Hne];
      cbn [negb].
    + destruct (vectors db !! VecID (ReqVector req)) as [meta |] eqn:Hv.
      * intros [= <- <-]. split; [done |]. right. eauto.
      * pose proof (Insert_outcome (VecID (ReqVector req)) (Data (ReqVector req))
                      (ReqMetadata req) (index db)) as Ho.
        destruct (Insert _ _ _ (index db)) as [[err |] h' | h']; try done.
        destruct Ho as (_ & _ & Hlen). congruence.
    + intros [= <- <-]. split; [done |]. by left.
  - intros id. unfold DB_Delete.
    destruct (vectors db !! id) as [meta |] eqn:Hv; [| by intros [= <- <-]].
    pose proof (Delete_outcome id (index db)) as Ho.
    destruct (Delete id (index db)) as [[err |] h' | h']; try done.
    destruct Ho as (_ & Hnone & _).
    assert (Hin : id ∈ dom (nodes (index db))) by (rewrite <- Hk; apply elem_of_dom; eauto).
    apply elem_of_dom in Hin as [a Ha]. congruence.
Qed.

(** ** Relations that every write of the index respects

    A preorder on index states that holds across a reseeding of the
    generator, across the addition of an id to a connection set of an
    allocated node and the removal of one, and across an assignment to the
    entry point or to the table of ids, holds between the state before and
    the state after the part of [Insert] that follows the allocation of the
    node, and the same for [Delete] as a whole, whether they return or
    panic. *)

Section Closure.

Variable R : relation HNSWIndex.
Context {R_preorder : PreOrder R}.
Hypothesis R_rng : forall h r, R h (set_rng h r).
Hypothesis R_add : forall h a n level c x,
  mem h !! a = Some n -> Connections n !! level = Some c ->
  R h (set_mem h
         (<[a := set_connections n (<[level := {[x]} ∪ c]> (Connections n))]> (mem h))).
Hypothesis R_remove : forall h a n level c x,
  mem h !! a = Some n -> Connections n !! level = Some c ->
  R h (set_mem h
         (<[a := set_connections n (<[level := c ∖ {[x]}]> (Connections n))]> (mem h))).
Hypothesis R_entry : forall h e l, R h (set_entry h e l).
Hypothesis R_nodes : forall h ns, R h (set_nodes h ns).

Lemma cl_ret {A} (a : A) : respects R (ret a).
Proof. apply respects_ret. exact _. Qed.

Lemma cl_panic {A} : respects R (@panic A).
Proof. apply respects_panic. exact _. Qed.

Lemma cl_must {A} (o : option A) : respects R (must o).
Proof. apply respects_must. exact _. Qed.

Lemma cl_bind {A B} (c : Op A) (k : A -> Op B) :
  respects R c -> (forall a, respects R (k a)) -> respects R (bind c k).
Proof. apply respects_bind. exact _. Qed.

Lemma cl_get_bind {B} (k : HNSWIndex -> Op B) :
  (forall h, R h (final (k h h))) -> respects R (bind get k).
Proof. apply respects_get_bind. Qed.

Lemma cl_forM {A} (l : list A) (body : A -> Op unit) :
  (forall x, respects R (body x)) -> respects R (forM l body).
Proof. apply respects_forM. exact _. Qed.

Lemma closed_load (p : ref) : respects R (load p).
Proof. apply cl_get_bind. intros h. apply cl_must. Qed.

Lemma load_outcome (p : ref) (h : HNSWIndex) :
  load p h = match deref h p with Some n => Ret n h | None => Panic h end.
Proof. unfold load, bind, get, must. by destruct (deref h p). Qed.

Lemma write_connections_outcome (p : ref) (level : nat) (c : gset string)
    (h : HNSWIndex) :
  write_connections p level c h =
    match p with
    | Some a =>
        match mem h !! a with
        | Some n =>
            Ret tt (set_mem h (<[a := set_connections n (<[level := c]> (Connections n))]>
                                 (mem h)))
        | None => Panic h
        end
    | None => Panic h
    end.
Proof.
  unfold write_connections. unfold bind at 1. rewrite load_outcome.
  destruct p as [a |]; cbn; [| done]. by destruct (mem h !! a).
Qed.

Lemma closed_addConnection (node1 node2 : ref) (level : nat) :
  respects R (addConnection node1 node2 level).
Proof.
  intros h. unfold addConnection. unfold bind at 1. rewrite load_outcome.
  destruct (deref h node1) as [n1 |] eqn:H1; [| reflexivity].
  destruct (Connections n1 !! level) as [c |] eqn:Hc; [| reflexivity].
  unfold bind at 1. rewrite load_outcome.
  destruct (deref h node2) as [n2 |]; [| reflexivity].
  rewrite write_connections_outcome. destruct node1 as [a |]; cbn in *; [| reflexivity].
  rewrite H1. cbn. by apply R_add.
Qed.

(** A connection set is read, and written with one id less. *)
Lemma closed_remove (node : ref) (level : nat) (x : string) :
  respects R (n <- load node ;;
              c <- must (Connections n !! level) ;;
              write_connections node level (c ∖ {[x]})).
Proof.
  intros h. unfold bind at 1. rewrite load_outcome.
  destruct (deref h node) as [n |] eqn:Hn; [| reflexivity].
  unfold bind at 1. destruct (Connections n !! level) as [c |] eqn:Hc; [| reflexivity].
  cbn [must ret]. rewrite write_connections_outcome.
  destruct node as [a |]; cbn in *; [| reflexivity].
  rewrite Hn. cbn. by apply R_remove.
Qed.

Lemma closed_prune_loop (node : ref) (level : nat) (maxConn : Z)
    (connections : list string) (i1 : nat) :
  respects R (prune_loop node level maxConn connections i1).
Proof.
  revert connections. induction i1 as [| i IH]; intros connections; cbn [prune_loop].
  - destruct (_ <? _)%Z; [apply cl_ret | apply cl_panic].
  - destruct (_ <? _)%Z; [apply cl_ret |].
    apply cl_get_bind. intros h.
    unfold bind at 1.
    destruct (Intn (rng h) (Z.of_nat i + 1)) as [draw |]; cbn [must ret panic final];
      [| reflexivity].
    unfold bind at 1. cbn [put].
    etrans; [apply (R_rng h (snd draw)) |].
    generalize (set_rng h draw.2). clear h. revert draw.
    intros draw. change (respects R
      (removeID <- must (connections !! Z.to_nat draw.1) ;;
       n <- load node ;;
       c <- must (Connections n !! level) ;;
       write_connections node level (c ∖ {[removeID]}) ;;;
       last <- must (connections !! i) ;;
       prune_loop node level maxConn (<[Z.to_nat draw.1 := last]> connections) i)).
    apply cl_bind; [apply cl_must |]. intros removeID h.
    assert (Heq :
      (n <- load node ;;
       c <- must (Connections n !! level) ;;
       write_connections node level (c ∖ {[removeID]}) ;;;
       last <- must (connections !! i) ;;
       prune_loop node level maxConn (<[Z.to_nat draw.1 := last]> connections) i) h =
      ((n <- load node ;;
        c <- must (Connections n !! level) ;;
        write_connections node level (c ∖ {[removeID]})) ;;;
       last <- must (connections !! i) ;;
       prune_loop node level maxConn (<[Z.to_nat draw.1 := last]> connections) i) h).
    { unfold bind. destruct (load node h) as [n h1 | h1]; [| done].
      by destruct (must (Connections n !! level) h1). }
    rewrite Heq. clear Heq. revert h.
    apply cl_bind; [apply closed_remove |]. intros _.
    apply cl_bind; [apply cl_must |]. intros last. apply IH.
Qed.

Lemma closed_pruneConnections (node : ref) (level : nat) :
  respects R (pruneConnections node level).
Proof.
  unfold pruneConnections. apply cl_get_bind. intros h.
  apply cl_bind; [apply closed_load |]. intros n.
  destruct (Connections n !! level); [| apply cl_ret].
  destruct (_ <? _)%Z; [apply closed_prune_loop | apply cl_ret].
Qed.

Lemma closed_connect_layers (node : ref) (vector : list F) (ep : list ref) (n : nat) :
  respects R (connect_layers node vector ep n).
Proof.
  revert ep. induction n as [| currentLevel IH]; intros ep; cbn [connect_layers].
  - apply cl_ret.
  - apply cl_get_bind. intros h.
    apply cl_bind; [apply cl_must |]. intros cands.
    apply cl_bind; [apply cl_must |]. intros selected.
    apply cl_bind; [| intros _; apply IH].
    apply cl_forM. intros neighbor.
    apply cl_bind; [apply closed_addConnection |]. intros _.
    apply cl_bind; [apply closed_addConnection |]. intros _.
    apply closed_pruneConnections.
Qed.

Lemma closed_unlink (id : string) (level : nat) (neighborID : string) :
  respects R (unlink id level neighborID).
Proof.
  unfold unlink. apply cl_get_bind. intros h.
  destruct (nodes h !! neighborID) as [b |]; [| apply cl_ret].
  apply closed_remove.
Qed.

Lemma closed_findNewEntryPoint : respects R findNewEntryPoint.
Proof.
  unfold findNewEntryPoint. apply cl_get_bind. intros h0.
  unfold bind at 1, put at 1. etrans; [apply (R_entry h0 None 0) |].
  generalize (set_entry h0 None 0). generalize (iter (dom (nodes h0))).
  clear h0. intros ids. apply cl_forM. intros id. apply cl_get_bind. intros h.
  unfold bind, must. destruct (node_of h id) as [node |]; cbn [ret panic final];
    [| reflexivity].
  destruct (maxLevel h <? Level node)%nat; cbn [ret put final]; [apply R_entry | reflexivity].
Qed.

Lemma closed_Delete (id : string) : respects R (Delete id).
Proof.
  unfold Delete. apply cl_get_bind. intros h0.
  destruct (nodes h0 !! id) as [a |]; [| reflexivity].
  generalize h0. clear h0.
  apply cl_bind; [apply closed_load |]. intros node.
  apply cl_bind.
  { apply cl_forM. intros level.
    apply cl_bind; [apply closed_load |]. intros n.
    apply cl_bind; [apply cl_must |]. intros c.
    apply cl_forM. intros neighborID. apply closed_unlink. }
  intros _. apply cl_get_bind. intros h1.
  destruct (decide (entryPoint h1 = Some a)) as [_ | _]; generalize h1; clear h1.
  - apply cl_bind; [apply closed_findNewEntryPoint |]. intros _.
    apply cl_get_bind. intros h2. cbn. apply R_nodes.
  - apply cl_bind; [apply cl_ret |]. intros _.
    apply cl_get_bind. intros h2. cbn. apply R_nodes.
Qed.

Lemma closed_Insert_tail (id : string) (vector : list F) (level a : nat) :
  respects R (Insert_tail id vector level a).
Proof.
  unfold Insert_tail. apply cl_get_bind. intros h2.
  destruct (entryPoint h2) as [e |].
  - generalize (descend h2 vector [Some e] (maxLevel h2) level) (level `min` maxLevel h2).
    intros d m. generalize h2. clear h2.
    apply cl_bind; [apply cl_must |]. intros ep.
    apply cl_bind; [apply closed_connect_layers |]. intros _.
    apply cl_get_bind. intros h3.
    destruct (maxLevel h3 <? level)%nat; cbn.
    + etrans; [apply R_entry | apply R_nodes].
    + apply R_nodes.
  - cbn. etrans; [apply R_nodes | apply R_entry].
Qed.

End Closure.

(** *** Only [Insert] allocates, and one node a call *)

Definition no_alloc (h h' : HNSWIndex) : Prop := dom (mem h') ⊆ dom (mem h).

#[local] Instance no_alloc_preorder : PreOrder no_alloc.
Proof.
  split.
  - intros h. unfold no_alloc. done.
  - intros h1 h2 h3 H12 H23. unfold no_alloc in *. by etrans.
Qed.

Lemma no_alloc_write (h : HNSWIndex) (a : nat) (n n' : HNSWNode) :
  mem h !! a = Some n -> no_alloc h (set_mem h (<[a := n']> (mem h))).
Proof.
  intros Ha b. cbn. rewrite dom_insert, elem_of_union, elem_of_singleton.
  intros [-> | Hb]; [| done]. apply elem_of_dom. eauto.
Qed.

Lemma no_alloc_same (h h' : HNSWIndex) : mem h' = mem h -> no_alloc h h'.
Proof. unfold no_alloc. by intros ->. Qed.

Lemma no_alloc_Delete (id : string) (h : HNSWIndex) : no_alloc h (final (Delete id h)).
Proof.
  apply (closed_Delete no_alloc); try (intros; by apply no_alloc_same).
  intros; by eapply no_alloc_write.
Qed.

Lemma no_alloc_Insert_tail (id : string) (vector : list F) (level a : nat) (h : HNSWIndex) :
  no_alloc h (final (Insert_tail id vector level a h)).
Proof.
  apply (closed_Insert_tail no_alloc); try (intros; by apply no_alloc_same);
    intros; by eapply no_alloc_write.
Qed.

(** [Insert], once the dimension is right: a level is drawn, the node is
    put at a fresh address, and the rest is [Insert_tail]. *)
Lemma Insert_unfold (id : string) (vector : list F) (metadata : Tags) (h : HNSWIndex) :
  len vector = dimensions h ->
  exists level r',
    level <= 16 /\
    let h1 := set_rng h r' in
    let a := fresh (dom (mem h1)) in
    Insert id vector metadata h =
      Insert_tail id vector level a
        (set_mem h1
           (<[a := mkHNSWNode id vector (replicate (S level) ∅) level metadata]> (mem h1))).
Proof.
  intros Hdim. unfold Insert. unfold bind at 1, get at 1.
  destruct (Z.eqb_spec (len vector) (dimensions h)) as [_ | Hne]; [| done]. cbn [negb].
  unfold bind at 1. unfold getRandomLevel at 1.
  pose proof (level_loop_cap 16 (levelMultiplier h) (rng h) 0 ltac:(lia)) as Hcap.
  destruct (level_loop 16 (levelMultiplier h) (rng h) 0) as [level r'].
  exists level, r'. split; [exact Hcap |]. reflexivity.
Qed.

(** *** Properties of the payload of every node *)

Definition all_nodes (Q : HNSWNode -> Prop) (h : HNSWIndex) : Prop :=
  forall a n, mem h !! a = Some n -> Q n.

Definition payload_pred (Q : HNSWNode -> Prop) : Prop :=
  forall n n', same_payload n n' -> Q n -> Q n'.

Lemma all_nodes_back (Q : HNSWNode -> Prop) (h h' : HNSWIndex) :
  payload_pred Q -> mem_extends (mem h) (mem h') -> no_alloc h h' ->
  all_nodes Q h -> all_nodes Q h'.
Proof.
  intros HQ Hext Hno Hall a n' Hn'.
  assert (Ha : a ∈ dom (mem h)) by (apply Hno, elem_of_dom; eauto).
  apply elem_of_dom in Ha as [n Hn].
  destruct (Hext a n Hn) as (n'' & Hn'' & Hp).
  assert (n'' = n') as -> by congruence.
  by apply (HQ n n' Hp), (Hall a).
Qed.

Lemma Delete_mem_extends (id : string) (h : HNSWIndex) :
  mem_extends (mem h) (mem (final (Delete id h))).
Proof.
  pose proof (Delete_outcome id h) as Ho.
  destruct (Delete id h) as [[e |] h' | h']; cbn.
  - destruct Ho as (-> & _). apply mem_extends_refl.
  - destruct Ho as (_ & hm & Hrs & ->). cbn. apply (fr_mem _ _ (rs_frames _ _ Hrs)).
  - destruct Ho as [_ Hrs]. apply (fr_mem _ _ (rs_frames _ _ Hrs)).
Qed.

Lemma Delete_all_nodes (Q : HNSWNode -> Prop) (id : string) (h : HNSWIndex) :
  payload_pred Q -> all_nodes Q h -> all_nodes Q (final (Delete id h)).
Proof.
  intros HQ. apply all_nodes_back; [done | apply Delete_mem_extends | apply no_alloc_Delete].
Qed.

Lemma Insert_tail_mem_extends (id : string) (vector : list F) (level a : nat)
    (h : HNSWIndex) :
  mem_extends (mem h) (mem (final (Insert_tail id vector level a h))).
Proof.
  pose proof (Insert_tail_outcome id vector level a h) as Ho.
  destruct (Insert_tail id vector level a h) as [[e |] h' | h']; cbn; [done | |].
  - by eapply inserted_mem.
  - apply (fr_mem _ _ (ev_frames _ _ Ho)).
Qed.

Lemma Insert_all_nodes (Q : HNSWNode -> Prop) (id : string) (vector : list F)
    (metadata : Tags) (h : HNSWIndex) :
  payload_pred Q ->
  (len vector = dimensions h ->
   forall level, level <= 16 ->
                 Q (mkHNSWNode id vector (replicate (S level) ∅) level metadata)) ->
  all_nodes Q h -> all_nodes Q (final (Insert id vector metadata h)).
Proof.
  intros HQ Hnew Hall.
  destruct (decide (len vector = dimensions h)) as [Hdim | Hdim].
  - destruct (Insert_unfold id vector metadata h Hdim) as (level & r' & Hcap & ->).
    eapply all_nodes_back;
      [done | apply Insert_tail_mem_extends | apply no_alloc_Insert_tail |].
    intros b n. cbn. destruct (decide (fresh (dom (mem h)) = b)) as [<- | Hne].
    + rewrite lookup_insert_eq. intros [= <-]. by apply Hnew.
    + rewrite lookup_insert_ne by done. apply Hall.
  - pose proof (Insert_outcome id vector metadata h) as Ho.
    destruct (Insert id vector metadata h) as [[e |] h' | h']; cbn.
    + by destruct Ho as (-> & _).
    + by destruct Ho as (? & _).
    + by destruct Ho as (? & _).
Qed.

(** *** Induction over the states that the facade reaches *)

Lemma load_entries_index_ind (P : HNSWIndex -> Prop) (doc : gmap string json)
    (ids : list string) (now : Z) (db : VectorDatabase) :
  (forall h id vector metadata,
     wf_index h -> nodes h !! id = None -> P h -> P (final (Insert id vector metadata h))) ->
  db_inv db -> NoDup ids -> (forall x, x ∈ ids -> vectors db !! x = None) ->
  P (index db) -> P (index (db_final (load_entries db doc ids now))).
Proof.
  intros Hins Hinv Hnd. revert db Hinv.
  induction Hnd as [| id ids Hnotin Hnd IH]; intros db Hinv Hfree HP; cbn [load_entries];
    [done |].
  destruct (doc !! id) as [[| | | | | dataMap] |]; try done.
  destruct (dataMap !! "vector") as [[| | | | vectorSlice |] |]; try done.
  destruct (to_float32s vectorSlice) as [vector |]; [| done].
  assert (Hv : vectors db !! id = None) by (apply Hfree; by left).
  pose proof (Insert_inv db id vector (tags_of dataMap) now Hinv Hv) as Hi.
  pose proof (Hins (index db) id vector (tags_of dataMap) (inv_wf _ Hinv)
                (keys_agree_None db id (inv_keys _ Hinv) Hv) HP) as HP'.
  destruct (Insert _ _ _ (index db)) as [[e |] h' | h']; try done.
  apply IH; [done | | done]. intros x Hx. cbn.
  rewrite lookup_insert_ne; [apply Hfree; by right |].
  intros ->. done.
Qed.

Lemma reachable_index_ind (P : HNSWIndex -> Prop) :
  (forall cfg dims metric seed, P (NewHNSWIndex cfg dims metric seed)) ->
  (forall h id vector metadata,
     wf_index h -> nodes h !! id = None -> P h -> P (final (Insert id vector metadata h))) ->
  (forall h id, wf_index h -> P h -> P (final (Delete id h))) ->
  forall db, reachable db -> P (index db).
Proof.
  intros Hnew Hins Hdel db Hr.
  induction Hr as [cfg seed db Hnew' | db o Hr HP Hc].
  - unfold NewVectorDatabase in Hnew'. destruct (_ <=? _)%Z; [done |].
    injection Hnew' as <-. apply Hnew.
  - pose proof (reachable_inv db Hr) as Hinv.
    destruct o as [req now | | id | | | | file now]; cbn [apply_op]; try done.
    + unfold DB_Insert. destruct (negb _); [done |].
      destruct (vectors db !! VecID (ReqVector req)) eqn:Hv; [done |].
      pose proof (Hins (index db) (VecID (ReqVector req)) (Data (ReqVector req))
                    (ReqMetadata req) (inv_wf _ Hinv)
                    (keys_agree_None db _ (inv_keys _ Hinv) Hv) HP) as HP'.
      by destruct (Insert _ _ _ (index db)) as [[e |] h' | h'].
    + unfold DB_Delete. destruct (vectors db !! id); [| done].
      pose proof (Hdel (index db) id (inv_wf _ Hinv) HP) as HP'.
      by destruct (Delete id (index db)) as [[e |] h' | h'].
    + cbn in Hc. destruct file as [| | | doc]; try done. cbn [DB_Load].
      apply load_entries_index_ind; [done | done | apply iter_NoDup | | done].
      intros x _. by rewrite Hc, lookup_empty.
Qed.

(** ** What every stored node looks like *)

Definition node_shape (n : HNSWNode) : Prop :=
  Level n <= 16 /\ length (Connections n) = S (Level n).

Lemma node_shape_payload : payload_pred node_shape.
Proof. intros n n' (_ & _ & HL & _ & HC) [? ?]. unfold node_shape. rewrite HL, HC. done. Qed.

Definition vectors_fit (h : HNSWIndex) : Prop :=
  all_nodes (fun n => len (Vector n) = dimensions h) h.

(** In every state that calls of the facade reach from a new database,
    each node of the index has a level of at most 16 and one connection set
    for each layer from 0 to its level. *)
Theorem reachable_nodes_shape (db : VectorDatabase) :
  reachable db -> all_nodes node_shape (index db).
Proof.
  revert db. apply reachable_index_ind.
  - intros cfg dims metric seed a n. cbn. by rewrite lookup_empty.
  - intros h id vector metadata _ _. apply Insert_all_nodes; [apply node_shape_payload |].
    intros _ level Hcap. split; [done |]. cbn. by rewrite length_replicate.
  - intros h id _. apply Delete_all_nodes, node_shape_payload.
Qed.

Lemma reachable_vectors_fit (db : VectorDatabase) : reachable db -> vectors_fit (index db).
Proof.
  revert db. apply reachable_index_ind.
  - intros cfg dims metric seed a n. cbn. by rewrite lookup_empty.
  - intros h id vector metadata _ _ Hall. unfold vectors_fit.
    rewrite Insert_dimensions.
    apply Insert_all_nodes; [| done | done].
    intros n n' (_ & HV & _). by rewrite HV.
  - intros h id _ Hall. unfold vectors_fit. rewrite Delete_dimensions.
    apply Delete_all_nodes; [| done]. intros n n' (_ & HV & _). by rewrite HV.
Qed.

(** In every state that calls of the facade reach from a new database, a
    vector that [Get] returns has the id that was asked for and the number
    of components the database was created with. *)
Theorem DB_Get_dimension (db : VectorDatabase) (id : string) (v : VectorRec)
    (meta : VectorMetadata) :
  reachable db -> DB_Get db id = Ok (v, meta) ->
  VecID v = id /\ len (Data v) = db_dimensions db.
Proof.
  intros Hr. pose proof (reachable_vectors_fit db Hr) as Hfit. unfold DB_Get.
  destruct (vectors db !! id); [| done].
  destruct (nodes (index db) !! id) as [a |]; [| done].
  destruct (mem (index db) !! a) as [n |] eqn:Hn; [| done].
  intros [= <- _]. split; [done |]. cbn. rewrite <- (reachable_dims db Hr).
  by apply (Hfit a).
Qed.

(** ** The heap operations permute the queue *)

Lemma exchange_Permutation {A} (l : list A) (i j : nat) : exchange l i j ≡ₚ l.
Proof.
  unfold exchange. destruct (l !! i) as [a |] eqn:Hi; [| done].
  destruct (l !! j) as [b |] eqn:Hj; [| done]. by apply Permutation_insert_swap.
Qed.


Lemma down_Permutation (fuel : nat) (h : PriorityQueue) (i n : nat) :
  down fuel h i n ≡ₚ h.
Proof.
  revert h i. induction fuel as [| fuel IH]; intros h i; cbn [down].
  - destruct (_ <=? _); [done |]. by destruct (negb _).
  - destruct (_ <=? _); [done |]. destruct (negb _); [done |].
    rewrite IH. apply exchange_Permutation.
Qed.


Lemma heap_Pop_Permutation (h h' : PriorityQueue) (item : PriorityQueueItem) :
  heap_Pop h = Some (item, h') -> h ≡ₚ item :: h'.
Proof.
  unfold heap_Pop. set (n := length h - 1).
  destruct (down n (Swap h 0 n) 0 n !! n) as [it |] eqn:Hit; [| done].
  intros [= -> <-].
  assert (Hlen : length (down n (Swap h 0 n) 0 n) = length h).
  { rewrite down_length. apply exchange_length. }
  assert (Hn : n < length h) by (rewrite <- Hlen; by eapply lookup_lt_Some).
  rewrite Permutation_cons_append, <- (take_S_r _ _ _ Hit).
  rewrite take_ge by lia. rewrite down_Permutation. unfold Swap.
  by rewrite exchange_Permutation.
Qed.

Lemma heap_Pop_None (h : PriorityQueue) : heap_Pop h = None -> h = [].
Proof.
  intros Hp. destruct h as [| x h]; [done |].
  destruct (heap_Pop_cons (x :: h)) as (item & h' & Hs); [done | congruence].
Qed.

Lemma drain_items_Permutation (fuel : nat) (wq : PriorityQueue)
    (acc : list PriorityQueueItem) :
  length wq <= fuel -> drain_items fuel wq acc ≡ₚ wq ++ acc.
Proof.
  revert wq acc. induction fuel as [| fuel IH]; intros wq acc Hlen; cbn.
  { destruct wq; [done | cbn in Hlen; lia]. }
  destruct (heap_Pop wq) as [[item wq'] |] eqn:Hp.
  - apply heap_Pop_Permutation in Hp. rewrite IH.
    + rewrite Hp. cbn. by rewrite Permutation_middle.
    + apply Permutation_length in Hp. cbn in Hp. lia.
  - by rewrite (heap_Pop_None wq Hp).
Qed.

(** ** What searchLayer returns *)
















(** ** What Search returns *)












(** ** selectNeighbors keeps the closest candidates *)

(** The distance from the query to the node behind a reference. *)
Definition dist_to (h : HNSWIndex) (query : list F) (c : ref) : option F :=
  (fun n => CalculateDistance query (Vector n) (distanceFunc h)) <$> deref h c.

Lemma distances_of_spec (h : HNSWIndex) (query : list F) (cands : list ref)
    (ds : list (ref * F)) :
  distances_of h query cands = Some ds ->
  ds.*1 = cands /\ Forall (fun p => dist_to h query p.1 = Some p.2) ds.
Proof.
  revert ds. induction cands as [| c cands IH]; intros ds; cbn.
  - intros [= <-]. split; [done | constructor].
  - destruct (deref h c) as [n |] eqn:Hn; [| done].
    destruct (distances_of h query cands) as [ds' |]; [| done].
    intros [= <-]. destruct (IH ds' eq_refl) as [Hfst Hall]. split.
    + cbn. by rewrite Hfst.
    + constructor; [| done]. unfold dist_to. cbn. by rewrite Hn.
Qed.

(** The key at position [a] is at most the key at position [b]. *)
Definition key_le (ds : list (ref * F)) (a b : nat) : Prop :=
  forall x y, ds !! a = Some x -> ds !! b = Some y -> fle x.2 y.2.

Lemma scan_min_spec (ds : list (ref * F)) (minIdx : nat) (js : list nat) :
  is_Some (ds !! minIdx) ->
  (scan_min ds minIdx js = minIdx \/ scan_min ds minIdx js ∈ js) /\
  is_Some (ds !! scan_min ds minIdx js) /\
  key_le ds (scan_min ds minIdx js) minIdx /\
  forall j, j ∈ js -> key_le ds (scan_min ds minIdx js) j.
Proof.
  revert minIdx. induction js as [| j js IH]; intros minIdx Hm; cbn [scan_min].
  { split; [by left |]. split; [done |]. split.
    - intros x y Hx Hy. assert (x = y) as -> by congruence. apply fle_refl.
    - by intros j Hj%elem_of_nil. }
  destruct (ds !! j) as [[cj dj] |] eqn:Hj.
  2: { destruct (IH minIdx Hm) as (Hr & Hs & Hle & Hall).
       split; [destruct Hr; [by left | right; by right] |]. split; [done |].
       split; [done |]. intros j' [-> | Hj']%elem_of_cons; [| by apply Hall].
       intros x y _ Hy. congruence. }
  destruct Hm as [[cm dm] Hm]. rewrite Hm.
  destruct (flt dj dm) eqn:Hlt.
  - destruct (IH j ltac:(eauto)) as (Hr & Hs & Hle & Hall).
    split; [destruct Hr as [-> | Hr]; right; [by left | by right] |].
    split; [done |]. split.
    + intros x y Hx Hy. assert (y = (cm, dm)) as -> by congruence.
      eapply fle_trans; [apply (Hle x (cj, dj) Hx Hj) |]. by apply flt_fle.
    + intros j' [-> | Hj']%elem_of_cons; [done | by apply Hall].
  - destruct (IH minIdx ltac:(eauto)) as (Hr & Hs & Hle & Hall).
    split; [destruct Hr; [by left | right; by right] |]. split; [done |].
    split; [done |]. intros j' [-> | Hj']%elem_of_cons; [| by apply Hall].
    intros x y Hx Hy. assert (y = (cj, dj)) as -> by congruence.
    eapply fle_trans; [apply (Hle x (cm, dm) Hx Hm) |]. exact Hlt.
Qed.

Lemma exchange_same {A} (l : list A) (i : nat) : exchange l i i = l.
Proof.
  unfold exchange. destruct (l !! i) as [a |] eqn:Hi; [| done].
  by rewrite list_insert_insert_eq, list_insert_id.
Qed.

(** The first [i] keys are in ascending order and at most the others. *)
Definition sel_sorted (ds : list (ref * F)) (i : nat) : Prop :=
  forall a b, a < i -> a <= b -> key_le ds a b.

Lemma select_step_sorted (ds : list (ref * F)) (i : nat) :
  i < length ds -> sel_sorted ds i ->
  let r := scan_min ds i (seq (S i) (length ds - S i)) in
  i <= r < length ds /\ sel_sorted (exchange ds i r) (S i) /\
  take i (exchange ds i r) = take i ds.
Proof.
  intros Hi Hs r.
  destruct (scan_min_spec ds i (seq (S i) (length ds - S i)) (lookup_lt_is_Some_2 _ _ Hi))
    as (Hr & [xr Hxr] & Hle & Hall).
  fold r in Hr, Hxr, Hle, Hall.
  assert (Hrange : i <= r < length ds).
  { destruct Hr as [-> | Hr%elem_of_seq]; lia. }
  destruct (lookup_lt_is_Some_2 ds i Hi) as [xi Hxi].
  assert (Hmin : forall k, i <= k -> key_le ds r k).
  { intros k Hk x y Hx Hy. destruct (decide (k = i)) as [-> | Hne]; [by apply (Hle x y) |].
    apply (Hall k); [| done | done]. apply elem_of_seq.
    apply lookup_lt_Some in Hy. lia. }
  split; [done |]. split.
  - intros a b Ha Hab x y Hx Hy.
    assert (Hy' : exists b', ds !! b' = Some y /\ i <= b' \/ ds !! b = Some y /\ b <> i /\ b <> r).
    { destruct (decide (b = i)) as [-> | Hbi].
      - rewrite (exchange_lookup_l ds i r xi xr Hxi Hxr) in Hy. exists r. left.
        split; [congruence | lia].
      - destruct (decide (b = r)) as [-> | Hbr].
        + rewrite (exchange_lookup_r ds i r xi xr Hxi Hxr) in Hy. exists i. left.
          split; [congruence | lia].
        + rewrite exchange_lookup_ne in Hy by done. exists b. by right. }
    destruct (decide (a = i)) as [-> | Hai].
    + rewrite (exchange_lookup_l ds i r xi xr Hxi Hxr) in Hx. injection Hx as <-.
      destruct Hy' as [b' [[Hb' Hge] | (Hb' & _ & _)]].
      * by apply (Hmin b' Hge xr y).
      * apply (Hmin b ltac:(lia) xr y); done.
    + rewrite exchange_lookup_ne in Hx by lia.
      destruct Hy' as [b' [[Hb' Hge] | (Hb' & _ & _)]].
      * apply (Hs a b' ltac:(lia) ltac:(lia) x y); done.
      * apply (Hs a b ltac:(lia) ltac:(lia) x y); done.
  - apply list_eq. intros k. destruct (decide (k < i)) as [Hk | Hk].
    + rewrite !lookup_take_lt by done. apply exchange_lookup_ne; lia.
    + rewrite !lookup_take_ge by lia. done.
Qed.

Lemma select_loop_spec (count i : nat) (ds : list (ref * F)) (selected : list ref) :
  i + count <= length ds -> sel_sorted ds i ->
  exists ds', ds' ≡ₚ ds /\ sel_sorted ds' (i + count) /\
              take i ds' = take i ds /\
              select_loop count i ds selected = selected ++ (take count (drop i ds')).*1.
Proof.
  revert i ds selected. induction count as [| count IH]; intros i ds selected Hlen Hs;
    cbn [select_loop].
  { exists ds. rewrite Nat.add_0_r. cbn. by rewrite app_nil_r. }
  destruct (select_step_sorted ds i ltac:(lia) Hs) as (Hr & Hs1 & Htake).
  set (r := scan_min ds i (seq (S i) (length ds - S i))) in *.
  assert (Hds1 : (if (r =? i)%nat then ds else exchange ds i r) = exchange ds i r).
  { destruct (Nat.eqb_spec r i) as [-> | _]; [by rewrite exchange_same | done]. }
  rewrite Hds1. set (ds1 := exchange ds i r) in *.
  assert (Hlen1 : length ds1 = length ds) by apply exchange_length.
  destruct (lookup_lt_is_Some_2 ds1 i ltac:(lia)) as [[c d] Hc]. rewrite Hc.
  destruct (IH (S i) ds1 (selected ++ [c]) ltac:(lia) Hs1) as (ds' & Hperm & Hs' & Ht' & Heq).
  exists ds'. split; [| split; [| split]].
  - rewrite Hperm. apply exchange_Permutation.
  - by replace (i + S count) with (S i + count) by lia.
  - rewrite <- Htake. apply (f_equal (take i)) in Ht'.
    by rewrite !take_take, Nat.min_l in Ht' by lia.
  - rewrite Heq, <- app_assoc. f_equal.
    assert (Hc' : ds' !! i = Some (c, d)).
    { rewrite <- (lookup_take_lt ds' (S i)) by lia. rewrite Ht'.
      by rewrite lookup_take_lt by lia. }
    by rewrite (drop_S _ _ _ Hc').
Qed.

(** [selectNeighbors] returns the candidates as they are when they are at
    most [m]; when they are more it returns [m] of them, in ascending order
    of their distance to the query, and none of the candidates it leaves
    out is closer to the query than one it returns.  The comparison of
    distances is a strict weak order. *)
Theorem selectNeighbors_closest (h : HNSWIndex) (cands : list ref) (m : Z)
    (query : list F) (level : nat) (selected : list ref) :
  selectNeighbors h cands m query level = Some selected ->
  ((len cands <= m)%Z -> selected = cands) /\
  ((m < len cands)%Z ->
   len selected = m /\
   (forall a b sa sb da db,
      a <= b -> selected !! a = Some sa -> selected !! b = Some sb ->
      dist_to h query sa = Some da -> dist_to h query sb = Some db -> fle da db) /\
   exists rest,
     selected ++ rest ≡ₚ cands /\
     forall s r ds dr,
       s ∈ selected -> r ∈ rest ->
       dist_to h query s = Some ds -> dist_to h query r = Some dr -> fle ds dr).
Proof.
  unfold selectNeighbors. destruct (Z.leb_spec (len cands) m) as [Hle | Hgt].
  { intros [= <-]. split; [done | lia]. }
  destruct (Z.ltb_spec m 0) as [| Hm]; [done |].
  destruct (distances_of h query cands) as [ds |] eqn:Hds; [| done].
  intros [= <-]. split; [lia |]. intros _.
  destruct (distances_of_spec h query cands ds Hds) as [Hfst Hdist].
  assert (Hlen : length ds = length cands) by (by rewrite <- Hfst, length_fmap).
  unfold len in Hgt.
  replace (Z.to_nat m `min` length cands) with (Z.to_nat m) by lia.
  destruct (select_loop_spec (Z.to_nat m) 0 ds [] ltac:(lia)) as (ds' & Hperm & Hs & _ & ->).
  { intros a b Ha. lia. }
  cbn [app Nat.add] in *. rewrite drop_0.
  assert (Hlen' : length ds' = length ds) by (by rewrite Hperm).
  assert (Hdist' : Forall (fun p => dist_to h query p.1 = Some p.2) ds')
    by (by rewrite Hperm).
  rewrite Forall_forall in Hdist'.
  assert (Hkey : forall k s d, ds' !! k = Some s -> dist_to h query s.1 = Some d -> s.2 = d).
  { intros k s d Hk Hd. assert (Hin : s ∈ ds') by (apply list_elem_of_lookup; eauto).
    specialize (Hdist' s Hin). congruence. }
  split; [| split].
  - unfold len. rewrite length_fmap, length_take. lia.
  - intros a b sa sb da db Hab Ha Hb Hda Hdb.
    apply list_lookup_fmap_Some in Ha as (pa & -> & Ha).
    apply list_lookup_fmap_Some in Hb as (pb & -> & Hb).
    apply lookup_take_Some in Ha as [Ha Halt]. apply lookup_take_Some in Hb as [Hb Hblt].
    rewrite <- (Hkey a pa da Ha Hda), <- (Hkey b pb db Hb Hdb).
    by apply (Hs a b Halt Hab).
  - exists ((drop (Z.to_nat m) ds').*1). split.
    + rewrite <- fmap_app, take_drop, Hperm. by rewrite Hfst.
    + intros s r d_s d_r Hin_s Hin_r Hd_s Hd_r.
      apply list_elem_of_fmap in Hin_s as (ps & -> & Hps).
      apply list_elem_of_fmap in Hin_r as (pr & -> & Hpr).
      apply list_elem_of_lookup in Hps as [a Ha]. apply list_elem_of_lookup in Hpr as [b Hb].
      apply lookup_take_Some in Ha as [Ha Halt]. rewrite lookup_drop in Hb.
      rewrite <- (Hkey a ps d_s Ha Hd_s), <- (Hkey _ pr d_r Hb Hd_r).
      apply (Hs a (Z.to_nat m + b) Halt ltac:(lia)); done.
Qed.

(** ** The degree caps

    A connection set of layer 0 never has more than [MaxM0] members, one
    of a higher layer never more than [M] (no members at all when the
    configured cap is negative). *)

Definition conn (h : HNSWIndex) (b lv : nat) : option (gset string) :=
  match mem h !! b with
  | Some n => Connections n !! lv
  | None => None
  end.

Definition maxConn_of (cfg : HNSWConfig) (level : nat) : Z :=
  if (level =? 0)%nat then MaxM0 cfg else M cfg.

Definition within (cfg : HNSWConfig) (lv : nat) (c : gset string) : Prop :=
  (Z.of_nat (size c) <= Z.max 0 (maxConn_of cfg lv))%Z.

Definition degree_ok (h : HNSWIndex) : Prop :=
  forall b lv c, conn h b lv = Some c -> within (config h) lv c.

Lemma degree_ok_same (h h' : HNSWIndex) :
  mem h' = mem h -> config h' = config h -> degree_ok h -> degree_ok h'.
Proof. intros Hm Hc Hd b lv c. unfold conn. rewrite Hm, Hc. apply Hd. Qed.

Lemma conn_write_eq (h : HNSWIndex) (a : nat) (n : HNSWNode) (level : nat)
    (c : gset string) :
  is_Some (Connections n !! level) ->
  conn (set_mem h (<[a := set_connections n (<[level := c]> (Connections n))]> (mem h)))
    a level = Some c.
Proof.
  intros [c0 Hc]. unfold conn. cbn. rewrite lookup_insert_eq. cbn.
  apply list_lookup_insert_eq. by eapply lookup_lt_Some.
Qed.

Lemma conn_write_ne (h : HNSWIndex) (a : nat) (n : HNSWNode) (level : nat)
    (c : gset string) (b lv : nat) :
  mem h !! a = Some n -> b <> a \/ lv <> level ->
  conn (set_mem h (<[a := set_connections n (<[level := c]> (Connections n))]> (mem h)))
    b lv = conn h b lv.
Proof.
  intros Ha Hne. unfold conn. cbn. destruct (decide (b = a)) as [-> | Hb].
  - rewrite lookup_insert_eq, Ha. cbn. apply list_lookup_insert_ne.
    destruct Hne; congruence.
  - by rewrite lookup_insert_ne.
Qed.

(** *** Delete only removes ids from connection sets *)

Definition shrinks (h h' : HNSWIndex) : Prop :=
  config h' = config h /\
  forall b lv c', conn h' b lv = Some c' ->
                  exists c, conn h b lv = Some c /\ size c' <= size c.

#[local] Instance shrinks_preorder : PreOrder shrinks.
Proof.
  split.
  - intros h. split; [done |]. eauto.
  - intros h1 h2 h3 [Hc12 H12] [Hc23 H23]. split; [congruence |].
    intros b lv c3 H3. destruct (H23 b lv c3 H3) as (c2 & H2 & Hle2).
    destruct (H12 b lv c2 H2) as (c1 & H1 & Hle1). exists c1. split; [done | lia].
Qed.

Lemma shrinks_same (h h' : HNSWIndex) :
  mem h' = mem h -> config h' = config h -> shrinks h h'.
Proof. intros Hm Hc. split; [done |]. intros b lv c'. unfold conn. rewrite Hm. eauto. Qed.

Lemma shrinks_remove (h : HNSWIndex) (a : nat) (n : HNSWNode) (level : nat)
    (c : gset string) (x : string) :
  mem h !! a = Some n -> Connections n !! level = Some c ->
  shrinks h
    (set_mem h (<[a := set_connections n (<[level := c ∖ {[x]}]> (Connections n))]> (mem h))).
Proof.
  intros Ha Hc. split; [done |]. intros b lv c'.
  destruct (decide (b = a /\ lv = level)) as [[-> ->] | Hne].
  - rewrite conn_write_eq by eauto. intros [= <-]. exists c. split.
    + unfold conn. by rewrite Ha.
    + apply subseteq_size. by intros y [Hy _]%elem_of_difference.
  - rewrite conn_write_ne by (done || (destruct (decide (b = a)); [right | left]; tauto)).
    eauto.
Qed.

Lemma Delete_degree (id : string) (h : HNSWIndex) :
  degree_ok h -> degree_ok (final (Delete id h)).
Proof.
  intros Hd.
  assert (Hs : shrinks h (final (Delete id h))).
  { apply (closed_Delete shrinks); try (intros; by apply shrinks_same).
    intros; by apply shrinks_remove. }
  destruct Hs as [Hc Hs]. intros b lv c' Hc'.
  destruct (Hs b lv c' Hc') as (c & Hconn & Hle). specialize (Hd b lv c Hconn).
  unfold within in *. rewrite Hc. lia.
Qed.

(** *** A write changes one connection set *)

Record same_but (b lv : nat) (h h' : HNSWIndex) : Prop := mkSameBut {
  sb_config : config h' = config h;
  sb_nodes : nodes h' = nodes h;
  sb_alloc : forall b', is_Some (mem h' !! b') <-> is_Some (mem h !! b');
  sb_conn : forall b' lv', b' <> b \/ lv' <> lv -> conn h' b' lv' = conn h b' lv'
}.

Lemma same_but_refl (b lv : nat) (h : HNSWIndex) : same_but b lv h h.
Proof. by split. Qed.

Lemma same_but_trans (b lv : nat) (h1 h2 h3 : HNSWIndex) :
  same_but b lv h1 h2 -> same_but b lv h2 h3 -> same_but b lv h1 h3.
Proof.
  intros [Hc1 Hn1 Ha1 Hk1] [Hc2 Hn2 Ha2 Hk2]. split.
  - congruence.
  - congruence.
  - intros b'. rewrite Ha2. apply Ha1.
  - intros b' lv' Hne. rewrite (Hk2 b' lv' Hne). by apply Hk1.
Qed.

Lemma same_but_rng (b lv : nat) (h : HNSWIndex) (r : Rand) : same_but b lv h (set_rng h r).
Proof. by split. Qed.

Lemma same_but_write (h : HNSWIndex) (a : nat) (n : HNSWNode) (level : nat)
    (c : gset string) :
  mem h !! a = Some n ->
  same_but a level h
    (set_mem h (<[a := set_connections n (<[level := c]> (Connections n))]> (mem h))).
Proof.
  intros Ha. split; try done.
  - intros b'. cbn. rewrite lookup_insert_is_Some.
    split; [intros [<- | [_ ?]]; eauto | intros Hb].
    destruct (decide (a = b')); [by left | by right].
  - intros b' lv' Hne. by apply conn_write_ne.
Qed.

Lemma addConnection_outcome (x : nat) (p : ref) (lv : nat) (h : HNSWIndex) :
  addConnection (Some x) p lv h =
    match mem h !! x with
    | None => Panic h
    | Some n1 =>
        match Connections n1 !! lv with
        | None => Ret tt h
        | Some c =>
            match deref h p with
            | None => Panic h
            | Some n2 =>
                Ret tt (set_mem h
                          (<[x := set_connections n1
                                    (<[lv := {[ID n2]} ∪ c]> (Connections n1))]> (mem h)))
            end
        end
    end.
Proof.
  unfold addConnection. unfold bind at 1. rewrite load_outcome. cbn [deref].
  destruct (mem h !! x) as [n1 |] eqn:Hx; [| done].
  destruct (Connections n1 !! lv) as [c |]; [| done].
  unfold bind at 1. rewrite load_outcome. destruct (deref h p) as [n2 |]; [| done].
  rewrite write_connections_outcome. by rewrite Hx.
Qed.

(** *** Pruning brings a set down to the cap *)

Lemma Intn_Some (r : Rand) (n : Z) :
  (0 < n)%Z -> exists x r', Intn r n = Some (x, r') /\ (0 <= x < n)%Z.
Proof.
  intros Hn. unfold Intn. destruct (Z.leb_spec n 0); [lia |].
  destruct (Int63 r) as [y r1]. exists (y mod n)%Z, r1. split; [done |].
  apply Z.mod_pos_bound. lia.
Qed.

Lemma prune_step_Permutation (L : list string) (i r : nat) (removeID last : string) :
  r <= i -> L !! r = Some removeID -> L !! i = Some last ->
  take (S i) L ≡ₚ removeID :: take i (<[r := last]> L).
Proof.
  intros Hr Hrem Hlast. rewrite (take_S_r _ _ _ Hlast).
  destruct (decide (r = i)) as [-> | Hne].
  - assert (removeID = last) as -> by congruence.
    rewrite list_insert_id by done. symmetry. apply Permutation_cons_append.
  - rewrite take_insert_lt by lia.
    assert (Hi : i < length L) by (by eapply lookup_lt_Some).
    assert (HT : take i L !! r = Some removeID) by (rewrite lookup_take_lt by lia; done).
    rewrite insert_take_drop by (rewrite length_take; lia).
    rewrite <- (take_drop_middle (take i L) r removeID HT) at 1.
    rewrite <- app_assoc. cbn. rewrite <- !Permutation_middle.
    by rewrite app_nil_r.
Qed.

Lemma size_listed (c : gset string) (l : list string) :
  NoDup l -> (forall x, x ∈ l <-> x ∈ c) -> size c = length l.
Proof.
  intros Hnd Hl. rewrite <- (size_list_to_set (C := gset string) l Hnd).
  f_equal. apply set_eq. intros x. rewrite elem_of_list_to_set. by rewrite Hl.
Qed.

Lemma prune_loop_spec (b lv : nat) (maxConn : Z) (i1 : nat) :
  (0 <= maxConn)%Z ->
  forall (L : list string) (h : HNSWIndex) (c : gset string),
    conn h b lv = Some c -> i1 <= length L -> NoDup (take i1 L) ->
    (forall x, x ∈ take i1 L <-> x ∈ c) ->
    exists h' c',
      prune_loop (Some b) lv maxConn L i1 h = Ret tt h' /\ same_but b lv h h' /\
      conn h' b lv = Some c' /\ (Z.of_nat (size c') <= maxConn)%Z.
Proof.
  intros Hmax. induction i1 as [| i IH]; intros L h c Hc Hlen Hnd Hel; cbn [prune_loop].
  - destruct (Z.ltb_spec (Z.of_nat 0 - 1) maxConn); [| lia].
    exists h, c. split; [done |]. split; [apply same_but_refl |]. split; [done |].
    rewrite (size_listed c (take 0 L) Hnd Hel), length_take. lia.
  - destruct (Z.ltb_spec (Z.of_nat (S i) - 1) maxConn) as [Hlt | Hge].
    { exists h, c. split; [done |]. split; [apply same_but_refl |]. split; [done |].
      rewrite (size_listed c (take (S i) L) Hnd Hel), length_take. lia. }
    unfold bind at 1, get at 1. unfold bind at 1.
    destruct (Intn_Some (rng h) (Z.of_nat i + 1) ltac:(lia)) as (x & r' & -> & Hx).
    cbn [must ret]. unfold bind at 1, put at 1. cbn [fst snd].
    set (h1 := set_rng h r').
    destruct (lookup_lt_is_Some_2 L (Z.to_nat x) ltac:(lia)) as [removeID Hrem].
    destruct (lookup_lt_is_Some_2 L i ltac:(lia)) as [last Hlast].
    unfold bind at 1. rewrite Hrem. cbn [must ret].
    unfold bind at 1. rewrite load_outcome. cbn [deref].
    assert (Hc1 : conn h1 b lv = Some c) by exact Hc.
    unfold conn in Hc1. destruct (mem h1 !! b) as [n |] eqn:Hn; [| done].
    unfold bind at 1. rewrite Hc1. cbn [must ret].
    unfold bind at 1. rewrite write_connections_outcome, Hn.
    set (h2 := set_mem h1 _).
    unfold bind at 1. rewrite Hlast. cbn [must ret].
    pose proof (prune_step_Permutation L i (Z.to_nat x) removeID last ltac:(lia) Hrem Hlast)
      as Hperm.
    assert (Hnd' : NoDup (removeID :: take i (<[Z.to_nat x := last]> L)))
      by (by rewrite <- Hperm).
    apply NoDup_cons in Hnd' as [Hnotin Hnd'].
    destruct (IH (<[Z.to_nat x := last]> L) h2 (c ∖ {[removeID]})) as (h' & c' & Hrun & Hsb & Hc' & Hsize).
    + apply conn_write_eq. eauto.
    + rewrite length_insert. lia.
    + done.
    + intros y. rewrite elem_of_difference, elem_of_singleton, <- Hel, Hperm, elem_of_cons.
      split; [intros Hy; split; [by right | intros ->; done] | intros [[-> | Hy] Hne]; done].
    + exists h', c'. split; [exact Hrun |]. split; [| done].
      eapply same_but_trans; [| exact Hsb].
      eapply same_but_trans; [apply (same_but_rng b lv h r') |].
      by apply same_but_write.
Qed.

Lemma pruneConnections_spec (b lv : nat) (h : HNSWIndex) (n : HNSWNode) :
  mem h !! b = Some n -> (0 <= maxConn_of (config h) lv)%Z ->
  exists h',
    pruneConnections (Some b) lv h = Ret tt h' /\ same_but b lv h h' /\
    forall c', conn h' b lv = Some c' ->
               (Z.of_nat (size c') <= maxConn_of (config h) lv)%Z.
Proof.
  intros Hn Hmax. unfold pruneConnections. unfold bind at 1, get at 1.
  unfold bind at 1. rewrite load_outcome. cbn [deref]. rewrite Hn.
  fold (maxConn_of (config h) lv).
  destruct (Connections n !! lv) as [c |] eqn:Hc.
  2: { exists h. split; [done |]. split; [apply same_but_refl |].
       intros c'. unfold conn. by rewrite Hn, Hc. }
  assert (Hconn : conn h b lv = Some c) by (unfold conn; by rewrite Hn).
  destruct (Z.ltb_spec (maxConn_of (config h) lv) (Z.of_nat (size c))) as [Hbig | Hsmall].
  - destruct (prune_loop_spec b lv (maxConn_of (config h) lv) (length (iter c)) Hmax
                (iter c) h c Hconn (le_n _)) as (h' & c' & Hrun & Hsb & Hc' & Hsize).
    + rewrite take_ge by done. apply iter_NoDup.
    + intros x. rewrite take_ge by done. split; [apply iter_elem | apply iter_complete].
    + exists h'. split; [exact Hrun |]. split; [done |].
      intros c2 Hc2. assert (c2 = c') as -> by congruence. done.
  - exists h. split; [done |]. split; [apply same_but_refl |].
    intros c' Hc'. assert (c' = c) as -> by congruence. done.
Qed.

(** *** The links of one layer *)

(** While the new node at [a] is linked on layer [cl]: its set of this
    layer has at most [k] members, its sets of the layers below are empty,
    and every other set is within its cap. *)
Record linking (cfg : HNSWConfig) (a cl k : nat) (h : HNSWIndex) : Prop := mkLinking {
  lk_config : config h = cfg;
  lk_unregistered : forall x, nodes h !! x <> Some a;
  lk_here : exists c, conn h a cl = Some c /\ size c <= k;
  lk_below : forall lv, lv < cl -> conn h a lv = Some ∅;
  lk_others : forall b lv c, b <> a \/ lv <> cl -> conn h b lv = Some c -> within cfg lv c
}.

(** Between two layers: the sets of the layers below [n] are empty, and
    every set is within its cap. *)
Record layered (cfg : HNSWConfig) (a n : nat) (h : HNSWIndex) : Prop := mkLayered {
  ly_config : config h = cfg;
  ly_unregistered : forall x, nodes h !! x <> Some a;
  ly_below : forall lv, lv < n -> conn h a lv = Some ∅;
  ly_degree : forall b lv c, conn h b lv = Some c -> within cfg lv c
}.

Lemma linking_weaken (cfg : HNSWConfig) (a cl k k' : nat) (h : HNSWIndex) :
  k <= k' -> linking cfg a cl k h -> linking cfg a cl k' h.
Proof.
  intros Hk [Hc Hu (c & Hh & Hs) Hb Ho]. split; try done. exists c. split; [done | lia].
Qed.

Lemma layered_weaken (cfg : HNSWConfig) (a n n' : nat) (h : HNSWIndex) :
  n' <= n -> layered cfg a n h -> layered cfg a n' h.
Proof. intros Hn [Hc Hu Hb Hd]. split; try done. intros lv Hlv. apply Hb. lia. Qed.

Lemma linking_of_layered (cfg : HNSWConfig) (a cl : nat) (h : HNSWIndex) :
  layered cfg a (S cl) h -> linking cfg a cl 0 h.
Proof.
  intros [Hc Hu Hb Hd]. split; try done.
  - exists ∅. split; [apply Hb; lia | by rewrite size_empty].
  - intros lv Hlv. apply Hb. lia.
  - intros b lv c _. apply Hd.
Qed.

Lemma layered_of_linking (cfg : HNSWConfig) (a cl k : nat) (h : HNSWIndex) :
  (Z.of_nat k <= Z.max 0 (maxConn_of cfg cl))%Z ->
  linking cfg a cl k h -> layered cfg a cl h.
Proof.
  intros Hk [Hc Hu (c & Hh & Hs) Hb Ho]. split; try done.
  intros b lv c' Hc'. destruct (decide (b = a /\ lv = cl)) as [[-> ->] | Hne].
  - assert (c' = c) as -> by congruence. unfold within. lia.
  - apply (Ho b lv c'); [| done]. destruct (decide (b = a)); [right | left]; tauto.
Qed.

Definition link_body (a cl : nat) (neighbor : ref) : Op unit :=
  addConnection (Some a) neighbor cl ;;;
  addConnection neighbor (Some a) cl ;;;
  pruneConnections neighbor cl.

Lemma size_add (c : gset string) (x : string) : size ({[x]} ∪ c) <= S (size c).
Proof.
  rewrite size_union_alt, size_singleton.
  assert (Hsub : c ∖ {[x]} ⊆ c) by (by intros y [Hy _]%elem_of_difference).
  apply subseteq_size in Hsub. lia.
Qed.

Lemma link_body_spec (cfg : HNSWConfig) (a cl k : nat) (neighbor : ref) (h : HNSWIndex) :
  linking cfg a cl k h -> neighbor <> Some a -> (1 <= maxConn_of cfg cl)%Z ->
  match link_body a cl neighbor h with
  | Ret _ h' => linking cfg a cl (S k) h'
  | Panic h' => h' = h
  end.
Proof.
  intros [Hcfg Hunreg (c & Hc & Hsize) Hbelow Hothers] Hne Hm.
  unfold link_body. unfold bind at 1. rewrite addConnection_outcome.
  pose proof Hc as Hc0. unfold conn in Hc0.
  destruct (mem h !! a) as [na |] eqn:Hna; [| done]. rewrite Hc0.
  destruct (deref h neighbor) as [n2 |] eqn:Hn2; [| done].
  destruct neighbor as [b |]; [| done]. cbn in Hn2.
  assert (Hba : b <> a) by congruence.
  set (h1 := set_mem h _).
  assert (Hsb1 : same_but a cl h h1) by (by apply same_but_write).
  assert (Hc1 : conn h1 a cl = Some ({[ID n2]} ∪ c)) by (apply conn_write_eq; eauto).
  assert (Hstep2 : exists h2, addConnection (Some b) (Some a) cl h1 = Ret tt h2 /\
                              same_but b cl h1 h2).
  { rewrite addConnection_outcome.
    assert (Hb1 : mem h1 !! b = Some n2) by (cbn; by rewrite lookup_insert_ne).
    rewrite Hb1. destruct (Connections n2 !! cl) as [cb |].
    - cbn [deref]. unfold h1 at 1. cbn [mem set_mem]. rewrite lookup_insert_eq.
      eexists. split; [reflexivity |]. by apply same_but_write.
    - exists h1. split; [done | apply same_but_refl]. }
  unfold bind at 1. destruct Hstep2 as (h2 & -> & Hsb2).
  destruct (proj2 (sb_alloc _ _ _ _ Hsb2 b)) as [nb Hnb].
  { apply (sb_alloc _ _ _ _ Hsb1). eauto. }
  assert (Hcfg2 : config h2 = cfg).
  { rewrite (sb_config _ _ _ _ Hsb2), (sb_config _ _ _ _ Hsb1). done. }
  destruct (pruneConnections_spec b cl h2 nb Hnb ltac:(rewrite Hcfg2; lia))
    as (h3 & -> & Hsb3 & Hcap).
  rewrite Hcfg2 in Hcap.
  assert (Hframe : forall b' lv', b' <> a \/ lv' <> cl -> b' <> b \/ lv' <> cl ->
                                conn h3 b' lv' = conn h b' lv').
  { intros b' lv' H1 H2. rewrite (sb_conn _ _ _ _ Hsb3 b' lv' H2).
    rewrite (sb_conn _ _ _ _ Hsb2 b' lv' H2). apply (sb_conn _ _ _ _ Hsb1 b' lv' H1). }
  split.
  - rewrite (sb_config _ _ _ _ Hsb3). done.
  - intros x. rewrite (sb_nodes _ _ _ _ Hsb3), (sb_nodes _ _ _ _ Hsb2),
      (sb_nodes _ _ _ _ Hsb1). apply Hunreg.
  - exists ({[ID n2]} ∪ c). split.
    + rewrite (sb_conn _ _ _ _ Hsb3 a cl ltac:(by left)).
      rewrite (sb_conn _ _ _ _ Hsb2 a cl ltac:(by left)). done.
    + pose proof (size_add c (ID n2)). lia.
  - intros lv Hlv. rewrite Hframe; [by apply Hbelow | right; lia | right; lia].
  - intros b' lv' c' Hne' Hc'.
    destruct (decide (b' = b /\ lv' = cl)) as [[-> ->] | Hnb'].
    + specialize (Hcap c' Hc'). unfold within. lia.
    + rewrite Hframe in Hc'; [by apply (Hothers b' lv' c') | done |].
      destruct (decide (b' = b)); [right | left]; tauto.
Qed.

Lemma link_all_spec (cfg : HNSWConfig) (a cl : nat) (l : list ref) :
  forall (k : nat) (h : HNSWIndex),
    linking cfg a cl k h -> Forall (fun nb => nb <> Some a) l ->
    (l <> [] -> (1 <= maxConn_of cfg cl)%Z) ->
    exists j, j <= k + length l /\ linking cfg a cl j (final (forM l (link_body a cl) h)).
Proof.
  induction l as [| nb l IH]; intros k h Hl Hall Hm; cbn [forM].
  { exists k. cbn. split; [lia | done]. }
  apply Forall_cons in Hall as [Hnb Hall]. unfold bind.
  pose proof (link_body_spec cfg a cl k nb h Hl Hnb (Hm ltac:(done))) as Hb.
  destruct (link_body a cl nb h) as [[] h1 | h1].
  - destruct (IH (S k) h1 Hb Hall) as (j & Hj & Hlink).
    { intros _. by apply Hm. }
    exists j. split; [cbn; lia | done].
  - subst h1. exists k. cbn. split; [lia | done].
Qed.

(** *** What searchLayer and selectNeighbors hand to the loop *)

Lemma searchLayer_refs (h : HNSWIndex) (query : list F) (eps : list ref) (ef : Z)
    (level : nat) (refs : list ref) (r : ref) :
  searchLayer h query eps ef level = Some refs -> r ∈ refs ->
  exists x, r = nodes h !! x.
Proof.
  unfold searchLayer.
  destruct (init_entries _ _ _ _) as [st0 |]; [| done].
  destruct (search_loop _ _ _ _ _ _) as [st |]; [| done].
  intros [= <-]. pose proof (drain_drain_items (length (w st)) h (w st) []) as Hd.
  cbn [map] in Hd. rewrite Hd. intros (it & -> & _)%list_elem_of_fmap. by exists (ItemID it).
Qed.

Lemma select_loop_basic (count i : nat) (ds : list (ref * F)) (selected : list ref) :
  length (select_loop count i ds selected) <= length selected + count /\
  forall s, s ∈ select_loop count i ds selected -> s ∈ selected \/ s ∈ ds.*1.
Proof.
  revert i ds selected. induction count as [| count IH]; intros i ds selected;
    cbn [select_loop].
  { split; [lia | by left]. }
  set (ds' := if (_ =? i)%nat then ds else _).
  assert (Hsub : forall p, p ∈ ds' -> p ∈ ds).
  { intros p. unfold ds'. destruct (_ =? i)%nat; [done | apply elem_of_exchange]. }
  destruct (ds' !! i) as [[c d] |] eqn:Hc; [| split; [lia | by left]].
  destruct (IH (S i) ds' (selected ++ [c])) as [Hlen Hel]. split.
  - rewrite length_app in Hlen. cbn in Hlen. lia.
  - intros s Hs. destruct (Hel s Hs) as [Hin | Hin].
    + apply elem_of_app in Hin as [Hin | ->%list_elem_of_singleton]; [by left |].
      right. apply list_elem_of_fmap. exists (c, d). split; [done |].
      apply Hsub, list_elem_of_lookup. eauto.
    + right. apply list_elem_of_fmap in Hin as (p & -> & Hp).
      apply list_elem_of_fmap. exists p. split; [done | by apply Hsub].
Qed.

Lemma selectNeighbors_basic (h : HNSWIndex) (cands : list ref) (m : Z)
    (query : list F) (level : nat) (selected : list ref) :
  selectNeighbors h cands m query level = Some selected ->
  (len selected <= Z.max 0 m)%Z /\ (selected <> [] -> (1 <= m)%Z) /\
  forall s, s ∈ selected -> s ∈ cands.
Proof.
  unfold selectNeighbors. destruct (Z.leb_spec (len cands) m) as [Hle | Hgt].
  { intros [= <-]. split; [lia |]. split; [| done].
    intros Hne. destruct cands; [done |]. unfold len in Hle. cbn in Hle. lia. }
  destruct (Z.ltb_spec m 0) as [| Hm]; [done |].
  destruct (distances_of h query cands) as [ds |] eqn:Hds; [| done].
  intros [= <-]. destruct (distances_of_spec h query cands ds Hds) as [Hfst _].
  destruct (select_loop_basic (Z.to_nat m `min` length cands) 0 ds []) as [Hlen Hel].
  cbn in Hlen. split; [unfold len; lia |]. split.
  - intros Hne. destruct (Z.to_nat m) eqn:Hz; [| lia].
    cbn in Hne. done.
  - intros s Hs. destruct (Hel s Hs) as [Hin%elem_of_nil | Hin]; [done |]. by rewrite <- Hfst.
Qed.

(** *** Insert *)

Lemma connect_layers_degree (cfg : HNSWConfig) (a : nat) (vector : list F) (n : nat) :
  forall (ep : list ref) (h : HNSWIndex),
    layered cfg a n h ->
    layered cfg a 0 (final (connect_layers (Some a) vector ep n h)).
Proof.
  induction n as [| cl IH]; intros ep h Hl; cbn [connect_layers]; [done |].
  unfold bind at 1, get at 1. unfold bind at 1.
  destruct (searchLayer h vector ep (EfConstruction (config h)) cl) as [cands |] eqn:Hs;
    cbn [must ret panic final]; [| eapply layered_weaken; [| exact Hl]; lia].
  unfold bind at 1. fold (maxConn_of (config h) cl).
  destruct (selectNeighbors h cands (maxConn_of (config h) cl) vector cl)
    as [selected |] eqn:Hsel;
    cbn [must ret panic final]; [| eapply layered_weaken; [| exact Hl]; lia].
  destruct (selectNeighbors_basic _ _ _ _ _ _ Hsel) as (Hlen & Hpos & Hin).
  rewrite (ly_config _ _ _ _ Hl) in Hlen, Hpos.
  assert (Hall : Forall (fun nb => nb <> Some a) selected).
  { apply Forall_forall. intros nb Hnb%Hin.
    destruct (searchLayer_refs _ _ _ _ _ _ _ Hs Hnb) as [x ->].
    apply (ly_unregistered _ _ _ _ Hl). }
  destruct (link_all_spec cfg a cl selected 0 h (linking_of_layered _ _ _ _ Hl) Hall Hpos)
    as (j & Hj & Hlink).
  assert (Hlay : layered cfg a cl (final (forM selected (link_body a cl) h))).
  { eapply layered_of_linking; [| exact Hlink]. unfold len in Hlen. lia. }
  unfold bind at 1.
  change (forM selected _ h) with (forM selected (link_body a cl) h).
  destruct (forM selected (link_body a cl) h) as [[] h1 | h1]; cbn [final] in Hlay |- *.
  - by apply IH.
  - eapply layered_weaken; [| exact Hlay]. lia.
Qed.

Lemma degree_ok_of_layered (cfg : HNSWConfig) (a n : nat) (h : HNSWIndex) :
  layered cfg a n h -> degree_ok h.
Proof. intros [Hc _ _ Hd] b lv c. rewrite Hc. apply Hd. Qed.

Lemma Insert_tail_degree (id : string) (vector : list F) (level a : nat) (h : HNSWIndex) :
  layered (config h) a (S level) h ->
  degree_ok (final (Insert_tail id vector level a h)).
Proof.
  intros Hl. pose proof (degree_ok_of_layered _ _ _ _ Hl) as Hd.
  unfold Insert_tail. unfold bind at 1, get at 1.
  destruct (entryPoint h) as [e |].
  - unfold bind at 1.
    destruct (descend h vector [Some e] (maxLevel h) level) as [ep |];
      cbn [must ret panic final]; [| done].
    unfold bind at 1.
    pose proof (connect_layers_degree (config h) a vector (S (level `min` maxLevel h)) ep h
                  ltac:(eapply layered_weaken; [| exact Hl]; lia)) as Hc.
    apply degree_ok_of_layered in Hc.
    destruct (connect_layers _ _ _ _ h) as [[] hm | hm]; cbn [final] in Hc |- *; [| done].
    unfold bind at 1, get at 1.
    destruct (maxLevel hm <? level)%nat; cbn; by eapply degree_ok_same; [| | exact Hc].
  - cbn. by eapply degree_ok_same; [| | exact Hd].
Qed.

Lemma Insert_degree (id : string) (vector : list F) (metadata : Tags) (h : HNSWIndex) :
  wf_index h -> degree_ok h -> degree_ok (final (Insert id vector metadata h)).
Proof.
  intros Hw Hd.
  destruct (decide (len vector = dimensions h)) as [Hdim | Hdim].
  - destruct (Insert_unfold id vector metadata h Hdim) as (level & r' & _ & ->).
    apply Insert_tail_degree. cbn [config set_mem set_rng mem].
    set (a := fresh (dom (mem h))).
    assert (Ha : mem h !! a = None) by apply fresh_unallocated.
    split; cbn [config set_mem set_rng mem nodes].
    + done.
    + intros x Hx. destruct (wf_ids _ Hw x a Hx) as (n & Hn & _). congruence.
    + intros lv Hlv. unfold conn. cbn [mem set_mem set_rng].
      rewrite lookup_insert_eq. cbn [Connections]. by apply lookup_replicate_2.
    + intros b lv c. unfold conn. cbn [mem set_mem set_rng].
      destruct (decide (b = a)) as [-> | Hne].
      * rewrite lookup_insert_eq. cbn [Connections]. intros [-> _]%lookup_replicate.
        unfold within. rewrite size_empty. lia.
      * rewrite lookup_insert_ne by done. apply Hd.
  - pose proof (Insert_outcome id vector metadata h) as Ho.
    destruct (Insert id vector metadata h) as [[e |] h' | h']; cbn.
    + by destruct Ho as (-> & _).
    + by destruct Ho as (? & _).
    + by destruct Ho as (? & _).
Qed.

(** In every state that calls of the facade reach from a new database, a
    node's connection set of layer 0 has at most [MaxM0] members and each of
    its sets of a higher layer at most [M], for the [MaxM0] and [M] of the
    configuration (no members when the configured number is negative). *)
Theorem reachable_degree_caps (db : VectorDatabase) (a : nat) (n : HNSWNode) (level : nat)
    (c : gset string) :
  reachable db -> mem (index db) !! a = Some n -> Connections n !! level = Some c ->
  (Z.of_nat (size c) <=
     Z.max 0 (if (level =? 0)%nat then MaxM0 (HNSW (db_config db))
              else M (HNSW (db_config db))))%Z.
Proof.
  intros Hr Hn Hc. pose proof (sa_config _ (reachable_settings_agree db Hr)) as Hcfg.
  assert (Hd : degree_ok (index db)).
  { clear Hn Hcfg. revert db Hr. apply reachable_index_ind.
    - intros cfg dims metric seed. intros b lv c'. unfold conn. cbn. by rewrite lookup_empty.
    - intros h id vector metadata Hw _. by apply Insert_degree.
    - intros h id _. apply Delete_degree. }
  rewrite <- Hcfg. apply (Hd a level c). unfold conn. by rewrite Hn.
Qed.

(** ** Load *)

(** What [Load] makes of the entry of [id] in the parsed file: the vector
    converted to float32, the tags found under [metadata.tags], and the
    time of the call as the creation time. *)
Definition entry_of (doc : gmap string json) (id : string) (now : Z)
    : option (list F * VectorMetadata) :=
  match doc !! id with
  | Some (JObject dataMap) =>
      match dataMap !! "vector" with
      | Some (JArray vectorSlice) =>
          match to_float32s vectorSlice with
          | Some vector => Some (vector, mkVectorMetadata now (tags_of dataMap))
          | None => None
          end
      | _ => None
      end
  | _ => None
  end.

Lemma Insert_stored_new (db : VectorDatabase) (id : string) (vector : list F)
    (metadata : Tags) (now : Z) (h' : HNSWIndex) :
  Insert id vector metadata (index db) = Ret None h' ->
  stored (set_vectors (set_index db h')
            (<[id := mkVectorMetadata now metadata]> (vectors db)))
    id vector (mkVectorMetadata now metadata).
Proof.
  intros Hi. pose proof (Insert_outcome id vector metadata (index db)) as Ho.
  rewrite Hi in Ho. destruct Ho as (_ & a & h2 & _ & _ & Hreg & Hins).
  split; cbn; [apply lookup_insert_eq |].
  exists a. split.
  - rewrite (inserted_nodes _ _ _ _ Hins). apply lookup_insert_eq.
  - eapply registered_at_extends; [by eapply inserted_mem | done].
Qed.

Lemma Insert_stored_other (db : VectorDatabase) (id : string) (vector : list F)
    (metadata : Tags) (now : Z) (h' : HNSWIndex) id0 v0 m0 :
  Insert id vector metadata (index db) = Ret None h' -> id <> id0 ->
  stored db id0 v0 m0 ->
  stored (set_vectors (set_index db h')
            (<[id := mkVectorMetadata now metadata]> (vectors db))) id0 v0 m0.
Proof.
  intros Hi Hne (Hm & b & Hb & Hr).
  pose proof (Insert_outcome id vector metadata (index db)) as Ho.
  rewrite Hi in Ho. destruct Ho as (_ & a & h2 & _ & Hev & _ & Hins).
  split; cbn.
  - by rewrite lookup_insert_ne.
  - exists b. split.
    + rewrite (inserted_nodes _ _ _ _ Hins), lookup_insert_ne by done.
      by rewrite (fr_nodes _ _ (ev_frames _ _ Hev)).
    + eapply registered_at_extends; [by eapply inserted_mem |].
      eapply registered_at_extends; [apply (fr_mem _ _ (ev_frames _ _ Hev)) | done].
Qed.

Lemma load_entries_stored (doc : gmap string json) (now : Z) (ids : list string) :
  NoDup ids ->
  forall db db',
    load_entries db doc ids now = Returned None db' ->
    dom (vectors db') = list_to_set ids ∪ dom (vectors db) /\
    (forall id0 v0 m0, id0 ∉ ids -> stored db id0 v0 m0 -> stored db' id0 v0 m0) /\
    (forall id, id ∈ ids ->
                exists v m, entry_of doc id now = Some (v, m) /\ stored db' id v m).
Proof.
  induction 1 as [| id ids Hnotin Hnd IH]; intros db db'; cbn [load_entries].
  { intros [= <-]. split; [| split; [done | by intros id Hid%elem_of_nil]].
    apply set_eq. intros x. rewrite elem_of_union, elem_of_list_to_set, elem_of_nil. tauto. }
  destruct (doc !! id) as [[| | | | | dataMap] |] eqn:Hdoc; try done.
  destruct (dataMap !! "vector") as [[| | | | vectorSlice |] |] eqn:Hvec; try done.
  destruct (to_float32s vectorSlice) as [vector |] eqn:Hconv; [| done].
  destruct (Insert id vector (tags_of dataMap) (index db)) as [[e |] h' | h'] eqn:Hi;
    try done.
  intros Hrest. destruct (IH _ _ Hrest) as (Hdom & Hkeep & Hnew). split; [| split].
  - rewrite Hdom. cbn. rewrite dom_insert_L. apply set_eq. intros x.
    rewrite !elem_of_union, !elem_of_list_to_set. tauto.
  - intros id0 v0 m0 Hid0 Hs. apply Hkeep; [by intros ?; apply Hid0; right |].
    eapply Insert_stored_other; [exact Hi | | exact Hs]. intros ->. apply Hid0. by left.
  - intros id' [-> | Hin]%elem_of_cons.
    + exists vector, (mkVectorMetadata now (tags_of dataMap)). split.
      * unfold entry_of. by rewrite Hdoc, Hvec, Hconv.
      * apply Hkeep; [done |]. by apply Insert_stored_new.
    + by apply Hnew.
Qed.

(** When [Load] has read a file and returned [nil], the stored ids are
    those of the file together with those stored before, and for each id of
    the file [Get] returns the vector of the file converted to float32,
    with the tags found under [metadata.tags] and the time of the call as
    creation time. *)
Theorem DB_Load_restores (db db' : VectorDatabase) (doc : gmap string json) (now : Z) :
  DB_Load db (FileParsed doc) now = Returned None db' ->
  dom (vectors db') = dom doc ∪ dom (vectors db) /\
  forall id, id ∈ dom doc ->
             exists v m, entry_of doc id now = Some (v, m) /\
                         DB_Get db' id = Ok (mkVector id v, m).
Proof.
  cbn [DB_Load]. intros Hl.
  destruct (load_entries_stored doc now (iter (dom doc)) (iter_NoDup _) db db' Hl)
    as (Hdom & _ & Hnew).
  split.
  - rewrite Hdom. f_equal. apply set_eq. intros x. rewrite elem_of_list_to_set.
    split; [apply iter_elem | apply iter_complete].
  - intros id Hid. destruct (Hnew id (iter_complete _ _ Hid)) as (v & m & He & Hs).
    exists v, m. split; [done | by apply stored_Get].
Qed.

(** ** Save *)


(** ** UpdateConfig *)

Definition UpdateConfig (db : VectorDatabase) (newConfig : DatabaseConfig)
    : VectorDatabase * option error :=
  let db1 :=
    if (0 <? SaveInterval newConfig)%Z then
      {| index := index db; vectors := vectors db;
         db_config :=
           {| Dimensions := Dimensions (db_config db);
              ConfigMetric := ConfigMetric (db_config db);
              IndexType := IndexType (db_config db);
              HNSW := HNSW (db_config db);
              PersistPath := PersistPath (db_config db);
              AutoSave := AutoSave (db_config db);
              SaveInterval := SaveInterval newConfig |};
         db_dimensions := db_dimensions db; persistPath := persistPath db;
         autoSave := autoSave db; saveInterval := SaveInterval newConfig |}
    else db in
  let db2 :=
    if negb (String.eqb (PersistPath newConfig) "") then
      {| index := index db1; vectors := vectors db1;
         db_config :=
           {| Dimensions := Dimensions (db_config db1);
              ConfigMetric := ConfigMetric (db_config db1);
              IndexType := IndexType (db_config db1);
              HNSW := HNSW (db_config db1);
              PersistPath := PersistPath newConfig;
              AutoSave := AutoSave (db_config db1);
              SaveInterval := SaveInterval (db_config db1) |};
         db_dimensions := db_dimensions db1; persistPath := PersistPath newConfig;
         autoSave := autoSave db1; saveInterval := saveInterval db1 |}
    else db1 in
  ({| index := index db2; vectors := vectors db2;
      db_config :=
        {| Dimensions := Dimensions (db_config db2);
           ConfigMetric := ConfigMetric (db_config db2);
           IndexType := IndexType (db_config db2);
           HNSW := HNSW (db_config db2);
           PersistPath := PersistPath (db_config db2);
           AutoSave := AutoSave newConfig;
           SaveInterval := SaveInterval (db_config db2) |};
      db_dimensions := db_dimensions db2; persistPath := persistPath db2;
      autoSave := AutoSave newConfig; saveInterval := saveInterval db2 |}, None).

Lemma UpdateConfig_fields (db : VectorDatabase) (c : DatabaseConfig) :
  exists path auto interval,
    (UpdateConfig db c).1 =
      {| index := index db; vectors := vectors db;
         db_config :=
           {| Dimensions := Dimensions (db_config db);
              ConfigMetric := ConfigMetric (db_config db);
              IndexType := IndexType (db_config db);
              HNSW := HNSW (db_config db);
              PersistPath := path.1; AutoSave := auto; SaveInterval := interval.1 |};
         db_dimensions := db_dimensions db; persistPath := path.2;
         autoSave := auto; saveInterval := interval.2 |} /\
    path = (if negb (String.eqb (PersistPath c) "")
            then (PersistPath c, PersistPath c)
            else (PersistPath (db_config db), persistPath db)) /\
    auto = AutoSave c /\
    interval = (if (0 <? SaveInterval c)%Z then (SaveInterval c, SaveInterval c)
                else (SaveInterval (db_config db), saveInterval db)).
Proof.
  eexists _, _, _. split; [| split; [reflexivity | split; reflexivity]].
  unfold UpdateConfig. destruct (0 <? SaveInterval c)%Z, (negb _); by destruct db as [? ? []].
Qed.





(** ** estimateMemoryUsage *)

Definition int_mul (a b : Z) : Z := int64_wrap (a * b).

Definition estimateMemoryUsage (db : VectorDatabase) : Z :=
  let count := int64_wrap (Z.of_nat (size (vectors db))) in
  let vectorMemory := int_mul (int_mul count (int64_wrap (db_dimensions db))) 4 in
  let metadataMemory := int_mul count 100 in
  let indexOverhead := Z.quot vectorMemory 2 in
  int_add (int_add vectorMemory metadataMemory) indexOverhead.

Lemma int64_wrap_small (z : Z) : is_int z -> int64_wrap z = z.
Proof. unfold is_int, int64_wrap. intros H. rewrite Z.mod_small; lia. Qed.

(** As long as the result fits [int64], the estimate is
    [count * (6 * dimensions + 100)] bytes. *)
Theorem estimateMemoryUsage_closed_form (db : VectorDatabase) :
  (0 <= db_dimensions db)%Z ->
  (Z.of_nat (size (vectors db)) * (6 * db_dimensions db + 100) < 2 ^ 63)%Z ->
  estimateMemoryUsage db =
    (Z.of_nat (size (vectors db)) * (6 * db_dimensions db + 100))%Z.
Proof.
  intros Hd Hfit. unfold estimateMemoryUsage, int_mul, int_add.
  set (n := Z.of_nat (size (vectors db))) in *. set (D := db_dimensions db) in *.
  assert (Hn : (0 <= n)%Z) by (unfold n; lia). clearbody n D.
  destruct (decide (n = 0%Z)) as [-> | Hpos].
  { rewrite (int64_wrap_small 0) by (unfold is_int; lia).
    rewrite !Z.mul_0_l. reflexivity. }
  assert (HnD : (0 <= n * D)%Z) by nia.
  assert (Hsmall : (n * D * 6 + n * 100 < 2 ^ 63)%Z) by lia.
  rewrite (int64_wrap_small n) by (unfold is_int; nia).
  rewrite (int64_wrap_small D) by (unfold is_int; nia).
  rewrite (int64_wrap_small (n * D)) by (unfold is_int; nia).
  rewrite (int64_wrap_small (n * D * 4)) by (unfold is_int; nia).
  rewrite (int64_wrap_small (n * 100)) by (unfold is_int; nia).
  replace (n * D * 4 ÷ 2)%Z with (n * D * 2)%Z.
  2: { replace (n * D * 4)%Z with (n * D * 2 * 2)%Z by lia. by rewrite Z.quot_mul by lia. }
  rewrite (int64_wrap_small (n * D * 4 + n * 100)) by (unfold is_int; nia).
  rewrite int64_wrap_small by (unfold is_int; nia). lia.
Qed.

(** ** internal/types.go: the statistics tracker *)

Record DatabaseStats : Type := mkDatabaseStats {
  VectorCount : Z;
  StatsDimensions : Z;
  StatsIndexType : string;
  SearchRequests : Z;
  InsertRequests : Z;
  DeleteRequests : Z;
  AverageLatency : Z;
  LastUpdated : Z;
  MemoryUsage : Z
}.

(** [now] is the reading of the clock that the method takes. *)
Definition NewStatsTracker (now : Z) : DatabaseStats :=
  {| VectorCount := 0; StatsDimensions := 0; StatsIndexType := "hnsw";
     SearchRequests := 0; InsertRequests := 0; DeleteRequests := 0;
     AverageLatency := 0; LastUpdated := now; MemoryUsage := 0 |}.

Definition UpdateLatency (s : DatabaseStats) (latency now : Z) : DatabaseStats :=
  {| VectorCount := VectorCount s; StatsDimensions := StatsDimensions s;
     StatsIndexType := StatsIndexType s; SearchRequests := SearchRequests s;
     InsertRequests := InsertRequests s; DeleteRequests := DeleteRequests s;
     AverageLatency :=
       if (AverageLatency s =? 0)%Z then latency
       else Z.quot (int_add (AverageLatency s) latency) 2;
     LastUpdated := now; MemoryUsage := MemoryUsage s |}.

(** The calls [UpdateLatency(latency)] for the pairs of a latency and a
    clock reading of [calls], in this order. *)
Definition record_latencies (s : DatabaseStats) (calls : list (Z * Z)) : DatabaseStats :=
  foldl (fun s call => UpdateLatency s call.1 call.2) s calls.

Lemma UpdateLatency_range (s : DatabaseStats) (latency now lo hi : Z) :
  (0 <= lo)%Z -> (hi < 2 ^ 62)%Z -> (lo <= latency <= hi)%Z ->
  (AverageLatency s = 0 \/ lo <= AverageLatency s <= hi)%Z ->
  (lo <= AverageLatency (UpdateLatency s latency now) <= hi)%Z.
Proof.
  intros Hlo Hhi Hl Hs. cbn. destruct (Z.eqb_spec (AverageLatency s) 0) as [| Hne]; [done |].
  destruct Hs as [| Hs]; [done |].
  rewrite int_add_exact by (unfold is_int; lia).
  rewrite Z.quot_div_nonneg by lia.
  split; [apply Z.div_le_lower_bound; lia | apply Z.div_le_upper_bound; lia].
Qed.

(** After one or more calls of [UpdateLatency] on a new tracker, with
    latencies between [lo >= 0] and [hi < 2^62], the average latency of the
    tracker lies between [lo] and [hi]. *)
Theorem AverageLatency_in_range (start : Z) (calls : list (Z * Z)) (lo hi : Z) :
  (0 <= lo)%Z -> (hi < 2 ^ 62)%Z -> calls <> [] ->
  Forall (fun call => lo <= call.1 <= hi)%Z calls ->
  (lo <= AverageLatency (record_latencies (NewStatsTracker start) calls) <= hi)%Z.
Proof.
  intros Hlo Hhi Hne Hall. unfold record_latencies.
  assert (Hgen : forall s,
             (AverageLatency s = 0 \/ lo <= AverageLatency s <= hi)%Z ->
             (lo <= AverageLatency
                      (foldl (fun s call => UpdateLatency s call.1 call.2) s calls) <= hi)%Z).
  { clear start. induction Hall as [| call calls Hcall Hall IH]; [done |].
    intros s Hs. cbn [foldl].
    pose proof (UpdateLatency_range s call.1 call.2 lo hi Hlo Hhi Hcall Hs) as Hstep.
    destruct calls as [| call' calls']; [exact Hstep |].
    apply IH; [done | by right]. }
  apply Hgen. by left.
Qed.

(** ** api/server.go: the handler of GET /vectors *)

Record list_response : Type := mkListResponse {
  resp_vectors : list string;
  resp_offset : Z;
  resp_limit : Z;
  resp_count : Z
}.

(** [offset] and [limit] are what [strconv.Atoi] made of the two query
    parameters (0 for a parameter that is missing or is no number). *)
Definition handleListVectors (db : VectorDatabase) (offset limit : Z)
    : result list_response :=
  let limit := if (limit <=? 0)%Z then 50%Z else limit in
  let limit := if (1000 <? limit)%Z then 1000%Z else limit in
  match DB_List db offset limit with
  | Ok ids => Ok (mkListResponse ids offset limit (len ids))
  | Err e => Err e
  | Crash => Crash
  end.

(** The handler of [GET /vectors] panics exactly when the offset is
    negative; otherwise it answers with a page of at most [limit] ids,
    where [limit] is the parameter brought into the range from 1 to 1000
    (50 when it is not positive). *)
Theorem handleListVectors_outcome (db : VectorDatabase) (offset limit : Z) :
  is_int offset -> is_int limit ->
  (Z.of_nat (size (vectors db)) < 2 ^ 62)%Z ->
  (handleListVectors db offset limit = Crash <-> (offset < 0)%Z) /\
  forall r,
    handleListVectors db offset limit = Ok r ->
    (1 <= resp_limit r <= 1000)%Z /\
    resp_limit r =
      (if (limit <=? 0)%Z then 50 else if (1000 <? limit)%Z then 1000 else limit)%Z /\
    resp_offset r = offset /\
    resp_count r = len (resp_vectors r) /\
    (resp_count r <= resp_limit r)%Z /\
    NoDup (resp_vectors r) /\
    forall id, id ∈ resp_vectors r -> is_Some (vectors db !! id).
Proof.
  intros Ho Hl Hsize. unfold handleListVectors.
  set (l1 := if (limit <=? 0)%Z then 50%Z else limit).
  set (l2 := if (1000 <? l1)%Z then 1000%Z else l1).
  assert (Hl2 : (1 <= l2 <= 1000)%Z).
  { unfold l2, l1.
    destruct (Z.leb_spec limit 0);
      [destruct (Z.ltb_spec 1000 50) | destruct (Z.ltb_spec 1000 limit)]; lia. }
  assert (Hl2' : l2 = (if (limit <=? 0)%Z then 50
                       else if (1000 <? limit)%Z then 1000 else limit)%Z).
  { unfold l2, l1. destruct (Z.leb_spec limit 0); [done |]. done. }
  assert (Hint : is_int l2) by (unfold is_int; lia).
  pose proof (DB_List_crash_iff db offset l2 Ho Hint) as Hcrash.
  split.
  - destruct (DB_List db offset l2) as [ids | e |] eqn:Hlist.
    + split; [done |]. intros Hneg.
      pose proof (proj2 Hcrash ltac:(unfold is_int in Ho; lia)) as Hc. done.
    + split; [done |]. intros Hneg.
      pose proof (proj2 Hcrash ltac:(unfold is_int in Ho; lia)) as Hc. done.
    + split; [| done]. intros _.
      destruct (proj1 Hcrash eq_refl) as [Hlt Hor]. unfold is_int in Ho. lia.
  - intros r. destruct (DB_List db offset l2) as [ids | e |] eqn:Hlist; try done.
    intros [= <-]. cbn.
    destruct (DB_List_Ok db offset l2 ids Ho Hint Hlist) as (Hlen & Hnd & Hin & _).
    repeat split; try done; lia.
Qed.

(** ** The contract of the priority queue *)


(** ** The result of searchLayer *)



(** ** The entry point while nothing is deleted *)

(** The entry point is nil when no id is registered; otherwise it is a
    registered node whose level is [maxLevel], and no registered node has a
    higher level. *)
Definition entry_top (h : HNSWIndex) : Prop :=
  match entryPoint h with
  | None => nodes h = ∅
  | Some e =>
      exists n, mem h !! e = Some n /\ nodes h !! ID n = Some e /\ Level n = maxLevel h
  end /\
  forall x a n, nodes h !! x = Some a -> mem h !! a = Some n -> Level n <= maxLevel h.

Lemma Insert_tail_final (id : string) (vector : list F) (level a : nat) (h : HNSWIndex) :
  match Insert_tail id vector level a h with
  | Ret None h' =>
      exists hm, evolves h hm /\
        ((entryPoint h = None \/ maxLevel hm < level) /\
         h' = set_nodes (set_entry hm (Some a) level) (<[id := a]> (nodes hm)) \/
         is_Some (entryPoint h) /\ level <= maxLevel hm /\
         h' = set_nodes hm (<[id := a]> (nodes hm)))
  | Ret (Some _) _ => False
  | Panic h' => evolves h h'
  end.
Proof.
  unfold Insert_tail. unfold bind at 1, get at 1.
  destruct (entryPoint h) as [e |] eqn:He.
  - unfold bind at 1.
    destruct (descend h vector [Some e] (maxLevel h) level) as [ep |]; cbn [must ret panic];
      [| reflexivity].
    unfold bind at 1.
    pose proof (stable_connect_layers (Some a) vector ep (S (level `min` maxLevel h)) h) as Hc.
    destruct (connect_layers _ _ _ _ h) as [[] hm | hm]; cbn [final] in Hc; [| exact Hc].
    unfold bind at 1, get at 1.
    destruct (Nat.ltb_spec (maxLevel hm) level); cbn; exists hm; (split; [done |]).
    + left. split; [by right | done].
    + right. split; [eauto | done].
  - cbn. exists h. split; [reflexivity |]. left. split; [by left |]. by destruct h.
Qed.

Lemma Insert_entry_top (id : string) (vector : list F) (metadata : Tags) (h : HNSWIndex) :
  wf_index h -> nodes h !! id = None -> entry_top h ->
  entry_top (final (Insert id vector metadata h)).
Proof.
  intros Hw Hid Htop.
  assert (Hev : forall h', evolves h h' ->
                           (forall b n', mem h' !! b = Some n' ->
                                         forall x, nodes h !! x = Some b ->
                                                   exists n, mem h !! b = Some n /\
                                                             Level n' = Level n /\ ID n' = ID n) ->
                           entry_top h').
  { intros h' [Hf He Hl] Hback. destruct Htop as [Hentry Hmax]. unfold entry_top.
    rewrite He, Hl, (fr_nodes _ _ Hf). split.
    - destruct (entryPoint h) as [e |]; [| done].
      destruct Hentry as (n & Hn & Hreg & Hlev).
      destruct (fr_mem _ _ Hf e n Hn) as (n' & Hn' & Hid' & _ & Hlevel & _).
      exists n'. rewrite Hid', Hlevel. done.
    - intros x b n' Hb Hn'. destruct (Hback b n' Hn' x Hb) as (n & Hn & Hlev & _).
      rewrite Hlev. by eapply Hmax. }
  assert (Hback : forall h', evolves h h' ->
            forall b n', mem h' !! b = Some n' -> forall x, nodes h !! x = Some b ->
            exists n, mem h !! b = Some n /\ Level n' = Level n /\ ID n' = ID n).
  { intros h' Hevo b n' Hn' x Hb. destruct (wf_ids _ Hw x b Hb) as (n & Hn & _).
    destruct (fr_mem _ _ (ev_frames _ _ Hevo) b n Hn) as (n2 & Hn2 & Hid' & _ & Hlevel & _).
    exists n. assert (n2 = n') as -> by congruence. done. }
  destruct (decide (len vector = dimensions h)) as [Hdim | Hdim].
  2: { pose proof (Insert_outcome id vector metadata h) as Ho.
       destruct (Insert id vector metadata h) as [[e |] h' | h']; cbn.
       - by destruct Ho as (-> & _).
       - by destruct Ho as (? & _).
       - by destruct Ho as (? & _). }
  destruct (Insert_unfold id vector metadata h Hdim) as (level & r' & _ & ->).
  cbn zeta. set (a := fresh (dom (mem (set_rng h r')))).
  set (h2 := set_mem _ _).
  assert (Ha : mem h !! a = None) by apply (fresh_unallocated (set_rng h r')).
  assert (H02 : evolves h h2).
  { etrans; [apply (evolves_set_rng h r') |]. by apply evolves_alloc. }
  assert (Hnew : mem h2 !! a = Some (mkHNSWNode id vector (replicate (S level) ∅) level metadata))
    by apply lookup_insert_eq.
  pose proof (Insert_tail_final id vector level a h2) as Ht.
  destruct (Insert_tail id vector level a h2) as [[e |] h' | h']; cbn [final]; [done | |].
  2: { apply Hev; [by etrans | apply Hback; by etrans]. }
  destruct Ht as (hm & H2m & Hcase).
  assert (H0m : evolves h hm) by (by etrans).
  destruct (fr_mem _ _ (ev_frames _ _ H2m) a _ Hnew) as (na & Hna & Hida & _ & Hleva & _).
  cbn in Hida, Hleva.
  pose proof (Hev hm H0m (Hback hm H0m)) as [Hentry Hmax].
  assert (Hnodes : nodes hm = nodes h) by apply (fr_nodes _ _ (ev_frames _ _ H0m)).
  assert (Hentry2 : entryPoint h2 = entryPoint h) by apply (ev_entryPoint _ _ H02).
  assert (Hentrym : entryPoint hm = entryPoint h) by apply (ev_entryPoint _ _ H0m).
  assert (Hreg : forall x b n, <[id := a]> (nodes hm) !! x = Some b -> mem hm !! b = Some n ->
                               x = id /\ b = a /\ n = na \/
                               x <> id /\ nodes hm !! x = Some b).
  { intros x b n Hb Hn. destruct (decide (x = id)) as [-> | Hne].
    - rewrite lookup_insert_eq in Hb. left. split; [done |]. split; congruence.
    - rewrite lookup_insert_ne in Hb by done. right. done. }
  destruct Hcase as [[Hwhy ->] | (Hsome & Hle & ->)]; unfold entry_top; cbn.
  - split.
    + exists na. rewrite Hida. split; [done |]. split; [apply lookup_insert_eq | done].
    + intros x b n Hb Hn. destruct (Hreg x b n Hb Hn) as [(_ & _ & ->) | [_ Hold]]; [lia |].
      specialize (Hmax x b n Hold Hn).
      destruct Hwhy as [Hnone | Hlt]; [| lia].
      rewrite Hentry2 in Hnone. rewrite Hentrym, Hnone in Hentry.
      rewrite Hentry in Hold. by rewrite lookup_empty in Hold.
  - split.
    + destruct (entryPoint hm) as [e |] eqn:Hem.
      * destruct Hentry as (n & Hn & Hr & Hl). exists n. split; [done |]. split; [| done].
        rewrite lookup_insert_ne; [done |]. intros Heq. rewrite <- Heq, Hnodes in Hr. congruence.
      * rewrite Hentrym, <- Hentry2 in Hem. destruct Hsome as [? ?]. congruence.
    + intros x b n Hb Hn. destruct (Hreg x b n Hb Hn) as [(_ & _ & ->) | [_ Hold]]; [lia |].
      by eapply Hmax.
Qed.

(** ** No panic while nothing is deleted

    In a graph whose connection sets name registered ids only, whose entry
    point is registered and whose caps [M] and [MaxM0] are not negative,
    [searchLayer], [selectNeighbors], [addConnection] and
    [pruneConnections] find every node they look up, and [Insert] leaves
    such a graph again. *)

(** A reference to an allocated node that is registered under its id. *)
Definition registered_ref (h : HNSWIndex) (r : ref) : Prop :=
  exists b n, r = Some b /\ mem h !! b = Some n /\ nodes h !! ID n = Some b.

(** The connection sets of layer [lv] of the registered nodes name
    registered ids. *)
Definition closed_at (h : HNSWIndex) (lv : nat) : Prop :=
  forall x b n c y,
    nodes h !! x = Some b -> mem h !! b = Some n -> Connections n !! lv = Some c ->
    y ∈ c -> is_Some (nodes h !! y).

Definition ids_registered (h : HNSWIndex) (q : PriorityQueue) : Prop :=
  forall it, it ∈ q -> is_Some (nodes h !! ItemID it).

Lemma ids_registered_Push (h : HNSWIndex) (q : PriorityQueue) (x : PriorityQueueItem) :
  ids_registered h q -> is_Some (nodes h !! ItemID x) -> ids_registered h (heap_Push q x).
Proof. intros Hq Hx it [Hit | ->]%elem_of_heap_Push; [by apply Hq | done]. Qed.

Lemma ids_registered_Pop (h : HNSWIndex) (q q' : PriorityQueue) (x : PriorityQueueItem) :
  ids_registered h q -> heap_Pop q = Some (x, q') ->
  is_Some (nodes h !! ItemID x) /\ ids_registered h q'.
Proof.
  intros Hq Hp%heap_Pop_Permutation. split.
  - apply Hq. rewrite Hp. by left.
  - intros it Hit. apply Hq. rewrite Hp. by right.
Qed.

Lemma heap_Push_nonempty (q : PriorityQueue) (x : PriorityQueueItem) : heap_Push q x <> [].
Proof.
  intros Hnil. pose proof (heap_Push_length q x) as Hlen. rewrite Hnil in Hlen. done.
Qed.

Lemma registered_node (h : HNSWIndex) (x : string) :
  wf_index h -> is_Some (nodes h !! x) ->
  exists b n, nodes h !! x = Some b /\ mem h !! b = Some n /\ ID n = x.
Proof.
  intros Hw [b Hb]. destruct (wf_ids _ Hw x b Hb) as (n & Hn & Hid). by exists b, n.
Qed.

Record search_ok (h : HNSWIndex) (st : search_state) : Prop := mkSearchOk {
  so_candidates : ids_registered h (candidates st);
  so_w : ids_registered h (w st);
  so_nonempty : candidates st <> [] -> w st <> []
}.

Lemma init_entries_total (h : HNSWIndex) (query : list F) (eps : list ref) :
  Forall (registered_ref h) eps ->
  forall st, search_ok h st ->
             exists st', init_entries h query eps st = Some st' /\ search_ok h st'.
Proof.
  induction 1 as [| ep eps (b & n & -> & Hn & Hreg) _ IH]; intros st [Hc Hw Hne];
    cbn [init_entries].
  { by exists st. }
  cbn [deref]. rewrite Hn. apply IH. split; cbn.
  - apply ids_registered_Push; [done |]. cbn. eauto.
  - apply ids_registered_Push; [done |]. cbn. eauto.
  - intros _. apply heap_Push_nonempty.
Qed.

Lemma visit_neighbor_total (h : HNSWIndex) (query : list F) (ef : Z) (st : search_state)
    (neighborID : string) :
  wf_index h -> is_Some (nodes h !! neighborID) -> search_ok h st -> w st <> [] ->
  exists st', visit_neighbor h query ef st neighborID = Some st' /\
              search_ok h st' /\ w st' <> [].
Proof.
  intros Hw Hid [Hc Hwq Hne] Hpos. unfold visit_neighbor.
  destruct (decide _) as [| Hnew]; [by exists st |].
  destruct (registered_node h neighborID Hw Hid) as (b & n & Hb & Hn & _).
  unfold node_of. rewrite Hb. cbn [deref]. rewrite Hn.
  destruct (_ <? _)%Z.
  { eexists. split; [done |]. split; [split |]; cbn.
    - by apply ids_registered_Push.
    - by apply ids_registered_Push.
    - intros _. apply heap_Push_nonempty.
    - apply heap_Push_nonempty. }
  destruct (w st) as [| furthest q] eqn:Hq; [done |]. cbn [lookup list_lookup].
  destruct (flt _ _).
  - destruct (heap_Pop_cons (furthest :: q) ltac:(done)) as (item & w' & Hp).
    rewrite Hp. destruct (ids_registered_Pop h _ _ _ Hwq Hp) as [_ Hw'].
    eexists. split; [done |]. split; [split |]; cbn.
    + by apply ids_registered_Push.
    + by apply ids_registered_Push.
    + intros _. apply heap_Push_nonempty.
    + apply heap_Push_nonempty.
  - eexists. split; [done |]. split; [split |]; cbn; try done.
    all: by rewrite Hq.
Qed.

Lemma visit_all_total (h : HNSWIndex) (query : list F) (ef : Z) (ids : list string) :
  wf_index h -> Forall (fun id => is_Some (nodes h !! id)) ids ->
  forall st, search_ok h st -> w st <> [] ->
             exists st', visit_all h query ef st ids = Some st' /\
                         search_ok h st' /\ w st' <> [].
Proof.
  intros Hw. induction 1 as [| id ids Hid _ IH]; intros st Hst Hpos; cbn [visit_all].
  { by exists st. }
  destruct (visit_neighbor_total h query ef st id Hw Hid Hst Hpos) as (st1 & -> & Hst1 & Hpos1).
  by apply IH.
Qed.

Lemma search_loop_total (fuel : nat) (h : HNSWIndex) (query : list F) (ef : Z) (level : nat) :
  wf_index h -> closed_at h level ->
  forall st, search_ok h st ->
             exists st', search_loop fuel h query ef level st = Some st' /\
                         ids_registered h (w st').
Proof.
  intros Hw Hclosed. induction fuel as [| fuel IH]; intros st Hst; cbn [search_loop].
  { exists st. split; [done | apply Hst]. }
  destruct (heap_Pop (candidates st)) as [[current rest] |] eqn:Hp.
  2: { exists st. split; [done | apply Hst]. }
  destruct Hst as [Hc Hwq Hne].
  destruct (ids_registered_Pop h _ _ _ Hc Hp) as [Hcur Hrest].
  assert (Hpos : w st <> []).
  { apply Hne. intros Hnil. rewrite Hnil in Hp. done. }
  assert (Hstop : exists b, should_stop ef (w st) current = Some b).
  { unfold should_stop. destruct (_ <=? _)%Z; [| eauto].
    destruct (w st) as [| furthest q]; [done |]. cbn. eauto. }
  destruct Hstop as [[] ->].
  { eexists. split; [done |]. done. }
  destruct (registered_node h (ItemID current) Hw Hcur) as (b & n & Hb & Hn & _).
  unfold node_of. rewrite Hb. cbn [deref]. rewrite Hn.
  assert (Hst1 : search_ok h {| visited := visited st; candidates := rest; w := w st |})
    by (by split).
  destruct (Connections n !! level) as [conns |] eqn:Hconns; [| by apply IH].
  destruct (visit_all_total h query ef (iter conns) Hw) with (st := mkSearch (visited st) rest (w st))
    as (st2 & -> & Hst2 & _); [| done | done | by apply IH].
  apply Forall_forall. intros y Hy%iter_elem.
  by apply (Hclosed (ItemID current) b n conns y).
Qed.

Lemma searchLayer_total (h : HNSWIndex) (query : list F) (eps : list ref) (ef : Z)
    (level : nat) :
  wf_index h -> closed_at h level -> Forall (registered_ref h) eps ->
  exists refs, searchLayer h query eps ef level = Some refs /\
               Forall (registered_ref h) refs.
Proof.
  intros Hw Hclosed Heps. unfold searchLayer.
  destruct (init_entries_total h query eps Heps (mkSearch ∅ [] []))
    as (st0 & -> & Hst0).
  { split; cbn; try done; intros it Hit; by apply elem_of_nil in Hit. }
  destruct (search_loop_total (search_fuel h eps) h query ef level Hw Hclosed st0 Hst0)
    as (st & -> & Hreg).
  eexists. split; [done |].
  pose proof (drain_drain_items (length (w st)) h (w st) []) as Hd. cbn [map] in Hd.
  rewrite Hd. apply Forall_forall. intros r (it & -> & Hit)%list_elem_of_fmap.
  rewrite drain_items_Permutation, app_nil_r in Hit by done.
  destruct (registered_node h (ItemID it) Hw (Hreg it Hit)) as (b & n & Hb & Hn & Hid).
  exists b, n. unfold ref_of. rewrite Hid. done.
Qed.

Lemma descend_total (h : HNSWIndex) (query : list F) (currentLevel level : nat) :
  wf_index h -> (forall lv, closed_at h lv) ->
  forall ep, Forall (registered_ref h) ep ->
             exists ep', descend h query ep currentLevel level = Some ep' /\
                         Forall (registered_ref h) ep'.
Proof.
  intros Hw Hclosed. induction currentLevel as [| below IH]; intros ep Hep; cbn [descend].
  { by exists ep. }
  destruct (level <? S below)%nat; [| by exists ep].
  destruct (searchLayer_total h query ep 1 (S below) Hw (Hclosed _) Hep) as (ep1 & -> & Hep1).
  by apply IH.
Qed.

Lemma distances_of_total (h : HNSWIndex) (query : list F) (cands : list ref) :
  Forall (registered_ref h) cands -> is_Some (distances_of h query cands).
Proof.
  induction 1 as [| c cands (b & n & -> & Hn & _) _ [ds IH]]; cbn [distances_of]; [eauto |].
  cbn [deref]. rewrite Hn, IH. eauto.
Qed.

Lemma selectNeighbors_total (h : HNSWIndex) (cands : list ref) (m : Z) (query : list F)
    (level : nat) :
  (0 <= m)%Z -> Forall (registered_ref h) cands ->
  exists selected, selectNeighbors h cands m query level = Some selected /\
                   Forall (registered_ref h) selected.
Proof.
  intros Hm Hc.
  assert (Hsome : is_Some (selectNeighbors h cands m query level)).
  { unfold selectNeighbors. destruct (_ <=? _)%Z; [eauto |].
    destruct (Z.ltb_spec m 0); [lia |].
    destruct (distances_of_total h query cands Hc) as [ds ->]. eauto. }
  destruct Hsome as [selected Hsel]. exists selected. split; [done |].
  destruct (selectNeighbors_basic _ _ _ _ _ _ Hsel) as (_ & _ & Hin).
  rewrite Forall_forall in Hc. apply Forall_forall. intros s Hs. by apply Hc, Hin.
Qed.


(** *** Pruning only takes ids away *)

Definition subsets (h h' : HNSWIndex) : Prop :=
  forall b lv c', conn h' b lv = Some c' -> exists c, conn h b lv = Some c /\ c' ⊆ c.

#[local] Instance subsets_preorder : PreOrder subsets.
Proof.
  split.
  - intros h b lv c Hc. by exists c.
  - intros h1 h2 h3 H12 H23 b lv c3 H3. destruct (H23 b lv c3 H3) as (c2 & H2 & Hs2).
    destruct (H12 b lv c2 H2) as (c1 & H1 & Hs1). exists c1. split; [done |].
    by etrans.
Qed.

Lemma subsets_same (h h' : HNSWIndex) : mem h' = mem h -> subsets h h'.
Proof. intros Hm b lv c'. unfold conn. rewrite Hm. by exists c'. Qed.

Lemma subsets_remove (h : HNSWIndex) (a : nat) (n : HNSWNode) (level : nat)
    (c : gset string) (x : string) :
  mem h !! a = Some n -> Connections n !! level = Some c ->
  subsets h
    (set_mem h (<[a := set_connections n (<[level := c ∖ {[x]}]> (Connections n))]> (mem h))).
Proof.
  intros Ha Hc b lv c'.
  destruct (decide (b = a /\ lv = level)) as [[-> ->] | Hne].
  - rewrite conn_write_eq by eauto. intros [= <-]. exists c. split.
    + unfold conn. by rewrite Ha.
    + by intros y [Hy _]%elem_of_difference.
  - rewrite conn_write_ne by (done || (destruct (decide (b = a)); [right | left]; tauto)).
    by exists c'.
Qed.

Lemma pruneConnections_subsets (node : ref) (level : nat) (h : HNSWIndex) :
  subsets h (final (pruneConnections node level h)).
Proof.
  apply (closed_pruneConnections subsets).
  - intros; by apply subsets_same.
  - intros; by apply subsets_remove.
Qed.

(** *** The links of the new node *)

Definition caps_ok (cfg : HNSWConfig) : Prop := (0 <= M cfg)%Z /\ (0 <= MaxM0 cfg)%Z.

(** While the new node at [a], which carries [id], is linked: the ids in
    the sets of the registered nodes and of the new node are registered,
    but for [id] itself in sets of the layers from [n] on. *)
Record linkable (id : string) (a n : nat) (h : HNSWIndex) : Prop := mkLinkable {
  la_wf : wf_index h;
  la_caps : caps_ok (config h);
  la_unregistered : forall x, nodes h !! x <> Some a;
  la_node : exists na, mem h !! a = Some na /\ ID na = id;
  la_closed : forall b lv c y,
    b = a \/ (exists x, nodes h !! x = Some b) -> conn h b lv = Some c -> y ∈ c ->
    is_Some (nodes h !! y) \/ y = id /\ n <= lv
}.

Lemma linkable_weaken (id : string) (a n n' : nat) (h : HNSWIndex) :
  n' <= n -> linkable id a n h -> linkable id a n' h.
Proof.
  intros Hn [Hw Hcaps Hu Hna Hcl]. split; try done.
  intros b lv c y Hb Hc Hy. destruct (Hcl b lv c y Hb Hc Hy) as [? | [? ?]]; [by left |].
  right. split; [done | lia].
Qed.

Lemma linkable_closed_at (id : string) (a n lv : nat) (h : HNSWIndex) :
  linkable id a n h -> lv < n -> closed_at h lv.
Proof.
  intros Hl Hlv x b nb c y Hb Hnb Hc Hy.
  destruct (la_closed _ _ _ _ Hl b lv c y) as [? | [_ ?]]; [eauto | | done | done | lia].
  unfold conn. by rewrite Hnb.
Qed.

Lemma registered_ref_evolves (h h' : HNSWIndex) (r : ref) :
  evolves h h' -> registered_ref h r -> registered_ref h' r.
Proof.
  intros He (b & n & -> & Hn & Hreg).
  destruct (fr_mem _ _ (ev_frames _ _ He) b n Hn) as (n' & Hn' & Hid & _).
  exists b, n'. split; [done |]. split; [done |].
  by rewrite (fr_nodes _ _ (ev_frames _ _ He)), Hid.
Qed.

Lemma stable_link_body (a cl : nat) (neighbor : ref) : respects evolves (link_body a cl neighbor).
Proof.
  unfold link_body. apply ev_bind; [apply stable_addConnection |]. intros _.
  apply ev_bind; [apply stable_addConnection |]. intros _. apply stable_pruneConnections.
Qed.

(** The three steps of [link_body] when the caps are not negative: the
    set of [a] gains the id of the neighbour, the set of the neighbour gains
    the id of [a], and the set of the neighbour is pruned. *)
Lemma link_body_run (id : string) (a cl b : nat) (na n2 : HNSWNode) (h : HNSWIndex) :
  caps_ok (config h) -> mem h !! a = Some na -> ID na = id -> mem h !! b = Some n2 ->
  b <> a ->
  exists h1 h2 h3,
    link_body a cl (Some b) h = Ret tt h3 /\
    pruneConnections (Some b) cl h2 = Ret tt h3 /\
    same_but a cl h h1 /\ same_but b cl h1 h2 /\ same_but b cl h2 h3 /\
    conn h1 a cl = (fun c => {[ID n2]} ∪ c) <$> conn h a cl /\
    conn h2 b cl = (fun c => {[id]} ∪ c) <$> conn h1 b cl.
Proof.
  intros Hcaps Hna Hida Hn2 Hba.
  unfold link_body. unfold bind at 1. rewrite addConnection_outcome, Hna.
  assert (Hstep1 : exists h1,
             match Connections na !! cl with
             | Some c =>
                 match deref h (Some b) with
                 | Some n2 =>
                     Ret tt (set_mem h
                               (<[a := set_connections na
                                         (<[cl := {[ID n2]} ∪ c]> (Connections na))]> (mem h)))
                 | None => Panic h
                 end
             | None => Ret tt h
             end = Ret tt h1 /\
             same_but a cl h h1 /\
             (exists na1, mem h1 !! a = Some na1 /\ ID na1 = id) /\
             mem h1 !! b = Some n2 /\
             conn h1 a cl = (fun c => {[ID n2]} ∪ c) <$> conn h a cl).
  { assert (Hconn : conn h a cl = Connections na !! cl) by (unfold conn; by rewrite Hna).
    rewrite Hconn. destruct (Connections na !! cl) as [c |] eqn:Hc.
    - cbn [deref]. rewrite Hn2. eexists. split; [done |].
      split; [by apply same_but_write |]. split; [| split].
      + cbn. rewrite lookup_insert_eq. eauto.
      + cbn. by rewrite lookup_insert_ne.
      + rewrite conn_write_eq by eauto. done.
    - exists h. split; [done |]. split; [apply same_but_refl |].
      split; [eauto |]. split; [done |]. by rewrite Hconn. }
  destruct Hstep1 as (h1 & -> & Hsb1 & (na1 & Hna1 & Hida1) & Hb1 & Hc1).
  unfold bind at 1. rewrite addConnection_outcome, Hb1.
  assert (Hstep2 : exists h2,
             match Connections n2 !! cl with
             | Some c =>
                 match deref h1 (Some a) with
                 | Some na1 =>
                     Ret tt (set_mem h1
                               (<[b := set_connections n2
                                         (<[cl := {[ID na1]} ∪ c]> (Connections n2))]> (mem h1)))
                 | None => Panic h1
                 end
             | None => Ret tt h1
             end = Ret tt h2 /\
             same_but b cl h1 h2 /\
             conn h2 b cl = (fun c => {[id]} ∪ c) <$> conn h1 b cl).
  { assert (Hconn : conn h1 b cl = Connections n2 !! cl) by (unfold conn; by rewrite Hb1).
    rewrite Hconn. destruct (Connections n2 !! cl) as [c |] eqn:Hc.
    - cbn [deref]. rewrite Hna1. eexists. split; [done |].
      split; [by apply same_but_write |].
      rewrite conn_write_eq by eauto. cbn. by rewrite Hida1.
    - exists h1. split; [done |]. split; [apply same_but_refl |]. by rewrite Hconn. }
  destruct Hstep2 as (h2 & -> & Hsb2 & Hc2).
  destruct (proj2 (sb_alloc _ _ _ _ Hsb2 b)) as [nb Hnb]; [eauto |].
  assert (Hcfg2 : config h2 = config h).
  { rewrite (sb_config _ _ _ _ Hsb2), (sb_config _ _ _ _ Hsb1). done. }
  destruct (pruneConnections_spec b cl h2 nb Hnb) as (h3 & Hrun3 & Hsb3 & _).
  { rewrite Hcfg2. unfold maxConn_of. destruct Hcaps. by destruct (_ =? _)%nat. }
  exists h1, h2, h3. done.
Qed.

(** The sets of the layers other than [cl] are the same. *)
Definition other_layers (cl : nat) (h h' : HNSWIndex) : Prop :=
  forall b lv, lv <> cl -> conn h' b lv = conn h b lv.

Lemma other_layers_refl (cl : nat) (h : HNSWIndex) : other_layers cl h h.
Proof. by intros b lv _. Qed.

Lemma other_layers_trans (cl : nat) (h1 h2 h3 : HNSWIndex) :
  other_layers cl h1 h2 -> other_layers cl h2 h3 -> other_layers cl h1 h3.
Proof. intros H12 H23 b lv Hlv. rewrite (H23 b lv Hlv). by apply H12. Qed.

Lemma link_body_total (id : string) (a cl : nat) (neighbor : ref) (h : HNSWIndex) :
  linkable id a cl h -> registered_ref h neighbor ->
  exists h', link_body a cl neighbor h = Ret tt h' /\ linkable id a cl h' /\ evolves h h' /\
             other_layers cl h h'.
Proof.
  intros Hl (b & n2 & -> & Hn2 & Hreg).
  pose proof (stable_link_body a cl (Some b) h) as Hev.
  destruct Hl as [Hw Hcaps Hunreg (na & Hna & Hida) Hclosed].
  assert (Hba : b <> a) by (intros ->; by apply (Hunreg (ID n2))).
  destruct (link_body_run id a cl b na n2 h Hcaps Hna Hida Hn2 Hba)
    as (h1 & h2 & h3 & Hrun & Hprune & Hsb1 & Hsb2 & Hsb3 & Hc1 & Hc2).
  pose proof (pruneConnections_subsets (Some b) cl h2) as Hsub. rewrite Hprune in Hsub.
  cbn [final] in Hsub.
  rewrite Hrun in Hev. cbn [final] in Hev.
  exists h3. split; [done |].
  pose proof (fr_nodes _ _ (ev_frames _ _ Hev)) as Hnodes.
  assert (Hframe : forall b' lv', b' <> a \/ lv' <> cl -> b' <> b \/ lv' <> cl ->
                                conn h3 b' lv' = conn h b' lv').
  { intros b' lv' H1 H2. rewrite (sb_conn _ _ _ _ Hsb3 b' lv' H2).
    rewrite (sb_conn _ _ _ _ Hsb2 b' lv' H2). apply (sb_conn _ _ _ _ Hsb1 b' lv' H1). }
  split; [| split; [done |]].
  2: { intros b' lv' Hlv. apply Hframe; by right. }
  split.
  - by eapply wf_evolves.
  - by rewrite (fr_config _ _ (ev_frames _ _ Hev)).
  - intros x. rewrite Hnodes. apply Hunreg.
  - destruct (fr_mem _ _ (ev_frames _ _ Hev) a na Hna) as (na3 & Hna3 & Hid3 & _).
    exists na3. split; [done | congruence].
  - intros b' lv' c' y Hown Hc' Hy. rewrite Hnodes in Hown |- *.
    destruct (decide (b' = a /\ lv' = cl)) as [[-> ->] | Hnea].
    { rewrite (sb_conn _ _ _ _ Hsb3 a cl ltac:(by left)) in Hc'.
      rewrite (sb_conn _ _ _ _ Hsb2 a cl ltac:(by left)) in Hc'.
      rewrite Hc1 in Hc'. apply fmap_Some in Hc' as (c & Hc & ->).
      apply elem_of_union in Hy as [->%elem_of_singleton | Hy]; [left; eauto |].
      by apply (Hclosed a cl c y). }
    destruct (decide (b' = b /\ lv' = cl)) as [[-> ->] | Hneb].
    { destruct (Hsub b cl c' Hc') as (c2 & Hc2' & Hsub').
      rewrite Hc2 in Hc2'. apply fmap_Some in Hc2' as (c & Hc & ->).
      rewrite (sb_conn _ _ _ _ Hsb1 b cl ltac:(by left)) in Hc.
      apply Hsub' in Hy.
      apply elem_of_union in Hy as [->%elem_of_singleton | Hy]; [right; split; [done | lia] |].
      by apply (Hclosed b cl c y). }
    rewrite Hframe in Hc'.
    + by apply (Hclosed b' lv' c' y).
    + destruct (decide (b' = a)); [right | left]; tauto.
    + destruct (decide (b' = b)); [right | left]; tauto.
Qed.

Lemma link_all_total (id : string) (a cl : nat) (l : list ref) :
  forall h, linkable id a cl h -> Forall (registered_ref h) l ->
            exists h', forM l (link_body a cl) h = Ret tt h' /\ linkable id a cl h' /\
                       evolves h h' /\ other_layers cl h h'.
Proof.
  induction l as [| nb l IH]; intros h Hl Hall; cbn [forM].
  { exists h. split; [done |]. split; [done |]. split; [reflexivity | apply other_layers_refl]. }
  apply Forall_cons in Hall as [Hnb Hall]. unfold bind.
  destruct (link_body_total id a cl nb h Hl Hnb) as (h1 & -> & Hl1 & He1 & Ho1).
  destruct (IH h1 Hl1) as (h' & Hrun & Hl' & He' & Ho').
  { eapply Forall_impl; [exact Hall |]. intros r. by apply registered_ref_evolves. }
  exists h'. split; [done |]. split; [done |].
  split; [by etrans | by eapply other_layers_trans].
Qed.

Lemma connect_layers_total (id : string) (a : nat) (vector : list F) (n : nat) :
  forall (ep : list ref) (h : HNSWIndex),
    linkable id a n h -> Forall (registered_ref h) ep ->
    exists h', connect_layers (Some a) vector ep n h = Ret tt h' /\ linkable id a 0 h' /\
               evolves h h'.
Proof.
  induction n as [| cl IH]; intros ep h Hl Hep; cbn [connect_layers].
  { exists h. split; [done |]. split; [done | reflexivity]. }
  unfold bind at 1, get at 1. unfold bind at 1.
  destruct (searchLayer_total h vector ep (EfConstruction (config h)) cl (la_wf _ _ _ _ Hl))
    as (cands & -> & Hcands); [by eapply linkable_closed_at; [exact Hl | lia] | done |].
  cbn [must ret]. unfold bind at 1.
  destruct (selectNeighbors_total h cands
              (if (cl =? 0)%nat then MaxM0 (config h) else M (config h)) vector cl)
    as (selected & -> & Hsel); [| done |].
  { destruct (la_caps _ _ _ _ Hl). by destruct (_ =? _)%nat. }
  cbn [must ret]. unfold bind at 1.
  change (forM selected _ h) with (forM selected (link_body a cl) h).
  destruct (link_all_total id a cl selected h) as (h1 & -> & Hl1 & He1 & _);
    [eapply linkable_weaken; [| exact Hl]; lia | done |].
  destruct (IH selected h1 Hl1) as (h' & Hrun & Hl' & He').
  { eapply Forall_impl; [exact Hsel |]. intros r. by apply registered_ref_evolves. }
  exists h'. split; [done |]. split; [done | by etrans].
Qed.

(** *** Insert and Search on a sound index *)

(** The id table names allocated nodes, the entry point is a registered
    node of the highest level, and the connection sets of the registered
    nodes name registered ids. *)
Record sound (h : HNSWIndex) : Prop := mkSound {
  sd_wf : wf_index h;
  sd_entry : entry_top h;
  sd_closed : forall lv, closed_at h lv
}.

Lemma sound_entry_ref (h : HNSWIndex) (e : nat) :
  sound h -> entryPoint h = Some e -> registered_ref h (Some e).
Proof.
  intros [_ [Hentry _] _] He. rewrite He in Hentry.
  destruct Hentry as (n & Hn & Hreg & _). by exists e, n.
Qed.

Lemma Insert_tail_total (id : string) (vector : list F) (level a : nat) (h : HNSWIndex) :
  linkable id a (S level) h -> (forall lv, closed_at h lv) ->
  (forall e, entryPoint h = Some e -> registered_ref h (Some e)) ->
  nodes h !! id = None ->
  exists h', Insert_tail id vector level a h = Ret None h' /\
             forall lv, closed_at h' lv.
Proof.
  intros Hl Hclosed Hentry Hid.
  assert (Hfinal : forall hm ns, linkable id a 0 hm -> evolves h hm ->
                                 ns = <[id := a]> (nodes hm) ->
                                 forall h', mem h' = mem hm -> nodes h' = ns ->
                                            forall lv, closed_at h' lv).
  { intros hm ns Hlm Hev -> h' Hmem Hnodes lv x b nb c y. rewrite Hmem, !Hnodes.
    intros Hb Hnb Hc Hy.
    assert (Hown : b = a \/ exists x', nodes hm !! x' = Some b).
    { destruct (decide (x = id)) as [-> | Hne].
      - rewrite lookup_insert_eq in Hb. left. congruence.
      - rewrite lookup_insert_ne in Hb by done. right. eauto. }
    destruct (la_closed _ _ _ _ Hlm b lv c y Hown) as [[b' Hy'] | [-> _]];
      [unfold conn; by rewrite Hnb | done | |].
    - destruct (decide (y = id)) as [-> | Hne]; [rewrite lookup_insert_eq; eauto |].
      rewrite lookup_insert_ne by done. eauto.
    - rewrite lookup_insert_eq. eauto. }
  unfold Insert_tail. unfold bind at 1, get at 1.
  destruct (entryPoint h) as [e |] eqn:He.
  - unfold bind at 1.
    destruct (descend_total h vector (maxLevel h) level (la_wf _ _ _ _ Hl) Hclosed [Some e])
      as (ep & -> & Hep); [constructor; [by apply Hentry | constructor] |].
    cbn [must ret]. unfold bind at 1.
    destruct (connect_layers_total id a vector (S (level `min` maxLevel h)) ep h)
      as (hm & -> & Hlm & Hev); [eapply linkable_weaken; [| exact Hl]; lia | done |].
    unfold bind at 1, get at 1.
    destruct (maxLevel hm <? level)%nat; cbn; eexists; (split; [reflexivity |]);
      by eapply (Hfinal hm).
  - cbn. eexists. split; [reflexivity |].
    eapply (Hfinal h); [eapply linkable_weaken; [| exact Hl]; lia | reflexivity | done ..].
Qed.

Lemma Insert_total (id : string) (vector : list F) (metadata : Tags) (h : HNSWIndex) :
  sound h -> caps_ok (config h) -> nodes h !! id = None ->
  exists e h', Insert id vector metadata h = Ret e h' /\ sound h'.
Proof.
  intros Hs Hcaps Hid.
  pose proof (Insert_wf id vector metadata h (sd_wf _ Hs) Hid) as Hwf'.
  pose proof (Insert_entry_top id vector metadata h (sd_wf _ Hs) Hid (sd_entry _ Hs)) as Htop'.
  destruct (decide (len vector = dimensions h)) as [Hdim | Hdim].
  2: { unfold Insert, bind, get. destruct (Z.eqb_spec (len vector) (dimensions h)); [done |].
       cbn. eauto. }
  destruct (Insert_unfold id vector metadata h Hdim) as (level & r' & _ & Heq).
  cbn zeta in Heq. rewrite Heq in Hwf', Htop' |- *. clear Heq.
  set (a := fresh (dom (mem (set_rng h r')))) in *.
  set (h2 := set_mem _ _) in *.
  assert (Ha : mem h !! a = None) by apply (fresh_unallocated (set_rng h r')).
  assert (H02 : evolves h h2).
  { etrans; [apply (evolves_set_rng h r') |]. by apply evolves_alloc. }
  assert (Hold : forall b, b <> a -> mem h2 !! b = mem h !! b).
  { intros b Hb. cbn. by rewrite lookup_insert_ne. }
  assert (Hreg : forall x b, nodes h !! x = Some b -> b <> a).
  { intros x b Hb ->. destruct (wf_ids _ (sd_wf _ Hs) x a Hb) as (n & Hn & _). congruence. }
  assert (Hclosed2 : forall lv, closed_at h2 lv).
  { intros lv x b nb c y Hb Hnb. rewrite (Hold b (Hreg x b Hb)) in Hnb.
    by apply (sd_closed _ Hs lv x b nb c y). }
  destruct (Insert_tail_total id vector level a h2) as (h' & Hrun & Hclosed').
  - split.
    + by eapply wf_evolves; [apply Hs |].
    + done.
    + intros x Hx. by apply (Hreg x a Hx).
    + eexists. split; [apply lookup_insert_eq | done].
    + intros b lv c y Hown Hc Hy. left.
      destruct (decide (b = a)) as [-> | Hne].
      * unfold conn, h2 in Hc. cbn [mem set_mem set_rng] in Hc.
        rewrite lookup_insert_eq in Hc. cbn [Connections] in Hc.
        apply lookup_replicate in Hc as [-> _]. by apply elem_of_empty in Hy.
      * destruct Hown as [-> | [x Hx]]; [done |].
        unfold conn in Hc. destruct (mem h2 !! b) as [nb |] eqn:Hnb; [| done].
        by apply (Hclosed2 lv x b nb c y).
  - done.
  - intros e He. apply (registered_ref_evolves h h2 _ H02).
    apply sound_entry_ref; [done |]. by rewrite <- (ev_entryPoint _ _ H02).
  - done.
  - rewrite Hrun in Hwf', Htop' |- *. cbn [final] in Hwf', Htop'.
    exists None, h'. done.
Qed.


(** *** The states reached without Delete *)

Definition is_delete (o : facade_op) : bool :=
  match o with
  | OpDelete _ => true
  | _ => false
  end.

(** The states that calls of the facade other than [Delete] reach from a
    new database. *)
Inductive grown : VectorDatabase -> Prop :=
| grown_new (cfg : DatabaseConfig) (seed : Rand) (db : VectorDatabase) :
    NewVectorDatabase cfg seed = Ok db -> grown db
| grown_step (db : VectorDatabase) (o : facade_op) :
    grown db -> in_contract db o -> is_delete o = false -> grown (apply_op db o).

Lemma grown_reachable (db : VectorDatabase) : grown db -> reachable db.
Proof.
  induction 1 as [cfg seed db Hnew | db o _ IH Hc _].
  - by eapply reachable_new.
  - by apply reachable_step.
Qed.

Lemma grown_index_ind (P : HNSWIndex -> Prop) :
  (forall cfg dims metric seed, P (NewHNSWIndex cfg dims metric seed)) ->
  (forall h id vector metadata,
     wf_index h -> nodes h !! id = None -> P h -> P (final (Insert id vector metadata h))) ->
  forall db, grown db -> P (index db).
Proof.
  intros Hnew Hins db Hg.
  induction Hg as [cfg seed db Hnew' | db o Hg HP Hc Hnd].
  - unfold NewVectorDatabase in Hnew'. destruct (_ <=? _)%Z; [done |].
    injection Hnew' as <-. apply Hnew.
  - pose proof (reachable_inv db (grown_reachable db Hg)) as Hinv.
    destruct o as [req now | | id | | | | file now]; cbn [apply_op]; try done.
    + unfold DB_Insert. destruct (negb _); [done |].
      destruct (vectors db !! VecID (ReqVector req)) eqn:Hv; [done |].
      pose proof (Hins (index db) (VecID (ReqVector req)) (Data (ReqVector req))
                    (ReqMetadata req) (inv_wf _ Hinv)
                    (keys_agree_None db _ (inv_keys _ Hinv) Hv) HP) as HP'.
      by destruct (Insert _ _ _ (index db)) as [[e |] h' | h'].
    + cbn in Hc. destruct file as [| | | doc]; try done. cbn [DB_Load].
      apply load_entries_index_ind; [done | done | apply iter_NoDup | | done].
      intros x _. by rewrite Hc, lookup_empty.
Qed.

Lemma sound_new (cfg : HNSWConfig) (dims : Z) (metric : DistanceMetric) (seed : Rand) :
  sound (NewHNSWIndex cfg dims metric seed).
Proof.
  split.
  - split; cbn; [| done]. intros x a Ha. by rewrite lookup_empty in Ha.
  - split; cbn; [done |]. intros x a n Ha. by rewrite lookup_empty in Ha.
  - intros lv x b n c y Hb. cbn in Hb. by rewrite lookup_empty in Hb.
Qed.

Lemma grown_sound (db : VectorDatabase) :
  grown db -> caps_ok (config (index db)) -> sound (index db).
Proof.
  revert db. apply (grown_index_ind (fun h => caps_ok (config h) -> sound h)).
  - intros cfg dims metric seed _. apply sound_new.
  - intros h id vector metadata Hw Hid IH Hcaps.
    destruct (Insert_settings id vector metadata h) as (Hcfg & _).
    rewrite Hcfg in Hcaps.
    destruct (Insert_total id vector metadata h (IH Hcaps) Hcaps Hid) as (e & h' & -> & Hs).
    exact Hs.
Qed.

Lemma grown_entry_top (db : VectorDatabase) : grown db -> entry_top (index db).
Proof.
  revert db. apply grown_index_ind.
  - intros cfg dims metric seed. apply (sd_entry _ (sound_new cfg dims metric seed)).
  - intros h id vector metadata. apply Insert_entry_top.
Qed.

(** In every state reached without [Delete], the entry point is nil
    exactly when no vector is stored; otherwise it is the node of a stored
    vector and its level is [maxLevel]; and no node of a stored vector has a
    level above [maxLevel]. *)
Theorem insert_only_entry_point (db : VectorDatabase) :
  grown db ->
  (entryPoint (index db) = None <-> vectors db = ∅) /\
  (forall e, entryPoint (index db) = Some e ->
             exists n, mem (index db) !! e = Some n /\
                       nodes (index db) !! ID n = Some e /\
                       is_Some (vectors db !! ID n) /\
                       Level n = maxLevel (index db)) /\
  (forall x a n, nodes (index db) !! x = Some a -> mem (index db) !! a = Some n ->
                 Level n <= maxLevel (index db)).
Proof.
  intros Hg. pose proof (grown_entry_top db Hg) as [Htop Hmax].
  pose proof (reachable_inv db (grown_reachable db Hg)) as [Hk _].
  unfold keys_agree in Hk.
  split; [| split; [| done]].
  - split.
    + intros He. rewrite He in Htop. apply dom_empty_iff_L. by rewrite Hk, Htop, dom_empty_L.
    + intros Hv. destruct (entryPoint (index db)) as [e |]; [| done].
      destruct Htop as (n & _ & Hreg & _).
      assert (Hin : ID n ∈ dom (vectors db)) by (rewrite Hk; apply elem_of_dom; eauto).
      rewrite Hv, dom_empty_L in Hin. by apply elem_of_empty in Hin.
  - intros e He. rewrite He in Htop. destruct Htop as (n & Hn & Hreg & Hlev).
    exists n. split; [done |]. split; [done |]. split; [| done].
    apply elem_of_dom. rewrite Hk. apply elem_of_dom. eauto.
Qed.

(** In every state reached without [Delete], when the caps [M] and [MaxM0]
    of the configuration are not negative, every id in a connection set of
    a stored vector's node is the id of a stored vector. *)
Theorem insert_only_neighbours_stored (db : VectorDatabase) (x y : string) (a lv : nat)
    (n : HNSWNode) (c : gset string) :
  grown db -> (0 <= M (HNSW (db_config db)))%Z -> (0 <= MaxM0 (HNSW (db_config db)))%Z ->
  nodes (index db) !! x = Some a -> mem (index db) !! a = Some n ->
  Connections n !! lv = Some c -> y ∈ c ->
  is_Some (vectors db !! y) /\ exists r, DB_Get db y = Ok r.
Proof.
  intros Hg HM HM0 Ha Hn Hc Hy.
  pose proof (grown_reachable db Hg) as Hr.
  pose proof (reachable_inv db Hr) as [Hk Hw].
  assert (Hs : sound (index db)).
  { apply grown_sound; [done |]. rewrite (sa_config _ (reachable_settings_agree db Hr)).
    by split. }
  pose proof (sd_closed _ Hs lv x a n c y Ha Hn Hc Hy) as Hreg.
  assert (Hv : is_Some (vectors db !! y)).
  { apply elem_of_dom. rewrite Hk. by apply elem_of_dom. }
  split; [done |]. unfold DB_Get. destruct Hv as [meta ->].
  destruct (registered_node _ y Hw Hreg) as (b & nb & -> & -> & _). eauto.
Qed.



(** ** Small databases are searched exactly

    While an index built by insertions has at most [MaxM0 + 1] and at most
    [EfConstruction + 1] nodes, with [M >= 1], every node is linked with
    every other node on layer 0; a search whose [ef] is not below the number
    of nodes then ranks all of them. *)











(** *** Insert keeps layer 0 complete while there is room *)



















(** *** Search ranks all the nodes *)



(** ** api/server.go: the handlers of /vectors, /vectors/{id} and /search

    A request is given by its method, by the segments of its path and by
    what the JSON decoder made of its body ([None] when it failed); the
    answer is what [writeJSON] or [writeError] is called with, the encoder
    being taken to succeed.  The text that [fmt.Sprintf] makes of an error
    is kept as the prefix and the error. *)

Definition StatusOK : Z := 200.
Definition StatusCreated : Z := 201.
Definition StatusBadRequest : Z := 400.
Definition StatusMethodNotAllowed : Z := 405.
Definition StatusInternalServerError : Z := 500.

Record SearchRequest : Type := mkSearchRequest {
  QueryVector : list F;
  QueryK : Z;
  QueryMetric : DistanceMetric;
  Filters : Tags
}.

Inductive reply : Type :=
| ErrorReply (message : string) (cause : option error) (status : Z)
| InsertedReply (id : string)
| VectorReply (vector : VectorRec) (metadata : VectorMetadata)
| DeletedReply (id : string)
| ResultsReply (results : list SearchResult) (query : SearchRequest) (count : Z)
| ListReply (page : list_response).

Definition status_of (r : reply) : Z :=
  match r with
  | ErrorReply _ _ status => status
  | InsertedReply _ => StatusCreated
  | _ => StatusOK
  end.

Definition handleInsertVector (db : VectorDatabase) (body : option InsertRequest) (now : Z)
    : db_outcome reply :=
  match body with
  | None => Returned (ErrorReply "Invalid JSON: " None StatusBadRequest) db
  | Some req =>
      if String.eqb (VecID (ReqVector req)) "" then
        Returned (ErrorReply "Vector ID is required" None StatusBadRequest) db
      else if (len (Data (ReqVector req)) =? 0)%Z then
        Returned (ErrorReply "Vector data is required" None StatusBadRequest) db
      else
        match DB_Insert db req now with
        | Aborted db' => Aborted db'
        | Returned (Some err) db' =>
            let status :=
              match err with
              | DimensionMismatchError _ _ => StatusBadRequest
              | _ => StatusInternalServerError
              end in
            Returned (ErrorReply "Failed to insert vector: " (Some err) status) db'
        | Returned None db' => Returned (InsertedReply (VecID (ReqVector req))) db'
        end
  end.




Definition handleSearch (db : VectorDatabase) (method : string) (body : option SearchRequest)
    : result reply :=
  if negb (String.eqb method "POST") then
    Ok (ErrorReply "Method not allowed" None StatusMethodNotAllowed)
  else
    match body with
    | None => Ok (ErrorReply "Invalid JSON: " None StatusBadRequest)
    | Some req =>
        if (len (QueryVector req) =? 0)%Z then
          Ok (ErrorReply "Query vector is required" None StatusBadRequest)
        else
          let req :=
            if (QueryK req <=? 0)%Z
            then mkSearchRequest (QueryVector req) 10 (QueryMetric req) (Filters req)
            else req in
          match DB_Search db (QueryVector req) (QueryK req) with
          | Crash => Crash
          | Err err =>
              let status :=
                match err with
                | DimensionMismatchError _ _ => StatusBadRequest
                | _ => StatusInternalServerError
                end in
              Ok (ErrorReply "Search failed: " (Some err) status)
          | Ok results => Ok (ResultsReply results req (len results))
          end
    end.

(** The body of an insertion that the handler or the facade refuses as
    malformed. *)
Definition bad_insert (db : VectorDatabase) (body : option InsertRequest) : Prop :=
  match body with
  | None => True
  | Some req =>
      VecID (ReqVector req) = "" \/ Data (ReqVector req) = [] \/
      len (Data (ReqVector req)) <> db_dimensions db
  end.

Definition names_stored (db : VectorDatabase) (body : option InsertRequest) : Prop :=
  match body with
  | None => False
  | Some req => is_Some (vectors db !! VecID (ReqVector req))
  end.

Lemma DB_Insert_error (db db1 : VectorDatabase) (req : InsertRequest) (now : Z)
    (err : error) :
  reachable db -> DB_Insert db req now = Returned (Some err) db1 ->
  db1 = db /\
  (err = DimensionMismatchError (db_dimensions db) (len (Data (ReqVector req))) /\
   len (Data (ReqVector req)) <> db_dimensions db \/
   err = Errorf ("vector with ID " +:+ VecID (ReqVector req) +:+ " already exists") /\
   len (Data (ReqVector req)) = db_dimensions db /\
   is_Some (vectors db !! VecID (ReqVector req))).
Proof.
  intros Hr. pose proof (reachable_dims db Hr) as Hdims. unfold DB_Insert.
  destruct (Z.eqb_spec (len (Data (ReqVector req))) (db_dimensions db)) as [Hdim | Hdim];
    cbn [negb].
  2: { intros [= <- <-]. split; [done |]. by left. }
  destruct (vectors db !! VecID (ReqVector req)) as [meta |] eqn:Hv.
  { intros [= <- <-]. split; [done |]. right. eauto. }
  pose proof (Insert_outcome (VecID (ReqVector req)) (Data (ReqVector req)) (ReqMetadata req)
                (index db)) as Ho.
  destruct (Insert _ _ _ (index db)) as [[e |] h' | h']; [| done | done].
  destruct Ho as (_ & _ & Hbad). rewrite Hdims in Hbad. done.
Qed.

Lemma DB_Insert_success (db db' : VectorDatabase) (req : InsertRequest) (now : Z) :
  DB_Insert db req now = Returned None db' ->
  len (Data (ReqVector req)) = db_dimensions db /\ vectors db !! VecID (ReqVector req) = None.
Proof.
  unfold DB_Insert.
  destruct (Z.eqb_spec (len (Data (ReqVector req))) (db_dimensions db)) as [Hdim | Hdim];
    cbn [negb]; [| done].
  by destruct (vectors db !! VecID (ReqVector req)).
Qed.

Lemma handleInsertVector_cases (db db' : VectorDatabase) (body : option InsertRequest)
    (now : Z) (r : reply) :
  reachable db -> handleInsertVector db body now = Returned r db' ->
  bad_insert db body /\ status_of r = StatusBadRequest /\ db' = db \/
  ~ bad_insert db body /\ names_stored db body /\
    status_of r = StatusInternalServerError /\ db' = db \/
  ~ bad_insert db body /\ ~ names_stored db body /\ status_of r = StatusCreated /\
    exists req, body = Some req /\
                DB_Get db' (VecID (ReqVector req)) =
                  Ok (mkVector (VecID (ReqVector req)) (Data (ReqVector req)),
                      mkVectorMetadata now (ReqMetadata req)).
Proof.
  intros Hr. unfold handleInsertVector.
  destruct body as [req |]; cbn [bad_insert names_stored].
  2: { intros [= <- <-]. by left. }
  destruct (String.eqb_spec (VecID (ReqVector req)) "") as [Hid | Hid].
  { intros [= <- <-]. left. split; [by left | done]. }
  destruct (Z.eqb_spec (len (Data (ReqVector req))) 0) as [Hlen | Hlen].
  { intros [= <- <-]. left. split; [| done]. right. left.
    destruct (Data (ReqVector req)); [done | unfold len in Hlen; cbn in Hlen; lia]. }
  assert (Hdata : Data (ReqVector req) <> []).
  { intros Hnil. rewrite Hnil in Hlen. done. }
  destruct (DB_Insert db req now) as [[err |] db1 | db1] eqn:Hins; [| | done].
  - destruct (DB_Insert_error db db1 req now err Hr Hins)
      as [-> [[-> Hdim] | (-> & Hdim & Hstored)]]; intros [= <- <-].
    + left. split; [| done]. by right; right.
    + right. left. split; [| done]. by intros [? | [? | ?]].
  - destruct (DB_Insert_success db db1 req now Hins) as [Hdim Hv].
    intros [= <- <-]. right. right. split; [by intros [? | [? | ?]] |].
    split; [rewrite Hv; by intros [? [=]] |]. split; [done |].
    exists req. split; [done |]. apply stored_Get. apply (DB_Insert_stored db db1 req now Hins).
Qed.

(** In a state that calls of the facade reach from a new database, an
    answer of [POST /vectors] has status 400 exactly when the body is
    malformed (no JSON, no id, no data, or data of the wrong dimension),
    status 500 exactly when it is well-formed and names a stored id, and
    status 201 otherwise; with 400 and 500 the database is unchanged, with
    201 [Get] returns the vector of the request. *)
Theorem handleInsertVector_status (db db' : VectorDatabase) (body : option InsertRequest)
    (now : Z) (r : reply) :
  reachable db -> handleInsertVector db body now = Returned r db' ->
  (status_of r = StatusBadRequest <-> bad_insert db body) /\
  (status_of r = StatusInternalServerError <->
     ~ bad_insert db body /\ names_stored db body) /\
  (status_of r = StatusCreated <-> ~ bad_insert db body /\ ~ names_stored db body) /\
  (status_of r <> StatusCreated -> db' = db) /\
  (status_of r = StatusCreated ->
   exists req, body = Some req /\
               DB_Get db' (VecID (ReqVector req)) =
                 Ok (mkVector (VecID (ReqVector req)) (Data (ReqVector req)),
                     mkVectorMetadata now (ReqMetadata req))).
Proof.
  intros Hr Hh. unfold StatusBadRequest, StatusInternalServerError, StatusCreated.
  destruct (handleInsertVector_cases db db' body now r Hr Hh)
    as [(Hbad & Hst & Hdb) | [(Hgood & Hstored & Hst & Hdb) | (Hgood & Hnew & Hst & Hget)]];
    rewrite Hst; unfold StatusBadRequest, StatusInternalServerError, StatusCreated.
  - split; [tauto |]. split; [split; [lia | tauto] |]. split; [split; [lia | tauto] |].
    split; [done | lia].
  - split; [split; [lia | tauto] |]. split; [tauto |]. split; [split; [lia | tauto] |].
    split; [done | lia].
  - split; [split; [lia | tauto] |]. split; [split; [lia | tauto] |]. split; [tauto |].
    split; [lia | done].
Qed.




(** ** Save, then Load

    [vectors.json] as [Load] reads it after [Save] wrote it.  The encoder
    writes an entry as an object with the vector as an array of numbers and
    the metadata as an object with the creation time and, unless there are
    none ([omitempty]), the tags; the decoder reads numbers as float64.
    The conversion of a float32 to float64 is exact.  What the decoder
    returns for an id and for a map of tags that the encoder wrote is
    given by [recode_id] and [recode_tags] (the encoder replaces bytes that
    are no UTF-8). *)

Section RoundTrip.

Variable float64 : F -> Q.
Variable format_time : Z -> string.
Variable recode_id : string -> string.
Variable recode_tags : gmap string json -> gmap string json.
Hypothesis float32_float64 : forall x, float32 (float64 x) = x.










End RoundTrip.

(** ** The statistics that the facade keeps

    The tracker of a database is carried beside it.  Each method of the
    tracker stores a reading of the clock in [LastUpdated]; the readings of
    one call of the facade are given with the call. *)

Definition UpdateVectorCount (s : DatabaseStats) (count now : Z) : DatabaseStats :=
  {| VectorCount := count; StatsDimensions := StatsDimensions s;
     StatsIndexType := StatsIndexType s; SearchRequests := SearchRequests s;
     InsertRequests := InsertRequests s; DeleteRequests := DeleteRequests s;
     AverageLatency := AverageLatency s; LastUpdated := now;
     MemoryUsage := MemoryUsage s |}.

Definition UpdateDimensions (s : DatabaseStats) (dims now : Z) : DatabaseStats :=
  {| VectorCount := VectorCount s; StatsDimensions := dims;
     StatsIndexType := StatsIndexType s; SearchRequests := SearchRequests s;
     InsertRequests := InsertRequests s; DeleteRequests := DeleteRequests s;
     AverageLatency := AverageLatency s; LastUpdated := now;
     MemoryUsage := MemoryUsage s |}.

Definition IncrementSearchRequests (s : DatabaseStats) (now : Z) : DatabaseStats :=
  {| VectorCount := VectorCount s; StatsDimensions := StatsDimensions s;
     StatsIndexType := StatsIndexType s; SearchRequests := int_add (SearchRequests s) 1;
     InsertRequests := InsertRequests s; DeleteRequests := DeleteRequests s;
     AverageLatency := AverageLatency s; LastUpdated := now;
     MemoryUsage := MemoryUsage s |}.

Definition IncrementInsertRequests (s : DatabaseStats) (now : Z) : DatabaseStats :=
  {| VectorCount := VectorCount s; StatsDimensions := StatsDimensions s;
     StatsIndexType := StatsIndexType s; SearchRequests := SearchRequests s;
     InsertRequests := int_add (InsertRequests s) 1; DeleteRequests := DeleteRequests s;
     AverageLatency := AverageLatency s; LastUpdated := now;
     MemoryUsage := MemoryUsage s |}.

Definition IncrementDeleteRequests (s : DatabaseStats) (now : Z) : DatabaseStats :=
  {| VectorCount := VectorCount s; StatsDimensions := StatsDimensions s;
     StatsIndexType := StatsIndexType s; SearchRequests := SearchRequests s;
     InsertRequests := InsertRequests s; DeleteRequests := int_add (DeleteRequests s) 1;
     AverageLatency := AverageLatency s; LastUpdated := now;
     MemoryUsage := MemoryUsage s |}.

(** The clock of one call: the reading that [UpdateVectorCount] stores,
    the duration [time.Since(start)], and the readings that [UpdateLatency]
    and the [Increment...] method store. *)
Record readings : Type := mkReadings {
  at_count : Z;
  since_start : Z;
  at_latency : Z;
  at_request : Z
}.

(** The deferred function of [Insert], [Search] and [Delete]; it runs when
    the method returns and when it panics. *)
Definition deferred (s : DatabaseStats) (increment : DatabaseStats -> Z -> DatabaseStats)
    (r : readings) : DatabaseStats :=
  increment (UpdateLatency s (since_start r) (at_latency r)) (at_request r).

(** [UpdateVectorCount(int64(len(db.vectors)))], the last statement before
    [return nil] of [Insert], [Delete] and [Load]. *)
Definition count_on_nil (s : DatabaseStats) (out : db_outcome (option error)) (r : readings)
    : DatabaseStats :=
  match out with
  | Returned None db' => UpdateVectorCount s (Z.of_nat (size (vectors db'))) (at_count r)
  | _ => s
  end.

(** The tracker after the call [o] on [db]. *)
Definition stats_after (s : DatabaseStats) (db : VectorDatabase) (o : facade_op) (r : readings)
    : DatabaseStats :=
  match o with
  | OpInsert req now =>
      deferred (count_on_nil s (DB_Insert db req now) r) IncrementInsertRequests r
  | OpSearch _ _ => deferred s IncrementSearchRequests r
  | OpDelete id => deferred (count_on_nil s (DB_Delete db id) r) IncrementDeleteRequests r
  | OpLoad FileAbsent _ => s
  | OpLoad file now => count_on_nil s (DB_Load db file now) r
  | OpGet _ | OpList _ _ | OpSave _ => s
  end.

(** [GetStats] of the facade: the tracker's record with the estimate of
    the memory in use (the statistics of the index are computed and
    dropped). *)
Definition DB_GetStats (s : DatabaseStats) (db : VectorDatabase) : DatabaseStats :=
  {| VectorCount := VectorCount s; StatsDimensions := StatsDimensions s;
     StatsIndexType := StatsIndexType s; SearchRequests := SearchRequests s;
     InsertRequests := InsertRequests s; DeleteRequests := DeleteRequests s;
     AverageLatency := AverageLatency s; LastUpdated := LastUpdated s;
     MemoryUsage := estimateMemoryUsage db |}.

(** A [Load] that parsed its file went through all the entries and
    returned nil. *)
Definition load_completes (db : VectorDatabase) (o : facade_op) : Prop :=
  match o with
  | OpLoad (FileParsed doc) now => exists db', DB_Load db (FileParsed doc) now = Returned None db'
  | _ => True
  end.

(** The trackers and databases that calls of the facade reach from a new
    database with its new tracker, each [Load] of a parsed file returning
    nil. *)
Inductive tracked : DatabaseStats -> VectorDatabase -> Prop :=
| tracked_new (cfg : DatabaseConfig) (seed : Rand) (db : VectorDatabase) (start now : Z) :
    NewVectorDatabase cfg seed = Ok db ->
    tracked (UpdateDimensions (NewStatsTracker start) (Dimensions cfg) now) db
| tracked_step (s : DatabaseStats) (db : VectorDatabase) (o : facade_op) (r : readings) :
    tracked s db -> load_completes db o ->
    tracked (stats_after s db o r) (apply_op db o).

(** What a call that does not return nil leaves of the stored vectors. *)
Definition keeps_unless_nil (db : VectorDatabase) (out : db_outcome (option error)) : Prop :=
  match out with
  | Returned None _ => True
  | _ => vectors (db_final out) = vectors db
  end.

Lemma count_on_nil_counts (s : DatabaseStats) (db : VectorDatabase)
    (out : db_outcome (option error)) (r : readings) :
  VectorCount s = Z.of_nat (size (vectors db)) -> keeps_unless_nil db out ->
  VectorCount (count_on_nil s out r) = Z.of_nat (size (vectors (db_final out))).
Proof.
  intros Hs Hsame. destruct out as [[e |] db' | db']; cbn in *; by rewrite ?Hsame.
Qed.

Lemma DB_Insert_keeps (db : VectorDatabase) (req : InsertRequest) (now : Z) :
  keeps_unless_nil db (DB_Insert db req now).
Proof.
  unfold DB_Insert. destruct (negb _); [done |].
  destruct (vectors db !! _); [done |].
  by destruct (Insert _ _ _ (index db)) as [[e |] h' | h'].
Qed.

Lemma DB_Delete_keeps (db : VectorDatabase) (id : string) :
  keeps_unless_nil db (DB_Delete db id).
Proof.
  unfold DB_Delete. destruct (vectors db !! _); [| done].
  by destruct (Delete _ (index db)) as [[e |] h' | h'].
Qed.

Lemma stats_after_fields (s : DatabaseStats) (db : VectorDatabase) (o : facade_op)
    (r : readings) :
  StatsDimensions (stats_after s db o r) = StatsDimensions s /\
  StatsIndexType (stats_after s db o r) = StatsIndexType s.
Proof.
  destruct o as [req now | | id | | | | file now]; cbn; try done.
  - by destruct (DB_Insert db req now) as [[e |] db' | db'].
  - by destruct (DB_Delete db id) as [[e |] db' | db'].
  - destruct file as [| | | doc]; cbn; try done.
    by destruct (load_entries _ _ _ _) as [[e |] db' | db'].
Qed.

Lemma stats_after_count (s : DatabaseStats) (db : VectorDatabase) (o : facade_op)
    (r : readings) :
  VectorCount s = Z.of_nat (size (vectors db)) -> load_completes db o ->
  VectorCount (stats_after s db o r) = Z.of_nat (size (vectors (apply_op db o))).
Proof.
  intros Hs Hload. destruct o as [req now | | id | | | | file now]; cbn [stats_after apply_op];
    try done.
  - unfold deferred. cbn [VectorCount IncrementInsertRequests UpdateLatency].
    apply (count_on_nil_counts s db); [done | apply DB_Insert_keeps].
  - unfold deferred. cbn [VectorCount IncrementDeleteRequests UpdateLatency].
    apply (count_on_nil_counts s db); [done | apply DB_Delete_keeps].
  - destruct file as [| | | doc]; try done.
    cbn [load_completes] in Hload. destruct Hload as [db' Hload].
    apply (count_on_nil_counts s db); [done |]. by rewrite Hload.
Qed.

Lemma tracked_counts (s : DatabaseStats) (db : VectorDatabase) :
  tracked s db ->
  VectorCount s = Z.of_nat (size (vectors db)) /\
  StatsDimensions s = db_dimensions db /\
  StatsIndexType s = "hnsw".
Proof.
  induction 1 as [cfg seed db start now Hnew | s db o r _ (Hc & Hd & Ht) Hload].
  - unfold NewVectorDatabase in Hnew. destruct (_ <=? _)%Z; [done |].
    injection Hnew as <-. cbn. by rewrite map_size_empty.
  - destruct (stats_after_fields s db o r) as [-> ->].
    split; [by apply stats_after_count |]. split; [| done].
    destruct (apply_op_facade db o) as (h' & vs & -> & _). done.
Qed.

(** After any calls of the facade on a new database in which each [Load]
    of a parsed file returned nil, [GetStats] reports the number of stored
    vectors as [VectorCount], the dimension of the database as
    [Dimensions], ["hnsw"] as [IndexType] and the estimate of
    [estimateMemoryUsage] as [MemoryUsage]: also after calls that returned
    an error or panicked. *)
Theorem GetStats_counts_stored_vectors (s : DatabaseStats) (db : VectorDatabase) :
  tracked s db ->
  VectorCount (DB_GetStats s db) = Z.of_nat (size (vectors db)) /\
  StatsDimensions (DB_GetStats s db) = db_dimensions db /\
  StatsIndexType (DB_GetStats s db) = "hnsw" /\
  MemoryUsage (DB_GetStats s db) = estimateMemoryUsage db.
Proof.
  intros (Hc & Hd & Ht)%tracked_counts. cbn. done.
Qed.
End Order.

End Model.

Arguments Ret {F A} a h.
Arguments Panic {F A} h.
Arguments Ok {A} a.
Arguments Err {A} e.
Arguments Crash {A}.
Arguments Returned {F A} a db.
Arguments Aborted {F A} db.

Open Scope Z_scope.

(** * Runs of the model

    The model is run on vectors with integer coordinates under the
    Manhattan distance, for which float32 arithmetic is exact: the carrier
    is [Z], the comparison [Z.ltb], the negation [Z.opp].  Maps are walked
    in the order of [elements]. *)

Fixpoint ManhattanDistanceScore (a b : list Z) : Z :=
  match a, b with
  | x :: a', y :: b' => (Z.abs (x - y) + ManhattanDistanceScore a' b')%Z
  | _, _ => 0%Z
  end.

Definition zdist (a b : list Z) (metric : DistanceMetric) : Z :=
  ManhattanDistanceScore a b.

Definition zfloat32 (x : Q) : Z := Qfloor x.

Definition ziter (s : gset string) : list string := elements s.

Definition zInsert := @Insert Z Z.ltb Z.opp zdist ziter.
Definition zDelete := @Delete Z ziter.
Definition zSearch := @Search Z Z.ltb Z.opp zdist ziter.
Definition zDB_Insert := @DB_Insert Z Z.ltb Z.opp zdist ziter.
Definition zDB_Search := @DB_Search Z Z.ltb Z.opp zdist ziter.
Definition zDB_Get := @DB_Get Z.
Definition zapply_op := @apply_op Z Z.ltb Z.opp zdist zfloat32 ziter.

(** A draw of [2^62] is the float [0.5], above the default multiplier:
    the node gets level 0.  A draw of [0] is below it: one more level. *)
Definition half : Z := (2 ^ 62)%Z.

(** Thirty-four points on a line. *)
Definition points : list (string * list Z) :=
    [("v00", [0]); ("v01", [1]); ("v02", [2]); ("v03", [3]); ("v04", [4]); ("v05", [5]);
     ("v06", [6]); ("v07", [7]); ("v08", [8]); ("v09", [9]); ("v10", [10]); ("v11",
     [11]); ("v12", [12]); ("v13", [13]); ("v14", [14]); ("v15", [15]); ("v16", [16]);
     ("v17", [17]); ("v18", [18]); ("v19", [19]); ("v20", [20]); ("v21", [21]); ("v22",
     [22]); ("v23", [23]); ("v24", [24]); ("v25", [25]); ("v26", [26]); ("v27", [27]);
     ("v28", [28]); ("v29", [29]); ("v30", [30]); ("v31", [31]); ("v32", [32]); ("v33",
     [33])].

(** Successive insertions into the index; [None] if one does not return
    [nil]. *)
Fixpoint insert_all (h : HNSWIndex) (l : list (string * list Z)) : option HNSWIndex :=
  match l with
  | [] => Some h
  | (id, v) :: l' =>
      match zInsert id v None h with
      | Ret None h' => insert_all h' l'
      | _ => None
      end
  end.

(** [B] is in the layer-[k] set of the node registered as [A]. *)
Definition linked (h : HNSWIndex (F := Z)) (A B : string) (k : nat) : bool :=
  match node_of h A with
  | Some n =>
      match Connections n !! k with
      | Some c => bool_decide (B ∈ c)
      | None => false
      end
  | None => false
  end.

Definition new_index (cfg : HNSWConfig) (seed : Rand) : HNSWIndex (F := Z) :=
  NewHNSWIndex cfg 1 ManhattanDistance seed.

Definition tiny_config : HNSWConfig :=
  {| M := 1; EfConstruction := 200; EfSearch := 50; MaxM := 1; MaxM0 := 1;
     Ml := Ml DefaultHNSWConfig |}.

(** After the points [pts] are inserted one after the other into a new
    index, [B] is in the layer-0 set of [A] and [A] is not in that of [B]. *)
Definition asymmetric_after (cfg : HNSWConfig) (seed : Rand)
    (pts : list (string * list Z)) (A B : string) : bool :=
  match insert_all (new_index cfg seed) pts with
  | Some h => linked h A B 0 && negb (linked h B A 0)
  | None => false
  end.

(** C1: pruning removes an edge from one side only.  With the default
    configuration, after the 34 points are inserted (all at level 0) the
    node ["v15"] has been pruned to 32 neighbours and has lost ["v17"],
    while ["v17"] still lists ["v15"].  With degree caps of 1 the same
    happens at the third insertion: ["a"] is pruned and loses ["c"], which
    still lists ["a"]. *)
Theorem pruning_breaks_symmetry :
  asymmetric_after DefaultHNSWConfig (replicate 100%nat half) points "v17" "v15" = true /\
  asymmetric_after tiny_config [half; half; half; half]
    [("a", [0]); ("b", [10]); ("c", [3])] "c" "a" = true.
Proof. split; vm_compute; reflexivity. Qed.

(** What the one-sided pruning leads to.  With degree caps of 1, the
    insertion of ["c"] next to ["b"] prunes ["b"], which drops ["a"]; ["a"]
    still lists ["b"].  [Delete] of ["b"] then walks the set of ["b"] only,
    so the id stays in the set of ["a"], and the next search, which starts
    at ["a"], dereferences the missing node. *)
Lemma Search_after_pruning_and_Delete_crashes :
  match insert_all (new_index tiny_config [half; half; half; 1])
          [("a", [0]); ("b", [10]); ("c", [9])] with
  | Some h1 =>
      match zDelete "b" h1 with
      | Ret None h2 => linked h2 "a" "b" 0 = true /\ zSearch h2 [1] 3 50 = Crash
      | _ => False
      end
  | None => False
  end.
Proof. vm_compute. split; reflexivity. Qed.

(** C2: [Delete] of the entry point does not re-establish the entry-point
    invariant.  With two nodes of level 0, deleting the entry point ["a"]
    leaves no entry point although ["b"] remains; with a single node of
    level 1, deleting it leaves it as the entry point of an empty index,
    with [maxLevel] 1. *)
Theorem Delete_entry_point_breaks_invariant :
  (exists h1 h2,
     insert_all (new_index DefaultHNSWConfig [half; half]) [("a", [0]); ("b", [10])] = Some h1 /\
     entryPoint h1 = Some 0%nat /\ nodes h1 !! "a" = Some 0%nat /\
     zDelete "a" h1 = Ret None h2 /\
     entryPoint h2 = None /\ nodes h2 !! "b" = Some 1%nat) /\
  (exists h1 h2,
     insert_all (new_index DefaultHNSWConfig [0; half]) [("a", [0])] = Some h1 /\
     entryPoint h1 = Some 0%nat /\ nodes h1 !! "a" = Some 0%nat /\ maxLevel h1 = 1%nat /\
     zDelete "a" h1 = Ret None h2 /\
     nodes h2 = ∅ /\ entryPoint h2 = Some 0%nat /\ maxLevel h2 = 1%nat).
Proof.
  split; do 2 eexists; repeat (split; [vm_compute; reflexivity |]); vm_compute; reflexivity.
Qed.

(** In the second state of C2 every search panics: the descent starts at
    the deleted node, whose id is no longer in the table. *)
Lemma Search_after_Delete_crashes :
  match insert_all (new_index DefaultHNSWConfig [0; half]) [("a", [0])] with
  | Some h1 =>
      match zDelete "a" h1 with
      | Ret None h2 => zSearch h2 [1] 3 50
      | _ => Ok []
      end
  | None => Ok []
  end = Crash.
Proof. vm_compute. reflexivity. Qed.

(** An index and a database that hold the single vector ["a"]. *)
Definition index_a : HNSWIndex (F := Z) :=
  final (zInsert "a" [0] None (new_index DefaultHNSWConfig [half; half; half])).

Definition config1 : DatabaseConfig :=
  {| Dimensions := 1; ConfigMetric := ManhattanDistance; IndexType := "hnsw";
     HNSW := DefaultHNSWConfig; PersistPath := "vectordb_data"; AutoSave := false;
     SaveInterval := 0 |}.

Definition db_new : VectorDatabase (F := Z) :=
  match NewVectorDatabase config1 [half; half; half] with
  | Ok db => db
  | _ => mkVectorDatabase (new_index DefaultHNSWConfig []) ∅ config1 1 "" false 0
  end.

Definition request (id : string) (x : Z) : InsertRequest :=
  mkInsertRequest (mkVector id [x]) None.

Definition db_a : VectorDatabase (F := Z) := db_final (zDB_Insert db_new (request "a" 0) 1).

(** Counterexample to C3 as stated: the index's [Insert] of a present id
    returns [nil] and replaces the registered node. *)
Lemma Insert_present_id_succeeds :
  nodes index_a !! "a" = Some 0%nat /\
  exists h', zInsert "a" [7] None index_a = Ret None h' /\
             nodes h' !! "a" = Some 1%nat /\ h' <> index_a.
Proof.
  split; [vm_compute; reflexivity |]. eexists.
  split; [vm_compute; reflexivity |]. split; [vm_compute; reflexivity |].
  intros Heq. apply (f_equal rng) in Heq. vm_compute in Heq. discriminate Heq.
Qed.

Lemma DB_Insert_existing_id_rejected_witness :
  zDB_Insert db_a (request "a" 7) 2 =
    Returned (Some (Errorf "vector with ID a already exists")) db_a.
Proof.
  refine (proj1 (DB_Insert_existing_id_rejected Z.ltb Z.opp zdist ziter
                   db_a (request "a" 7) 2 _)).
  vm_compute. eauto.
Defined.

(** Counterexample to C4 as stated: on a database that holds one vector,
    [Search] with [k = 0] returns one result. *)
Lemma DB_Search_k0_nonempty :
  zDB_Search db_a [1] 0 = Ok [mkSearchResult "a" 1].
Proof. vm_compute. reflexivity. Qed.

Lemma DB_Search_default_k_and_no_entry_witness :
  zDB_Search db_a [1] 0 = zDB_Search db_a [1] 10 /\
  zDB_Search db_new [1] 3 = Ok [].
Proof.
  split.
  - apply (proj1 (DB_Search_default_k_and_no_entry Z.ltb Z.opp zdist ziter db_a [1] 0)).
    lia.
  - apply (proj2 (DB_Search_default_k_and_no_entry Z.ltb Z.opp zdist ziter db_new [1] 3));
      reflexivity.
Defined.



Lemma keys_agree_preserved_witness :
  keys_agree (zapply_op db_new (OpInsert (request "a" 0) 1)) /\
  forall id cause, zDB_Get db_new id <> Err (DatabaseError "get" cause).
Proof.
  apply (keys_agree_preserved Z.ltb Z.opp zdist zfloat32 ziter db_new).
  vm_compute. reflexivity.
Defined.


(** The order of [Z] meets the assumptions on the float comparison. *)
Lemma Zltb_irrefl (x : Z) : (x <? x) = false.
Proof. apply Z.ltb_irrefl. Qed.

Lemma Zltb_trans (x y z : Z) : (x <? y) = true -> (y <? z) = true -> (x <? z) = true.
Proof. rewrite !Z.ltb_lt. lia. Qed.

Lemma Zltb_negtrans (x y z : Z) : (x <? z) = true -> (x <? y) = true \/ (y <? z) = true.
Proof. rewrite !Z.ltb_lt. lia. Qed.


Lemma ziter_NoDup (s : gset string) : NoDup (ziter s).
Proof. apply NoDup_elements. Qed.

Definition db_ab : VectorDatabase (F := Z) :=
  zapply_op (zapply_op db_new (OpInsert (request "a" 0) 1)) (OpInsert (request "b" 10) 2).

Lemma db_ab_reachable : reachable Z.ltb Z.opp zdist zfloat32 ziter db_ab.
Proof.
  unfold db_ab, zapply_op.
  apply reachable_step; [| exact I]. apply reachable_step; [| exact I].
  apply (reachable_new _ _ _ _ _ config1 [half; half; half]). reflexivity.
Qed.



(** ** Instances of the further properties *)

Lemma ziter_elem (s : gset string) (x : string) : x ∈ ziter s -> x ∈ s.
Proof. apply elem_of_elements. Qed.

Lemma ziter_complete (s : gset string) (x : string) : x ∈ s -> x ∈ ziter s.
Proof. apply elem_of_elements. Qed.

Definition zDB_Delete := @DB_Delete Z ziter.
Definition zDB_List := @DB_List Z ziter.
Definition zDB_Load := @DB_Load Z Z.ltb Z.opp zdist zfloat32 ziter.
Definition zreachable := @reachable Z Z.ltb Z.opp zdist zfloat32 ziter.

(** [db_ab] after the deletion of ["b"]. *)
Definition db_ab_less_b : VectorDatabase (F := Z) := db_final (zDB_Delete db_ab "b").

Lemma DB_Delete_removes_witness :
  zDB_Get db_ab_less_b "b" = Err (VectorNotFoundError "b") /\
  zDB_Delete db_ab_less_b "b" = Returned (Some (VectorNotFoundError "b")) db_ab_less_b /\
  forall id' r, id' <> "b" -> zDB_Get db_ab id' = Ok r -> zDB_Get db_ab_less_b id' = Ok r.
Proof.
  apply (DB_Delete_removes ziter db_ab db_ab_less_b "b"). vm_compute. reflexivity.
Defined.

Lemma DB_List_outcome_witness :
  len ["a"; "b"] = Z.max 0 (Z.min 10 (Z.of_nat (size (vectors db_ab)) - 0)) /\
  NoDup ["a"; "b"].
Proof.
  destruct (DB_List_outcome ziter ziter_NoDup ziter_elem ziter_complete db_ab 0 10)
    as (_ & _ & Hok); [unfold is_int; lia | unfold is_int; lia |].
  destruct (Hok ["a"; "b"]) as (Hlen & Hnd & _); [vm_compute; reflexivity |].
  split; [exact Hlen | exact Hnd].
Defined.


Lemma facade_errors_change_nothing_witness :
  db_ab = db_ab /\
  (Errorf "vector with ID a already exists" =
     DimensionMismatchError (db_dimensions db_ab) (len (Data (ReqVector (request "a" 7)))) /\
   len (Data (ReqVector (request "a" 7))) <> db_dimensions db_ab \/
   Errorf "vector with ID a already exists" =
     Errorf ("vector with ID " +:+ VecID (ReqVector (request "a" 7)) +:+ " already exists") /\
   is_Some (vectors db_ab !! VecID (ReqVector (request "a" 7)))).
Proof.
  apply (proj1 (facade_errors_change_nothing Z.ltb Z.opp zdist zfloat32 ziter
                  Zltb_irrefl Z.opp_involutive ziter_NoDup
                  db_ab db_ab (Errorf "vector with ID a already exists")
                  db_ab_reachable) (request "a" 7) 3).
  vm_compute. reflexivity.
Defined.

Lemma reachable_nodes_shape_witness : all_nodes node_shape (index db_ab).
Proof.
  apply (reachable_nodes_shape Z.ltb Z.opp zdist zfloat32 ziter
           Zltb_irrefl Z.opp_involutive ziter_NoDup db_ab).
  exact db_ab_reachable.
Defined.

Lemma DB_Get_dimension_witness :
  VecID (mkVector "a" [0]) = "a" /\ len (Data (mkVector "a" [0])) = db_dimensions db_ab.
Proof.
  apply (DB_Get_dimension Z.ltb Z.opp zdist zfloat32 ziter
           Zltb_irrefl Z.opp_involutive ziter_NoDup
           db_ab "a" (mkVector "a" [0]) (mkVectorMetadata 1 None)).
  - exact db_ab_reachable.
  - vm_compute. reflexivity.
Defined.



Lemma selectNeighbors_closest_witness :
  len [Some 0%nat] = 1 /\
  exists rest, [Some 0%nat] ++ rest ≡ₚ [Some 1%nat; Some 0%nat].
Proof.
  destruct (selectNeighbors_closest Z.ltb zdist Zltb_irrefl Zltb_trans Zltb_negtrans
              (index db_ab) [Some 1%nat; Some 0%nat] 1 [1] 0%nat [Some 0%nat])
    as [_ Hmore]; [vm_compute; reflexivity |].
  destruct Hmore as (Hlen & _ & rest & Hperm & _); [unfold len; cbn; lia |].
  split; [exact Hlen | by exists rest].
Defined.

Lemma reachable_degree_caps_witness :
  (Z.of_nat (size ({["b"]} : gset string)) <=
     Z.max 0 (if (0 =? 0)%nat then MaxM0 (HNSW (db_config db_ab))
              else M (HNSW (db_config db_ab)))).
Proof.
  apply (reachable_degree_caps Z.ltb Z.opp zdist zfloat32 ziter
           Zltb_irrefl Z.opp_involutive ziter_NoDup ziter_elem ziter_complete
           db_ab 0%nat (mkHNSWNode "a" [0] [{["b"]}] 0 None) 0%nat {["b"]}).
  - exact db_ab_reachable.
  - vm_compute. reflexivity.
  - reflexivity.
Defined.

(** A file with the single entry ["a"]. *)
Definition file_a : gmap string json :=
  {[ "a" := JObject {[ "vector" := JArray [JNumber 3] ]} ]}.

Definition db_loaded : VectorDatabase (F := Z) :=
  db_final (zDB_Load db_new (FileParsed file_a) 5).

Lemma DB_Load_restores_witness :
  dom (vectors db_loaded) = dom file_a ∪ dom (vectors db_new) /\
  forall id, id ∈ dom file_a ->
             exists v m, entry_of zfloat32 file_a id 5 = Some (v, m) /\
                         zDB_Get db_loaded id = Ok (mkVector id v, m).
Proof.
  apply (DB_Load_restores Z.ltb Z.opp zdist zfloat32 ziter
           ziter_NoDup ziter_elem ziter_complete db_new db_loaded file_a 5).
  vm_compute. reflexivity.
Defined.


Lemma estimateMemoryUsage_closed_form_witness :
  estimateMemoryUsage db_ab = Z.of_nat (size (vectors db_ab)) * (6 * db_dimensions db_ab + 100).
Proof.
  apply estimateMemoryUsage_closed_form; vm_compute; [discriminate | reflexivity].
Defined.

Lemma AverageLatency_in_range_witness :
  10 <= AverageLatency (record_latencies (NewStatsTracker 0) [(10, 1); (20, 2)]) <= 20.
Proof.
  apply AverageLatency_in_range; [lia | lia | discriminate |].
  repeat constructor; cbn; lia.
Defined.

Lemma handleListVectors_outcome_witness :
  1 <= resp_limit (mkListResponse ["a"; "b"] 0 50 2) <= 1000 /\
  NoDup (resp_vectors (mkListResponse ["a"; "b"] 0 50 2)).
Proof.
  destruct (handleListVectors_outcome ziter ziter_NoDup ziter_elem ziter_complete db_ab 0 0)
    as [_ Hok]; [unfold is_int; lia | unfold is_int; lia | vm_compute; reflexivity |].
  destruct (Hok (mkListResponse ["a"; "b"] 0 50 2)) as (Hrange & _ & _ & _ & _ & Hnd & _);
    [vm_compute; reflexivity |].
  split; [exact Hrange | exact Hnd].
Defined.

Lemma db_ab_grown : grown Z.ltb Z.opp zdist zfloat32 ziter db_ab.
Proof.
  unfold db_ab, zapply_op.
  apply grown_step; [| exact I | reflexivity]. apply grown_step; [| exact I | reflexivity].
  apply (grown_new _ _ _ _ _ config1 [half; half; half]). reflexivity.
Qed.



Lemma insert_only_entry_point_witness :
  (entryPoint (index db_ab) = None <-> vectors db_ab = ∅) /\
  (forall e, entryPoint (index db_ab) = Some e ->
             exists n, mem (index db_ab) !! e = Some n /\
                       nodes (index db_ab) !! ID n = Some e /\
                       is_Some (vectors db_ab !! ID n) /\
                       Level n = maxLevel (index db_ab)) /\
  (forall x a n, nodes (index db_ab) !! x = Some a -> mem (index db_ab) !! a = Some n ->
                 (Level n <= maxLevel (index db_ab))%nat).
Proof.
  apply (insert_only_entry_point Z.ltb Z.opp zdist zfloat32 ziter
           Zltb_irrefl Z.opp_involutive ziter_NoDup db_ab).
  exact db_ab_grown.
Defined.

Lemma insert_only_neighbours_stored_witness :
  is_Some (vectors db_ab !! "b") /\ exists r, zDB_Get db_ab "b" = Ok r.
Proof.
  apply (insert_only_neighbours_stored Z.ltb Z.opp zdist zfloat32 ziter
           Zltb_irrefl Z.opp_involutive ziter_NoDup ziter_elem ziter_complete
           db_ab "a" "b" 0%nat 0%nat (mkHNSWNode "a" [0] [{["b"]}] 0 None) {["b"]}).
  - exact db_ab_grown.
  - vm_compute. discriminate.
  - vm_compute. discriminate.
  - vm_compute. reflexivity.
  - vm_compute. reflexivity.
  - reflexivity.
  - by apply elem_of_singleton.
Defined.


(** [db_ab] with a third vector. *)
Definition db_abc : VectorDatabase (F := Z) := zapply_op db_ab (OpInsert (request "c" 3) 3).



Definition zhandleInsertVector := @handleInsertVector Z Z.ltb Z.opp zdist ziter.
Definition zhandleSearch := @handleSearch Z Z.ltb Z.opp zdist ziter.

Lemma handleInsertVector_status_witness :
  (status_of (InsertedReply (F := Z) "c") = StatusBadRequest <->
     bad_insert db_ab (Some (request "c" 3))) /\
  (status_of (InsertedReply (F := Z) "c") = StatusInternalServerError <->
     ~ bad_insert db_ab (Some (request "c" 3)) /\ names_stored db_ab (Some (request "c" 3))) /\
  (status_of (InsertedReply (F := Z) "c") = StatusCreated <->
     ~ bad_insert db_ab (Some (request "c" 3)) /\
     ~ names_stored db_ab (Some (request "c" 3))) /\
  (status_of (InsertedReply (F := Z) "c") <> StatusCreated -> db_abc = db_ab) /\
  (status_of (InsertedReply (F := Z) "c") = StatusCreated ->
   exists req, Some (request "c" 3) = Some req /\
               zDB_Get db_abc (VecID (ReqVector req)) =
                 Ok (mkVector (VecID (ReqVector req)) (Data (ReqVector req)),
                     mkVectorMetadata 3 (ReqMetadata req))).
Proof.
  apply (handleInsertVector_status Z.ltb Z.opp zdist zfloat32 ziter
           db_ab db_abc (Some (request "c" 3)) 3 (InsertedReply "c")).
  - exact db_ab_reachable.
  - vm_compute. reflexivity.
Defined.






(** A tracker beside [db_ab]: after the insertions of ["a"] and ["b"] and a
    second, rejected insertion of ["b"]. *)
Definition zstats_after := @stats_after Z Z.ltb Z.opp zdist zfloat32 ziter.

Definition tick (t : Z) : readings := mkReadings t 5 (t + 1) (t + 2).

Definition stats_new : DatabaseStats := UpdateDimensions (NewStatsTracker 0) 1 0.

Definition stats_a : DatabaseStats :=
  zstats_after stats_new db_new (OpInsert (request "a" 0) 1) (tick 1).

Definition stats_ab : DatabaseStats :=
  zstats_after stats_a (zapply_op db_new (OpInsert (request "a" 0) 1))
    (OpInsert (request "b" 10) 2) (tick 4).

Definition stats_abb : DatabaseStats :=
  zstats_after stats_ab db_ab (OpInsert (request "b" 10) 3) (tick 7).

Definition db_abb : VectorDatabase (F := Z) := zapply_op db_ab (OpInsert (request "b" 10) 3).

Lemma GetStats_counts_stored_vectors_witness :
  VectorCount (DB_GetStats stats_abb db_abb) = Z.of_nat (size (vectors db_abb)) /\
  StatsDimensions (DB_GetStats stats_abb db_abb) = db_dimensions db_abb /\
  StatsIndexType (DB_GetStats stats_abb db_abb) = "hnsw" /\
  MemoryUsage (DB_GetStats stats_abb db_abb) = estimateMemoryUsage db_abb.
Proof.
  apply (GetStats_counts_stored_vectors Z.ltb Z.opp zdist zfloat32 ziter stats_abb db_abb).
  unfold stats_abb, db_abb, stats_ab, db_ab, stats_a, stats_new, zstats_after, zapply_op.
  apply tracked_step; [| exact I]. apply tracked_step; [| exact I].
  apply tracked_step; [| exact I].
  apply (tracked_new _ _ _ _ _ config1 [half; half; half] db_new 0 0). reflexivity.
Defined.

(** * internal/distance.go: the distance kernels

    The float32 operations are parameters: the constants 0, 1 and +Inf,
    the comparison [==], subtraction, addition, multiplication, division and
    negation, [float32(math.Sqrt(float64(x)))] and
    [float32(math.Abs(float64(x)))].  [muladd s x y] is what
    [s += x * y] leaves in [s]: the sum of [s] and the rounded product, or,
    where the compiler fuses the two operations, the rounded sum of [s] and
    the exact product. *)

Module Distance.

Section Kernel.

Context {F : Type}.
Variables (fzero fone finf : F).
Variable feqb : F -> F -> bool.
Variables (fadd fsub fmul fdiv : F -> F -> F).
Variables (fneg sqrt32 abs32 : F -> F).
Variable muladd : F -> F -> F -> F.

(** The loop [for i := 0; i < len(a); i++] over two slices of one length. *)
Fixpoint cosine_loop (a b : list F) (acc : F * F * F) : F * F * F :=
  match a, b with
  | x :: a', y :: b' =>
      let '(dotProduct, normA, normB) := acc in
      cosine_loop a' b' (muladd dotProduct x y, muladd normA x x, muladd normB y y)
  | _, _ => acc
  end.

Definition CosineSimilarityScore (a b : list F) : F :=
  if negb (length a =? length b)%nat then fzero
  else
    let '(dotProduct, normA, normB) := cosine_loop a b (fzero, fzero, fzero) in
    if feqb normA fzero || feqb normB fzero then fzero
    else fdiv dotProduct (fmul (sqrt32 normA) (sqrt32 normB)).

Fixpoint euclidean_loop (a b : list F) (sum : F) : F :=
  match a, b with
  | x :: a', y :: b' =>
      let diff := fsub x y in
      euclidean_loop a' b' (muladd sum diff diff)
  | _, _ => sum
  end.

Definition EuclideanDistanceScore (a b : list F) : F :=
  if negb (length a =? length b)%nat then finf
  else sqrt32 (euclidean_loop a b fzero).

Fixpoint dot_loop (a b : list F) (sum : F) : F :=
  match a, b with
  | x :: a', y :: b' => dot_loop a' b' (muladd sum x y)
  | _, _ => sum
  end.

Definition DotProductScore (a b : list F) : F :=
  if negb (length a =? length b)%nat then fzero
  else dot_loop a b fzero.

Fixpoint manhattan_loop (a b : list F) (sum : F) : F :=
  match a, b with
  | x :: a', y :: b' => manhattan_loop a' b' (fadd sum (abs32 (fsub x y)))
  | _, _ => sum
  end.

Definition ManhattanDistanceScore (a b : list F) : F :=
  if negb (length a =? length b)%nat then finf
  else manhattan_loop a b fzero.

Definition CalculateDistance (a b : list F) (metric : DistanceMetric) : F :=
  if (metric =? CosineSimilarity)%Z then fsub fone (CosineSimilarityScore a b)
  else if (metric =? EuclideanDistance)%Z then EuclideanDistanceScore a b
  else if (metric =? DotProduct)%Z then fneg (DotProductScore a b)
  else if (metric =? ManhattanDistance)%Z then ManhattanDistanceScore a b
  else EuclideanDistanceScore a b.

(** ** Symmetry *)

Section Symmetry.

Hypothesis fmul_comm : forall x y, fmul x y = fmul y x.
Hypothesis muladd_comm : forall s x y, muladd s x y = muladd s y x.
Hypothesis muladd_square : forall s x y,
  muladd s (fsub x y) (fsub x y) = muladd s (fsub y x) (fsub y x).
Hypothesis abs32_sub : forall x y, abs32 (fsub x y) = abs32 (fsub y x).

Lemma cosine_loop_swap (a b : list F) (d na nb : F) :
  cosine_loop b a (d, nb, na) =
    let '(d', na', nb') := cosine_loop a b (d, na, nb) in (d', nb', na').
Proof.
  revert b d na nb. induction a as [| x a IH]; intros [| y b] d na nb; cbn; try done.
  rewrite (muladd_comm d y x). apply IH.
Qed.

Lemma euclidean_loop_swap (a b : list F) (sum : F) :
  euclidean_loop b a sum = euclidean_loop a b sum.
Proof.
  revert b sum. induction a as [| x a IH]; intros [| y b] sum; cbn; try done.
  rewrite (muladd_square sum y x). apply IH.
Qed.

Lemma dot_loop_swap (a b : list F) (sum : F) : dot_loop b a sum = dot_loop a b sum.
Proof.
  revert b sum. induction a as [| x a IH]; intros [| y b] sum; cbn; try done.
  rewrite (muladd_comm sum y x). apply IH.
Qed.

Lemma manhattan_loop_swap (a b : list F) (sum : F) :
  manhattan_loop b a sum = manhattan_loop a b sum.
Proof.
  revert b sum. induction a as [| x a IH]; intros [| y b] sum; cbn; try done.
  rewrite (abs32_sub y x). apply IH.
Qed.

Lemma CosineSimilarityScore_swap (a b : list F) :
  CosineSimilarityScore b a = CosineSimilarityScore a b.
Proof.
  unfold CosineSimilarityScore. rewrite (Nat.eqb_sym (length b)).
  destruct (length a =? length b)%nat; [| done]. cbn [negb].
  rewrite cosine_loop_swap. destruct (cosine_loop a b _) as [[d na] nb].
  rewrite orb_comm. destruct (_ || _); [done |]. by rewrite fmul_comm.
Qed.

(** The distance from [a] to [b] is the distance from [b] to [a], under
    each metric and whatever the lengths, when the multiplication of two
    floats, also as part of [s += x * y], does not depend on the order of
    its operands and [x - y] and [y - x] have the same square and the same
    absolute value (as on floats, up to the payload of a NaN). *)
Theorem CalculateDistance_symmetric (a b : list F) (metric : DistanceMetric) :
  CalculateDistance a b metric = CalculateDistance b a metric.
Proof.
  unfold CalculateDistance, EuclideanDistanceScore, DotProductScore, ManhattanDistanceScore.
  rewrite (CosineSimilarityScore_swap a b), (Nat.eqb_sym (length b)).
  by rewrite euclidean_loop_swap, dot_loop_swap, manhattan_loop_swap.
Qed.

End Symmetry.

(** ** The distance of a vector to itself *)

Section Self.

Hypothesis muladd_zero : muladd fzero fzero fzero = fzero.
Hypothesis fadd_zero : fadd fzero fzero = fzero.
Hypothesis abs32_zero : abs32 fzero = fzero.
Hypothesis sqrt32_zero : sqrt32 fzero = fzero.

Lemma euclidean_loop_self (a : list F) :
  Forall (fun x => fsub x x = fzero) a -> euclidean_loop a a fzero = fzero.
Proof.
  induction 1 as [| x a Hx _ IH]; cbn; [done |]. by rewrite Hx, muladd_zero.
Qed.

Lemma manhattan_loop_self (a : list F) :
  Forall (fun x => fsub x x = fzero) a -> manhattan_loop a a fzero = fzero.
Proof.
  induction 1 as [| x a Hx _ IH]; cbn; [done |]. by rewrite Hx, abs32_zero, fadd_zero.
Qed.

(** Under the Euclidean metric, the Manhattan metric and every metric
    that is none of the four, a vector whose components give 0 when
    subtracted from themselves (all but the infinities and NaN) has the
    distance 0 to itself. *)
Theorem CalculateDistance_self (a : list F) (metric : DistanceMetric) :
  Forall (fun x => fsub x x = fzero) a ->
  metric <> CosineSimilarity -> metric <> DotProduct ->
  CalculateDistance a a metric = fzero.
Proof.
  intros Ha Hcos Hdot.
  unfold CalculateDistance, EuclideanDistanceScore, ManhattanDistanceScore.
  rewrite Nat.eqb_refl. cbn [negb].
  destruct (Z.eqb_spec metric CosineSimilarity); [done |].
  destruct (Z.eqb_spec metric DotProduct); [done |].
  rewrite (euclidean_loop_self a Ha), (manhattan_loop_self a Ha), sqrt32_zero.
  by repeat destruct (_ =? _)%Z.
Qed.

End Self.

End Kernel.

(** The kernels over the integers, with the integer square root. *)
Definition zCalculateDistance : list Z -> list Z -> DistanceMetric -> Z :=
  CalculateDistance 0 1 (-1) Z.eqb Z.add Z.sub Z.mul Z.div Z.opp Z.sqrt Z.abs
    (fun s x y => s + x * y).

Lemma CalculateDistance_symmetric_witness :
  zCalculateDistance [1; 2] [4; 6] EuclideanDistance =
  zCalculateDistance [4; 6] [1; 2] EuclideanDistance.
Proof.
  apply (CalculateDistance_symmetric 0 1 (-1) Z.eqb Z.add Z.sub Z.mul Z.div Z.opp Z.sqrt Z.abs
           (fun s x y => s + x * y)).
  - intros x y. lia.
  - intros s x y. lia.
  - intros s x y. nia.
  - intros x y. lia.
Defined.

Lemma CalculateDistance_self_witness :
  zCalculateDistance [4; 6] [4; 6] ManhattanDistance = 0.
Proof.
  apply (CalculateDistance_self 0 1 (-1) Z.eqb Z.add Z.sub Z.mul Z.div Z.opp Z.sqrt Z.abs
           (fun s x y => s + x * y)).
  - reflexivity.
  - reflexivity.
  - reflexivity.
  - reflexivity.
  - repeat constructor; lia.
  - discriminate.
  - discriminate.
Defined.

End Distance.
